(** * PDF-Comparator: the text-diff engine of [text_comparison.py]

    A shallow embedding of [compare_texts] and [generate_summary], of the
    Python built-ins they call ([str.replace], [str.split], [str.join],
    [re.split], [len]) and of [difflib.SequenceMatcher] (CPython 3.11,
    [Lib/difflib.py]) with its default arguments [isjunk=None] and
    [autojunk=True].

    A Python [str] is a sequence of Unicode code points; it is modelled as
    a list of code points [N].  Python integers are unbounded; indices and
    counters are [nat].  A Python exception is a value of [result].

    Besides the engine: [clean_text] of [pdf_processor.py], which prepares
    the texts, and [highlight_differences] and [count_change_types] of
    [utils.py], which read the records. *)

From Stdlib Require Import Ascii String SpecFloat DecimalString.
From stdpp Require Import gmap list sorting strings.

Set Warnings "-clear-no-such-hyp".

(** ** Exceptions *)

Inductive exn := IndexError | ZeroDivisionError | OutOfFuel.

Inductive result (A : Type) :=
  | Ok (x : A)
  | Raise (e : exn).
Global Arguments Ok {A} x.
Global Arguments Raise {A} e.

Global Instance result_ret : MRet result := λ A x, Ok x.
Global Instance result_bind : MBind result := λ A B f m,
  match m with Ok x => f x | Raise e => Raise e end.
Global Instance result_fmap : FMap result := λ A B f m,
  match m with Ok x => Ok (f x) | Raise e => Raise e end.

(** [l[i]] for a non-negative index. *)
Definition index {A} (l : list A) (i : nat) : result A :=
  match l !! i with Some x => Ok x | None => Raise IndexError end.

(** [l[i:j]] for non-negative bounds: out-of-range bounds are clamped. *)
Definition slice {A} (l : list A) (i j : nat) : list A :=
  take (j - i) (drop i l).

(** [[f(x) for x in l]] where [f] may raise. *)
Fixpoint for_each {A B} (f : A → result B) (l : list A) : result (list B) :=
  match l with
  | [] => Ok []
  | x :: l' => y ← f x; ys ← for_each f l'; Ok (y :: ys)
  end.

(** ** Strings *)

Abbreviation str := (list N).

(** The code points of a literal. *)
Definition py (s : string) : str :=
  (λ c, N_of_ascii c) <$> list_ascii_of_string s.

Module Char.
Definition NL : N := 10.          (* '\n' *)
Definition SP : N := 32.          (* ' ' *)
Definition BANG : N := 33.        (* '!' *)
Definition DOT : N := 46.         (* '.' *)
Definition QUERY : N := 63.       (* '?' *)
Definition LT : N := 60.          (* '<' *)
Definition GT : N := 62.          (* '>' *)
Definition LBRACE : N := 123.     (* '{' *)
Definition RBRACE : N := 125.     (* '}' *)

(** [str.isspace] on one code point, which is also what [\s] matches in
    a [str] pattern. *)
Definition is_space (c : N) : bool :=
  ((9 <=? c) && (c <=? 13) || (28 <=? c) && (c <=? 32)
   || (c =? 133) || (c =? 160) || (c =? 5760)
   || (8192 <=? c) && (c <=? 8202)
   || (c =? 8232) || (c =? 8233) || (c =? 8239) || (c =? 8287)
   || (c =? 12288))%N.

(** The character class [[.!?]]. *)
Definition is_sentence_end (c : N) : bool :=
  ((c =? DOT) || (c =? BANG) || (c =? QUERY))%N.
End Char.

Module Str.
(** [s.replace(old, new)] for a one-character [old]. *)
Definition replace (old : N) (new : str) (s : str) : str :=
  c ← s; if decide (c = old) then new else [c].

(** [sep.join(l)] *)
Fixpoint join (sep : str) (l : list str) : str :=
  match l with
  | [] => []
  | [x] => x
  | x :: l' => x ++ sep ++ join sep l'
  end.

(** [s.split('\n\n')]: cut at every occurrence of two newlines, scanning
    from the left; [cur] is the piece being read. *)
Fixpoint split_nlnl_go (cur : str) (s : str) : list str :=
  match s with
  | [] => [cur]
  | c :: s' =>
    match s' with
    | c' :: s'' =>
      if decide (c = Char.NL ∧ c' = Char.NL)
      then cur :: split_nlnl_go [] s''
      else split_nlnl_go (cur ++ [c]) s'
    | [] => split_nlnl_go (cur ++ [c]) s'
    end
  end.
Definition split_nlnl (s : str) : list str := split_nlnl_go [] s.

(** [re.split(r'(?<=[.!?])\s+', s)].  A match starts at a whitespace
    character that follows one of [.!?] and takes the whole run of
    whitespace ([in_sep]); [prev_end] says that the character just read
    is one of [.!?]. *)
Fixpoint re_split_go (in_sep prev_end : bool) (cur : str) (s : str)
    : list str :=
  match s with
  | [] => [cur]
  | c :: s' =>
    if in_sep then
      if Char.is_space c then re_split_go true false cur s'
      else re_split_go false (Char.is_sentence_end c) (cur ++ [c]) s'
    else if prev_end && Char.is_space c then
      cur :: re_split_go true false [] s'
    else re_split_go false (Char.is_sentence_end c) (cur ++ [c]) s'
  end.
Definition re_split_sentences (s : str) : list str :=
  re_split_go false false [] s.

(** [s.split()]: the maximal runs of non-whitespace characters. *)
Fixpoint split_ws_go (cur : option str) (s : str) : list str :=
  match s with
  | [] => option_list cur
  | c :: s' =>
    if Char.is_space c then option_list cur ++ split_ws_go None s'
    else split_ws_go (Some (default [] cur ++ [c])) s'
  end.
Definition split_ws (s : str) : list str := split_ws_go None s.
End Str.

(** ** Floats

    A Python [float] is an IEEE 754 binary64 number. *)

Abbreviation float := spec_float.

Module Float.
Definition prec : Z := 53.
Definition emax : Z := 1024.

(** The integer [n] as an exact (not yet rounded) binary number. *)
Definition exact (n : nat) : float :=
  match n with
  | 0 => S754_zero false
  | S _ => S754_finite false (Pos.of_nat n) 0
  end.

(** [a / b] on integers: the correctly rounded quotient. *)
Definition int_truediv (a b : nat) : result float :=
  match b with
  | 0 => Raise ZeroDivisionError
  | S _ => Ok (SFdiv prec emax (exact a) (exact b))
  end.

(** [x * n] for a float [x] and an integer [n]. *)
Definition mul_int (x : float) (n : nat) : float :=
  SFmul prec emax x (exact n).
End Float.

(** ** difflib.SequenceMatcher

    [SequenceMatcher(None, a, b)]: no junk predicate, automatic junk
    heuristic on.  The elements are hashable ([Countable]). *)

(** [Match(a, b, size)] *)
Record Match := mkMatch { m_a : nat; m_b : nat; m_size : nat }.

Inductive Tag := Replace | Delete | Insert | Equal.

(** One opcode [(tag, i1, i2, j1, j2)]. *)
Record Opcode := mkOp {
  op_tag : Tag; op_i1 : nat; op_i2 : nat; op_j1 : nat; op_j2 : nat
}.

Global Instance Match_eq_dec : EqDecision Match.
Proof. solve_decision. Defined.
Global Instance Tag_eq_dec : EqDecision Tag.
Proof. solve_decision. Defined.
Global Instance Opcode_eq_dec : EqDecision Opcode.
Proof. solve_decision. Defined.

(** The order of [list.sort] on the tuples [(a, b, size)]. *)
Definition match_le (x y : Match) : Prop :=
  m_a x < m_a y ∨
  (m_a x = m_a y ∧ (m_b x < m_b y ∨ (m_b x = m_b y ∧ m_size x ≤ m_size y))).

Global Instance match_le_dec : RelDecision match_le.
Proof. intros x y. unfold match_le. apply _. Defined.

Module SequenceMatcher.
Section Matcher.
Context `{Countable A}.
Variables a b : list A.

(** *** [__chain_b] *)

(** [b2j.setdefault(elt, []).append(i)] *)
Definition record_index (b2j : gmap A (list nat)) (i : nat) (elt : A)
    : gmap A (list nat) :=
  <[elt := default [] (b2j !! elt) ++ [i]]> b2j.

(** [for i, elt in enumerate(b)], from index [i] on. *)
Fixpoint index_elements (i : nat) (l : list A) (b2j : gmap A (list nat))
    : gmap A (list nat) :=
  match l with
  | [] => b2j
  | elt :: l' => index_elements (S i) l' (record_index b2j i elt)
  end.

(** No junk predicate: [bjunk] stays empty. *)
Definition bjunk : gset A := ∅.

(** The elements that occur more than [n // 100 + 1] times, when
    [n >= 200]. *)
Definition bpopular (b2j : gmap A (list nat)) : gset A :=
  let n := length b in
  if decide (200 ≤ n) then
    let ntest := n / 100 + 1 in
    dom (filter (λ kv, ntest < length kv.2) b2j)
  else ∅.

Definition b2j : gmap A (list nat) :=
  let b2j := index_elements 0 b ∅ in
  let popular := bpopular b2j in
  filter (λ kv, kv.1 ∉ popular) b2j.

(** *** [find_longest_match] *)

(** [x == y] for two elements read by index; the indices are in range
    wherever the matcher reads. *)
Definition same (x y : option A) : bool :=
  match x, y with
  | Some u, Some v => bool_decide (u = v)
  | _, _ => false
  end.

Definition isbjunk (x : option A) : bool :=
  match x with Some u => bool_decide (u ∈ bjunk) | None => false end.

(** [j2len.get(j-1, 0)]: there is no key [-1]. *)
Definition j2len_get_prev (j2len : gmap nat nat) (j : nat) : nat :=
  match j with
  | 0 => 0
  | S j' => default 0 (j2len !! j')
  end.

(** The inner loop [for j in b2j.get(a[i], nothing)] with its [continue]
    and [break].  [i-k+1] is written [i+1-k]: [k <= i+1] and [nat]
    subtraction truncates. *)
Fixpoint scan_row (i blo bhi : nat) (js : list nat)
    (j2len newj2len : gmap nat nat) (best : Match)
    : gmap nat nat * Match :=
  match js with
  | [] => (newj2len, best)
  | j :: js' =>
    if decide (j < blo) then scan_row i blo bhi js' j2len newj2len best
    else if decide (bhi ≤ j) then (newj2len, best)
    else
      let k := j2len_get_prev j2len j + 1 in
      let newj2len := <[j := k]> newj2len in
      let best :=
        if decide (m_size best < k) then mkMatch (i + 1 - k) (j + 1 - k) k
        else best in
      scan_row i blo bhi js' j2len newj2len best
  end.

Definition instances (x : option A) : list nat :=
  match x with
  | Some u => default [] (b2j !! u)
  | None => []
  end.

(** The outer loop [for i in range(alo, ahi)] over the [rows]. *)
Fixpoint scan_rows (blo bhi : nat) (rows : list nat)
    (j2len : gmap nat nat) (best : Match) : Match :=
  match rows with
  | [] => best
  | i :: rows' =>
    let '(newj2len, best) :=
      scan_row i blo bhi (instances (a !! i)) j2len ∅ best in
    scan_rows blo bhi rows' newj2len best
  end.

(** [while besti > alo and bestj > blo and <junk test> and
    a[besti-1] == b[bestj-1]]: step back one element at a time. *)
Fixpoint extend_back (junk : bool) (alo blo : nat)
    (besti bestj bestsize : nat) : Match :=
  match besti, bestj with
  | S i', S j' =>
    if decide (alo < besti ∧ blo < bestj ∧ isbjunk (b !! j') = junk
               ∧ same (a !! i') (b !! j') = true)
    then extend_back junk alo blo i' j' (S bestsize)
    else mkMatch besti bestj bestsize
  | _, _ => mkMatch besti bestj bestsize
  end.

(** [while besti+bestsize < ahi and bestj+bestsize < bhi and <junk test>
    and a[besti+bestsize] == b[bestj+bestsize]]; [room] is
    [ahi - (besti+bestsize)], the number of elements left in [a]. *)
Fixpoint extend_forward (junk : bool) (room : nat) (bhi : nat)
    (besti bestj bestsize : nat) : Match :=
  match room with
  | 0 => mkMatch besti bestj bestsize
  | S room' =>
    if decide (bestj + bestsize < bhi
               ∧ isbjunk (b !! (bestj + bestsize)) = junk
               ∧ same (a !! (besti + bestsize)) (b !! (bestj + bestsize))
                 = true)
    then extend_forward junk room' bhi besti bestj (S bestsize)
    else mkMatch besti bestj bestsize
  end.

Definition extend (junk : bool) (alo ahi blo bhi : nat) (m : Match)
    : Match :=
  let m := extend_back junk alo blo (m_a m) (m_b m) (m_size m) in
  extend_forward junk (ahi - (m_a m + m_size m)) bhi
    (m_a m) (m_b m) (m_size m).

Definition find_longest_match (alo ahi blo bhi : nat) : Match :=
  let best :=
    scan_rows blo bhi (seq alo (ahi - alo)) ∅ (mkMatch alo blo 0) in
  let best := extend false alo ahi blo bhi best in
  extend true alo ahi blo bhi best.

(** *** [get_matching_blocks] *)

(** The [while queue] loop.  [queue] is a stack: its head is the last
    element of the Python list, the one [queue.pop()] takes. *)
Fixpoint match_queue (fuel : nat) (queue : list (nat * nat * nat * nat))
    (matching_blocks : list Match) : result (list Match) :=
  match fuel with
  | 0 => Raise OutOfFuel
  | S fuel' =>
    match queue with
    | [] => Ok matching_blocks
    | (alo, ahi, blo, bhi) :: queue =>
      let x := find_longest_match alo ahi blo bhi in
      let '(i, j, k) := (m_a x, m_b x, m_size x) in
      if decide (k = 0) then match_queue fuel' queue matching_blocks
      else
        let queue :=
          if decide (alo < i ∧ blo < j) then (alo, i, blo, j) :: queue
          else queue in
        let queue :=
          if decide (i + k < ahi ∧ j + k < bhi)
          then (i + k, ahi, j + k, bhi) :: queue
          else queue in
        match_queue fuel' queue (matching_blocks ++ [x])
    end
  end.

(** One step of the loop that merges adjacent blocks; the state is
    [(i1, j1, k1)] and [non_adjacent]. *)
Definition collapse_step (st : Match * list Match) (x : Match)
    : Match * list Match :=
  let '(cur, non_adjacent) := st in
  if decide (m_a cur + m_size cur = m_a x ∧ m_b cur + m_size cur = m_b x)
  then (mkMatch (m_a cur) (m_b cur) (m_size cur + m_size x), non_adjacent)
  else
    (x, if decide (m_size cur = 0) then non_adjacent
        else non_adjacent ++ [cur]).

Definition collapse (matching_blocks : list Match) : list Match :=
  let '(cur, non_adjacent) :=
    foldl collapse_step (mkMatch 0 0 0, []) matching_blocks in
  let non_adjacent :=
    if decide (m_size cur = 0) then non_adjacent
    else non_adjacent ++ [cur] in
  non_adjacent ++ [mkMatch (length a) (length b) 0].

(** Every turn of the loop takes one range off the queue and puts back
    at most two strictly smaller ones, so [2 * len(a) + 2] turns are
    enough (lemma [match_queue_terminates]). *)
Definition get_matching_blocks : result (list Match) :=
  let '(la, lb) := (length a, length b) in
  matching_blocks ← match_queue (2 * la + 2) [(0, la, 0, lb)] [];
  Ok (collapse (merge_sort match_le matching_blocks)).

(** *** [get_opcodes] *)

Definition opcode_step (st : nat * nat * list Opcode) (x : Match)
    : nat * nat * list Opcode :=
  let '(i, j, answer) := st in
  let '(ai, bj, size) := (m_a x, m_b x, m_size x) in
  let answer :=
    if decide (i < ai ∧ j < bj) then answer ++ [mkOp Replace i ai j bj]
    else if decide (i < ai) then answer ++ [mkOp Delete i ai j bj]
    else if decide (j < bj) then answer ++ [mkOp Insert i ai j bj]
    else answer in
  let '(i, j) := (ai + size, bj + size) in
  let answer :=
    if decide (size = 0) then answer
    else answer ++ [mkOp Equal ai i bj j] in
  (i, j, answer).

Definition opcodes_of (blocks : list Match) : list Opcode :=
  (foldl opcode_step (0, 0, []) blocks).2.

Definition get_opcodes : result (list Opcode) :=
  opcodes_of <$> get_matching_blocks.
End Matcher.
End SequenceMatcher.

(** ** text_comparison.py *)

(** A difference object: the dict with keys ['type'], ['old_content'] and
    ['new_content']. *)
Record DiffRecord := mkDiff {
  type : str; old_content : str; new_content : str
}.

Global Instance DiffRecord_eq_dec : EqDecision DiffRecord.
Proof. solve_decision. Defined.

Definition sanitize_for_display (text : str) : str :=
  let text :=
    Str.replace Char.GT (py "&gt;") (Str.replace Char.LT (py "&lt;") text) in
  let text :=
    Str.replace Char.RBRACE (py "&#125;")
      (Str.replace Char.LBRACE (py "&#123;") text) in
  text.

(** The body of [for s_tag, s_i1, s_i2, s_j1, s_j2 in sentence_opcodes]:
    the records one sentence opcode appends to [differences]. *)
Definition sentence_records (old_sentences new_sentences : list str)
    (op : Opcode) : result (list DiffRecord) :=
  let '(s_i1, s_i2, s_j1, s_j2) := (op_i1 op, op_i2 op, op_j1 op, op_j2 op) in
  match op_tag op with
  | Equal =>
    for_each (λ s_i,
        s ← index old_sentences s_i;
        Ok (mkDiff (py "equal") s s))
      (seq s_i1 (s_i2 - s_i1))
  | Replace =>
    Ok [mkDiff (py "modified")
          (Str.join (py " ") (slice old_sentences s_i1 s_i2))
          (Str.join (py " ") (slice new_sentences s_j1 s_j2))]
  | Delete =>
    Ok [mkDiff (py "deleted")
          (Str.join (py " ") (slice old_sentences s_i1 s_i2)) []]
  | Insert =>
    Ok [mkDiff (py "added") []
          (Str.join (py " ") (slice new_sentences s_j1 s_j2))]
  end.

(** The records a list of opcodes appends to [differences], opcode after
    opcode. *)
Definition append_all {X} (f : X → result (list DiffRecord)) (ops : list X)
    : result (list DiffRecord) :=
  (λ rss, concat rss) <$> for_each f ops.

(** The body of [for tag, i1, i2, j1, j2 in opcodes]. *)
Definition paragraph_records (paragraphs1 paragraphs2 : list str)
    (op : Opcode) : result (list DiffRecord) :=
  let '(i1, i2, j1, j2) := (op_i1 op, op_i2 op, op_j1 op, op_j2 op) in
  match op_tag op with
  | Equal =>
    for_each (λ i,
        p ← index paragraphs1 i;
        Ok (mkDiff (py "equal") p p))
      (seq i1 (i2 - i1))
  | Replace =>
    let nlnl := [Char.NL; Char.NL] in
    let old_content := Str.join nlnl (slice paragraphs1 i1 i2) in
    let new_content := Str.join nlnl (slice paragraphs2 j1 j2) in
    let old_sentences := Str.re_split_sentences old_content in
    let new_sentences := Str.re_split_sentences new_content in
    sentence_opcodes ←
      SequenceMatcher.get_opcodes old_sentences new_sentences;
    append_all (sentence_records old_sentences new_sentences)
      sentence_opcodes
  | Delete =>
    for_each (λ i,
        p ← index paragraphs1 i;
        Ok (mkDiff (py "deleted") p []))
      (seq i1 (i2 - i1))
  | Insert =>
    for_each (λ j,
        p ← index paragraphs2 j;
        Ok (mkDiff (py "added") [] p))
      (seq j1 (j2 - j1))
  end.

Definition compare_texts (text1 text2 : str) : result (list DiffRecord) :=
  let text1 := sanitize_for_display text1 in
  let text2 := sanitize_for_display text2 in
  let paragraphs1 := Str.split_nlnl text1 in
  let paragraphs2 := Str.split_nlnl text2 in
  opcodes ← SequenceMatcher.get_opcodes paragraphs1 paragraphs2;
  append_all (paragraph_records paragraphs1 paragraphs2) opcodes.

(** *** [generate_summary] *)

(** A percentage is the integer [0] or a float. *)
Inductive number := Int (n : nat) | Flt (x : float).

Record WordStats := mkWordStats {
  count : nat; percentage : number; words : nat
}.
Record ModStats := mkModStats {
  mod_count : nat; mod_percentage : number;
  words_old : nat; words_new : nat
}.
Record EqualStats := mkEqualStats {
  eq_count : nat; eq_percentage : number
}.
Record Summary := mkSummary {
  total_elements : nat;
  additions : WordStats;
  deletions : WordStats;
  modifications : ModStats;
  unchanged : EqualStats
}.

(** The local variables of the counting loop. *)
Record Tally := mkTally {
  added : nat; deleted : nat; modified : nat; unchanged_n : nat;
  added_content : list str;
  deleted_content : list str;
  modified_content : list (str * str)
}.

(** The body of [for diff in diffs]. *)
Definition tally_step (t : Tally) (diff : DiffRecord) : Tally :=
  if decide (type diff = py "added") then
    mkTally (added t + 1) (deleted t) (modified t) (unchanged_n t)
      (added_content t ++ [new_content diff])
      (deleted_content t) (modified_content t)
  else if decide (type diff = py "deleted") then
    mkTally (added t) (deleted t + 1) (modified t) (unchanged_n t)
      (added_content t)
      (deleted_content t ++ [old_content diff]) (modified_content t)
  else if decide (type diff = py "modified") then
    mkTally (added t) (deleted t) (modified t + 1) (unchanged_n t)
      (added_content t) (deleted_content t)
      (modified_content t ++ [(old_content diff, new_content diff)])
  else if decide (type diff = py "equal") then
    mkTally (added t) (deleted t) (modified t) (unchanged_n t + 1)
      (added_content t) (deleted_content t) (modified_content t)
  else t.

(** [sum(len(content.split()) for content in l)] *)
Definition count_words (l : list str) : nat :=
  sum_list ((λ content, length (Str.split_ws content)) <$> l).

(** [(n / total_elements * 100) if total_elements > 0 else 0] *)
Definition percent (n total_elements : nat) : result number :=
  if decide (0 < total_elements) then
    q ← Float.int_truediv n total_elements;
    Ok (Flt (Float.mul_int q 100))
  else Ok (Int 0).

Definition generate_summary (diffs : list DiffRecord) : result Summary :=
  let t := foldl tally_step (mkTally 0 0 0 0 [] [] []) diffs in
  let total_elements := added t + deleted t + modified t + unchanged_n t in
  let added_words := count_words (added_content t) in
  let deleted_words := count_words (deleted_content t) in
  let modified_words_old := count_words (fst <$> modified_content t) in
  let modified_words_new := count_words (snd <$> modified_content t) in
  p_added ← percent (added t) total_elements;
  p_deleted ← percent (deleted t) total_elements;
  p_modified ← percent (modified t) total_elements;
  p_unchanged ← percent (unchanged_n t) total_elements;
  Ok (mkSummary total_elements
        (mkWordStats (added t) p_added added_words)
        (mkWordStats (deleted t) p_deleted deleted_words)
        (mkModStats (modified t) p_modified
           modified_words_old modified_words_new)
        (mkEqualStats (unchanged_n t) p_unchanged)).

(** ** pdf_processor.py *)

Module Whitespace.
(** [re.sub(r'\s+', ' ', text)]: every maximal run of whitespace becomes
    one space; [in_run] says that the character just read is whitespace. *)
Fixpoint re_sub_spaces_go (in_run : bool) (s : str) : str :=
  match s with
  | [] => []
  | c :: s' =>
    if Char.is_space c then
      if in_run then re_sub_spaces_go true s'
      else Char.SP :: re_sub_spaces_go true s'
    else c :: re_sub_spaces_go false s'
  end.
Definition re_sub_spaces (s : str) : str := re_sub_spaces_go false s.

(** The number of newlines in the run of whitespace that [s] starts
    with. *)
Fixpoint newlines_in_run (s : str) : nat :=
  match s with
  | [] => 0
  | c :: s' =>
    if Char.is_space c then
      (if decide (c = Char.NL) then 1 else 0) + newlines_in_run s'
    else 0
  end.

(** The second [re.sub] of [clean_text]: its pattern is the group
    [\n\s*] (a newline, then any whitespace) repeated three times or more,
    its replacement two newlines.  The pattern matches at a newline from
    which the run of whitespace holds at least three newlines, and the
    match takes the run to its end (the last [\s*] is greedy); [skipping]
    says that the characters being read belong to a match. *)
Fixpoint re_sub_newlines_go (skipping : bool) (s : str) : str :=
  match s with
  | [] => []
  | c :: s' =>
    if skipping && Char.is_space c then re_sub_newlines_go true s'
    else if decide (c = Char.NL ∧ 3 ≤ newlines_in_run s) then
      Char.NL :: Char.NL :: re_sub_newlines_go true s'
    else c :: re_sub_newlines_go false s'
  end.
Definition re_sub_newlines (s : str) : str := re_sub_newlines_go false s.

(** [s.lstrip()], [s.rstrip()] and [s.strip()] *)
Fixpoint lstrip (s : str) : str :=
  match s with
  | [] => []
  | c :: s' => if Char.is_space c then lstrip s' else s
  end.
Definition rstrip (s : str) : str := reverse (lstrip (reverse s)).
Definition strip (s : str) : str := rstrip (lstrip s).
End Whitespace.

Definition clean_text (text : str) : str :=
  let text := Whitespace.re_sub_spaces text in
  let text := Whitespace.re_sub_newlines text in
  let paragraphs := Str.split_nlnl text in
  let clean_paragraphs :=
    p ← paragraphs;
    if decide (Whitespace.strip p = []) then [] else [Whitespace.strip p] in
  Str.join [Char.NL; Char.NL] clean_paragraphs.

(** ** utils.py *)

(** [str(n)] for a non-negative integer, as an f-string writes it. *)
Definition str_of_int (n : nat) : str :=
  py (NilZero.string_of_uint (Nat.to_uint n)).

(** The helper [sanitize_content] of [highlight_differences]. *)
Definition sanitize_content (content : str) : str :=
  Str.replace Char.GT (py "&gt;") (Str.replace Char.LT (py "&lt;") content).

(** The local variables of [highlight_differences]. *)
Record Highlight := mkHighlight {
  highlighted_text : str;
  addition_count : nat; deletion_count : nat; modification_count : nat
}.

(** The body of the loop of the branch [version == 'old']. *)
Definition highlight_old_step (version : str) (h : Highlight)
    (diff : DiffRecord) : Highlight :=
  if decide (type diff = py "equal") then
    mkHighlight
      (highlighted_text h
       ++ py "<p style='margin-bottom: 8px; line-height: 1.5;'>"
       ++ sanitize_content (old_content diff) ++ py "</p>")
      (addition_count h) (deletion_count h) (modification_count h)
  else if decide (type diff = py "added") then
    mkHighlight
      (highlighted_text h
       ++ py "<p style='margin-bottom: 8px; line-height: 1.5; background-color: #F8F8F8; color: #888888; padding: 10px; border-radius: 5px; font-style: italic;'>[Content only in second document]</p>")
      (addition_count h) (deletion_count h) (modification_count h)
  else if decide (type diff = py "deleted") then
    let deletion_count := deletion_count h + 1 in
    mkHighlight
      (highlighted_text h
       ++ py "<p id='" ++ version ++ py "-deletion-"
       ++ str_of_int deletion_count
       ++ py "' style='margin-bottom: 8px; line-height: 1.5;'><span style='background-color: #FFCCCC; padding: 2px 0; border-radius: 3px;'>"
       ++ sanitize_content (old_content diff) ++ py "</span></p>")
      (addition_count h) deletion_count (modification_count h)
  else if decide (type diff = py "modified") then
    let modification_count := modification_count h + 1 in
    mkHighlight
      (highlighted_text h
       ++ py "<p id='" ++ version ++ py "-modification-"
       ++ str_of_int modification_count
       ++ py "' style='margin-bottom: 8px; line-height: 1.5;'><span style='background-color: #FFFFCC; padding: 2px 0; border-radius: 3px;'>"
       ++ sanitize_content (old_content diff) ++ py "</span></p>")
      (addition_count h) (deletion_count h) modification_count
  else h.

(** The body of the loop of the [else] branch (any other [version]). *)
Definition highlight_new_step (version : str) (h : Highlight)
    (diff : DiffRecord) : Highlight :=
  if decide (type diff = py "equal") then
    mkHighlight
      (highlighted_text h
       ++ py "<p style='margin-bottom: 8px; line-height: 1.5;'>"
       ++ sanitize_content (new_content diff) ++ py "</p>")
      (addition_count h) (deletion_count h) (modification_count h)
  else if decide (type diff = py "added") then
    let addition_count := addition_count h + 1 in
    mkHighlight
      (highlighted_text h
       ++ py "<p id='" ++ version ++ py "-addition-"
       ++ str_of_int addition_count
       ++ py "' style='margin-bottom: 8px; line-height: 1.5;'><span style='background-color: #CCFFCC; padding: 2px 0; border-radius: 3px;'>"
       ++ sanitize_content (new_content diff) ++ py "</span></p>")
      addition_count (deletion_count h) (modification_count h)
  else if decide (type diff = py "deleted") then
    mkHighlight
      (highlighted_text h
       ++ py "<p style='margin-bottom: 8px; line-height: 1.5; background-color: #F8F8F8; color: #888888; padding: 10px; border-radius: 5px; font-style: italic;'>[Content only in first document]</p>")
      (addition_count h) (deletion_count h) (modification_count h)
  else if decide (type diff = py "modified") then
    let modification_count := modification_count h + 1 in
    mkHighlight
      (highlighted_text h
       ++ py "<p id='" ++ version ++ py "-modification-"
       ++ str_of_int modification_count
       ++ py "' style='margin-bottom: 8px; line-height: 1.5;'><span style='background-color: #FFFFCC; padding: 2px 0; border-radius: 3px;'>"
       ++ sanitize_content (new_content diff) ++ py "</span></p>")
      (addition_count h) (deletion_count h) modification_count
  else h.

Definition highlight_differences (diffs : list DiffRecord) (version : str)
    : str :=
  let h := mkHighlight [] 0 0 0 in
  if decide (version = py "old") then
    highlighted_text (foldl (highlight_old_step version) h diffs)
  else
    highlighted_text (foldl (highlight_new_step version) h diffs).

(** [sum(1 for diff in diffs if diff['type'] == ty)] *)
Definition count_type (ty : str) (diffs : list DiffRecord) : nat :=
  sum_list (diff ← diffs; if decide (type diff = ty) then [1] else []).

Definition count_change_types (diffs : list DiffRecord) : nat * nat * nat :=
  let additions := count_type (py "added") diffs in
  let deletions := count_type (py "deleted") diffs in
  let modifications := count_type (py "modified") diffs in
  (additions, deletions, modifications).

(** ** Specification vocabulary *)

Section Alignment.
Context `{Countable A}.
Variables a b : list A.

(** The indices at which [x] occurs in [l], counted from [i]. *)
Fixpoint positions (x : A) (i : nat) (l : list A) : list nat :=
  match l with
  | [] => []
  | y :: l' =>
    if decide (y = x) then i :: positions x (S i) l'
    else positions x (S i) l'
  end.

(** [a[i:i+k] == b[j:j+k]], element by element. *)
Definition matches (i j k : nat) : Prop :=
  ∀ t, t < k → ∃ x, a !! (i + t) = Some x ∧ b !! (j + t) = Some x.

(** A block found inside the window [a[alo:ahi]], [b[blo:bhi]]. *)
Definition in_window (alo ahi blo bhi : nat) (m : Match) : Prop :=
  alo ≤ m_a m ∧ m_a m + m_size m ≤ ahi ∧
  blo ≤ m_b m ∧ m_b m + m_size m ≤ bhi ∧
  matches (m_a m) (m_b m) (m_size m).

(** The entries of [j2len] when row [i] is about to be read:
    [j2len[j] = k] stands for a match of length [k] that ends with
    [a[i-1]] and [b[j]] and starts inside the window. *)
Definition j2len_ok (alo blo i : nat) (j2len : gmap nat nat) : Prop :=
  ∀ j k, j2len !! j = Some k →
    0 < k ∧ k ≤ i ∧ alo ≤ i - k ∧ k ≤ j + 1 ∧ blo ≤ j + 1 - k ∧
    matches (i - k) (j + 1 - k) k.

(** Non-empty matching blocks in ascending order, one after the other in
    both sequences, between the corner [(i0, j0)] and the corner
    [(i1, j1)]. *)
Inductive chain : nat → nat → list Match → nat → nat → Prop :=
  | chain_nil i0 j0 i1 j1 :
      i0 ≤ i1 → j0 ≤ j1 → chain i0 j0 [] i1 j1
  | chain_cons i0 j0 m l i1 j1 :
      i0 ≤ m_a m → j0 ≤ m_b m → 0 < m_size m →
      matches (m_a m) (m_b m) (m_size m) →
      chain (m_a m + m_size m) (m_b m + m_size m) l i1 j1 →
      chain i0 j0 (m :: l) i1 j1.

(** A window [(alo, ahi, blo, bhi)] on the queue of
    [get_matching_blocks], and the number of turns it can still cost. *)
Definition range_ok (r : nat * nat * nat * nat) : Prop :=
  let '(alo, ahi, blo, bhi) := r in alo ≤ ahi ∧ blo ≤ bhi.
Definition range_size (r : nat * nat * nat * nat) : nat :=
  let '(alo, ahi, blo, bhi) := r in 2 * (ahi - alo) + 1.

(** One chain for every window still on the queue. *)
Definition fills (queue : list (nat * nat * nat * nat))
    (ls : list (list Match)) : Prop :=
  Forall2 (λ (r : nat * nat * nat * nat) l,
    let '(alo, ahi, blo, bhi) := r in chain alo blo l ahi bhi)
    queue ls.

(** Whatever the queue still yields, the blocks found so far complete it
    to a rearrangement of one chain over the whole of [a] and [b]. *)
Definition queue_inv (queue : list (nat * nat * nat * nat))
    (found : list Match) : Prop :=
  ∀ ls, fills queue ls →
    ∃ l, found ++ concat ls ≡ₚ l ∧ chain 0 0 l (length a) (length b).

(** What an opcode says about its two spans. *)
Definition op_ok (op : Opcode) : Prop :=
  match op_tag op with
  | Equal =>
    op_i1 op < op_i2 op ∧ op_j1 op < op_j2 op ∧
    op_i2 op - op_i1 op = op_j2 op - op_j1 op ∧
    matches (op_i1 op) (op_j1 op) (op_i2 op - op_i1 op)
  | Replace => op_i1 op < op_i2 op ∧ op_j1 op < op_j2 op
  | Delete => op_i1 op < op_i2 op ∧ op_j1 op = op_j2 op
  | Insert => op_i1 op = op_i2 op ∧ op_j1 op < op_j2 op
  end.

(** The opcodes lead from the corner [(i, j)] to the corner [(i', j')]:
    every span starts where the one before ends. *)
Inductive covers : nat → nat → list Opcode → nat → nat → Prop :=
  | covers_nil i j : covers i j [] i j
  | covers_cons op ops i' j' :
      op_ok op →
      covers (op_i2 op) (op_j2 op) ops i' j' →
      covers (op_i1 op) (op_j1 op) (op :: ops) i' j'.
End Alignment.

(** When [a] is matched against itself: the length of the run of
    elements with an entry in [b2j] (elements that are not popular) that
    ends just before index [j]. *)
Fixpoint indexed_run `{Countable A} (a : list A) (j : nat) : nat :=
  match j with
  | 0 => 0
  | S j' =>
    if decide (SequenceMatcher.instances a (a !! j') = []) then 0
    else S (indexed_run a j')
  end.

(** The sentences of the two sides of a [replace] span. *)
Definition old_sentences_of (paragraphs1 : list str) (op : Opcode)
    : list str :=
  Str.re_split_sentences
    (Str.join [Char.NL; Char.NL] (slice paragraphs1 (op_i1 op) (op_i2 op))).
Definition new_sentences_of (paragraphs2 : list str) (op : Opcode)
    : list str :=
  Str.re_split_sentences
    (Str.join [Char.NL; Char.NL] (slice paragraphs2 (op_j1 op) (op_j2 op))).

(** The records of one sentence opcode, and of one paragraph opcode, read
    off the spans ([sentence_records] and [paragraph_records] return them
    when the indices of the opcode are in range). *)
Definition sentence_emit (old_sentences new_sentences : list str)
    (op : Opcode) : list DiffRecord :=
  match op_tag op with
  | Equal =>
    (λ s, mkDiff (py "equal") s s)
      <$> slice old_sentences (op_i1 op) (op_i2 op)
  | Replace =>
    [mkDiff (py "modified")
       (Str.join (py " ") (slice old_sentences (op_i1 op) (op_i2 op)))
       (Str.join (py " ") (slice new_sentences (op_j1 op) (op_j2 op)))]
  | Delete =>
    [mkDiff (py "deleted")
       (Str.join (py " ") (slice old_sentences (op_i1 op) (op_i2 op))) []]
  | Insert =>
    [mkDiff (py "added") []
       (Str.join (py " ") (slice new_sentences (op_j1 op) (op_j2 op)))]
  end.

Definition paragraph_emit (paragraphs1 paragraphs2 : list str)
    (op : Opcode) : list DiffRecord :=
  match op_tag op with
  | Equal =>
    (λ p, mkDiff (py "equal") p p)
      <$> slice paragraphs1 (op_i1 op) (op_i2 op)
  | Replace =>
    let old_sentences := old_sentences_of paragraphs1 op in
    let new_sentences := new_sentences_of paragraphs2 op in
    match SequenceMatcher.get_opcodes old_sentences new_sentences with
    | Ok sentence_opcodes =>
      concat (sentence_emit old_sentences new_sentences
                <$> sentence_opcodes)
    | Raise _ => []
    end
  | Delete =>
    (λ p, mkDiff (py "deleted") p [])
      <$> slice paragraphs1 (op_i1 op) (op_i2 op)
  | Insert =>
    (λ p, mkDiff (py "added") [] p)
      <$> slice paragraphs2 (op_j1 op) (op_j2 op)
  end.

(** The units of text an opcode covers on each side: the paragraphs of its
    span, or, for a [replace] span, the sentences of the span. *)
Definition old_units (paragraphs1 : list str) (op : Opcode) : list str :=
  match op_tag op with
  | Replace => old_sentences_of paragraphs1 op
  | _ => slice paragraphs1 (op_i1 op) (op_i2 op)
  end.
Definition new_units (paragraphs2 : list str) (op : Opcode) : list str :=
  match op_tag op with
  | Replace => new_sentences_of paragraphs2 op
  | _ => slice paragraphs2 (op_j1 op) (op_j2 op)
  end.

(** [traverses rs us vs]: the records [rs], in order, use up the old units
    [us] and the new units [vs], each unit once: an [equal] record one unit
    that is the same on both sides, a [modified] record a non-empty group
    on each side, a [deleted] record a non-empty group of old units, an
    [added] record a non-empty group of new units; the content of a
    record is its group joined by spaces. *)
Inductive traverses : list DiffRecord → list str → list str → Prop :=
  | traverses_nil : traverses [] [] []
  | traverses_equal u rs us vs :
      traverses rs us vs →
      traverses (mkDiff (py "equal") u u :: rs) (u :: us) (u :: vs)
  | traverses_modified g h rs us vs :
      g ≠ [] → h ≠ [] → traverses rs us vs →
      traverses
        (mkDiff (py "modified") (Str.join (py " ") g) (Str.join (py " ") h)
           :: rs)
        (g ++ us) (h ++ vs)
  | traverses_deleted g rs us vs :
      g ≠ [] → traverses rs us vs →
      traverses (mkDiff (py "deleted") (Str.join (py " ") g) [] :: rs)
        (g ++ us) vs
  | traverses_added h rs us vs :
      h ≠ [] → traverses rs us vs →
      traverses (mkDiff (py "added") [] (Str.join (py " ") h) :: rs)
        us (h ++ vs).

(** The float [n / total_elements * 100]. *)
Definition ratio_percent (n total_elements : nat) : float :=
  Float.mul_int
    (SFdiv Float.prec Float.emax (Float.exact n) (Float.exact total_elements))
    100.

(** A record whose type [generate_summary] counts. *)
Definition recognized (diff : DiffRecord) : Prop :=
  type diff = py "added" ∨ type diff = py "deleted" ∨
  type diff = py "modified" ∨ type diff = py "equal".

Global Instance recognized_dec (diff : DiffRecord) : Decision (recognized diff).
Proof. unfold recognized. apply _. Defined.

(** The two documents of the scenario of the specification. *)
Definition scenario_A : str :=
  py "The cat sat." ++ [Char.NL; Char.NL] ++ py "Dogs bark loudly.".
Definition scenario_B : str :=
  py "The cat sat." ++ [Char.NL; Char.NL]
  ++ py "Dogs howl loudly. New paragraph here.".

(** An [added] record has no old content, a [deleted] record no new
    content. *)
Definition is_added (d : DiffRecord) : Prop :=
  type d = py "added" ∧ old_content d = [].
Definition is_deleted (d : DiffRecord) : Prop :=
  type d = py "deleted" ∧ new_content d = [].

(** The result for an empty first text: [added] records around one record
    that stands for the empty text, an [equal] record with empty content
    or a [modified] record with empty [old_content].  And the same for an
    empty second text, with [deleted] records. *)
Definition added_around_one (differences : list DiffRecord) : Prop :=
  ∃ before r after,
    differences = before ++ r :: after ∧
    Forall is_added before ∧ Forall is_added after ∧
    (r = mkDiff (py "equal") [] [] ∨
     (type r = py "modified" ∧ old_content r = [])).
Definition deleted_around_one (differences : list DiffRecord) : Prop :=
  ∃ before r after,
    differences = before ++ r :: after ∧
    Forall is_deleted before ∧ Forall is_deleted after ∧
    (r = mkDiff (py "equal") [] [] ∨
     (type r = py "modified" ∧ new_content r = [])).

(** What [sanitize_for_display] writes for one character. *)
Definition entity (c : N) : str :=
  if decide (c = Char.LT) then py "&lt;"
  else if decide (c = Char.GT) then py "&gt;"
  else if decide (c = Char.LBRACE) then py "&#123;"
  else if decide (c = Char.RBRACE) then py "&#125;"
  else [c].

(** A character other than [<], [>], [{] and [}]. *)
Definition safe_char (c : N) : Prop :=
  c ≠ Char.LT ∧ c ≠ Char.GT ∧ c ≠ Char.LBRACE ∧ c ≠ Char.RBRACE.

(** The opcode, if any, that bridges the gap from the corner [(i, j)] to
    the block that starts at [(ai, bj)]. *)
Definition gap (i j ai bj : nat) : list Opcode :=
  if decide (i < ai ∧ j < bj) then [mkOp Replace i ai j bj]
  else if decide (i < ai) then [mkOp Delete i ai j bj]
  else if decide (j < bj) then [mkOp Insert i ai j bj]
  else [].

(** The opcodes for the blocks [l] between two corners: before every
    block the opcode of its gap, after the last block the opcode of the
    gap to the end. *)
Fixpoint ops_between (i j : nat) (l : list Match) (i1 j1 : nat)
    : list Opcode :=
  match l with
  | [] => gap i j i1 j1
  | x :: l' =>
    gap i j (m_a x) (m_b x) ++
    mkOp Equal (m_a x) (m_a x + m_size x) (m_b x) (m_b x + m_size x) ::
    ops_between (m_a x + m_size x) (m_b x + m_size x) l' i1 j1
  end.

(** The indices of the two spans of an opcode. *)
Definition a_span (op : Opcode) : list nat :=
  seq (op_i1 op) (op_i2 op - op_i1 op).
Definition b_span (op : Opcode) : list nat :=
  seq (op_j1 op) (op_j2 op - op_j1 op).

(** *** Vocabulary for the further properties *)

(** The characters of a text that are not whitespace, in order. *)
Definition nonspace (s : str) : str :=
  filter (λ c, Char.is_space c = false) s.

(** A word: not empty and without whitespace. *)
Definition is_word (w : str) : Prop :=
  w ≠ [] ∧ Forall (λ c, Char.is_space c = false) w.

(** The shape of a record of [compare_texts]. *)
Definition well_formed (d : DiffRecord) : Prop :=
  (type d = py "equal" ∧ old_content d = new_content d) ∨
  type d = py "modified" ∨
  (type d = py "deleted" ∧ new_content d = []) ∨
  (type d = py "added" ∧ old_content d = []).

(** A record with everything blanked that belongs to the second document
    only, and with everything blanked that belongs to the first only. *)
Definition blank_new (d : DiffRecord) : DiffRecord :=
  mkDiff (type d)
    (if decide (type d = py "added") then [] else old_content d) [].
Definition blank_old (d : DiffRecord) : DiffRecord :=
  mkDiff (type d) []
    (if decide (type d = py "deleted") then [] else new_content d).

(** A piece that ends in one of [.!?]. *)
Definition ends_sentence (p : str) : Prop :=
  ∃ p' c, p = p' ++ [c] ∧ Char.is_sentence_end c = true.

(** Opcodes of which no two in a row are both something other than
    [equal]. *)
Fixpoint alternating (ops : list Opcode) : Prop :=
  match ops with
  | op :: ops' =>
    match ops' with
    | op' :: _ =>
      (op_tag op = Equal ∨
       op_tag op' = Equal) ∧
      alternating ops'
    | [] => True
    end
  | [] => True
  end.

(** Two records that may follow one another: one of them is [equal], or
    both are [deleted], or both are [added]. *)
Definition neighbours (r r' : DiffRecord) : Prop :=
  type r = py "equal" ∨ type r' = py "equal" ∨
  (type r = py "deleted" ∧ type r' = py "deleted") ∨
  (type r = py "added" ∧ type r' = py "added").

Fixpoint separated (l : list DiffRecord) : Prop :=
  match l with
  | r :: l' =>
    match l' with
    | r' :: _ => neighbours r r' ∧ separated l'
    | [] => True
    end
  | [] => True
  end.

(** A list of records that does not start with a change. *)
Definition starts_equal (l : list DiffRecord) : Prop :=
  match l with
  | r :: _ => type r = py "equal"
  | [] => True
  end.

(** * Proofs *)

(** ** The exception monad *)

Lemma for_each_Ok {A B} (f : A → result B) (g : A → B) (l : list A) :
  (∀ x, x ∈ l → f x = Ok (g x)) → for_each f l = Ok (g <$> l).
Proof.
  induction l as [|x l IH]; intros Hf; simpl; [done|].
  rewrite Hf; [|by left]. simpl.
  rewrite IH; [done|]. intros y Hy. apply Hf. by right.
Qed.

Lemma index_Ok {A} (l : list A) (i : nat) (x : A) :
  index l i = Ok x ↔ l !! i = Some x.
Proof. unfold index. destruct (l !! i); split; congruence. Qed.

Lemma slice_lookup {A} (l : list A) (i j t : nat) :
  t < j - i → slice l i j !! t = l !! (i + t).
Proof.
  intros Ht. unfold slice. rewrite lookup_take_lt; [|done].
  by rewrite lookup_drop.
Qed.

Lemma slice_length {A} (l : list A) (i j : nat) :
  j ≤ length l → length (slice l i j) = j - i.
Proof. intros Hj. unfold slice. rewrite length_take, length_drop. lia. Qed.

Lemma slice_full {A} (l : list A) : slice l 0 (length l) = l.
Proof. unfold slice. rewrite drop_0, Nat.sub_0_r. apply firstn_all. Qed.

Lemma elem_of_slice {A} (l : list A) (i j : nat) (x : A) :
  x ∈ slice l i j → x ∈ l.
Proof.
  unfold slice. intros Hx.
  apply list_elem_of_lookup in Hx as [t Ht].
  apply lookup_take_Some in Ht as [Ht _]. rewrite lookup_drop in Ht.
  by eapply list_elem_of_lookup_2.
Qed.

(** Reading a span element by element gives the slice. *)
Lemma for_each_index {A B} (l : list A) (g : A → B) (i j : nat) :
  j ≤ length l →
  for_each (λ t, x ← index l t; Ok (g x)) (seq i (j - i))
  = Ok (g <$> slice l i j).
Proof.
  intros Hj. unfold slice.
  destruct (decide (i ≤ j)) as [Hij|Hij];
    [|by replace (j - i) with 0 by lia].
  remember (j - i) as n eqn:Hn.
  assert (i + n ≤ length l) as Hin by lia. clear Hn Hj Hij.
  revert i Hin. induction n as [|n IH]; intros i Hin; simpl; [done|].
  assert (is_Some (l !! i)) as [x Hx] by (apply lookup_lt_is_Some_2; lia).
  rewrite (proj2 (index_Ok l i x) Hx). simpl.
  rewrite IH; [|lia]. simpl.
  rewrite (drop_S l x i Hx). done.
Qed.

(** ** The matcher finds matching blocks *)

Section Matcher_sound.
Context `{Countable A}.
Variables a b : list A.
Import SequenceMatcher.

Lemma elem_of_positions (x : A) (l : list A) (i j : nat) :
  j ∈ positions x i l ↔ i ≤ j ∧ l !! (j - i) = Some x.
Proof.
  revert i. induction l as [|y l IH]; intros i; simpl.
  - rewrite elem_of_nil. naive_solver.
  - destruct (decide (y = x)) as [->|Hne].
    + rewrite elem_of_cons, IH. split.
      * intros [->|[Hle Hl]].
        { split; [lia|]. by rewrite Nat.sub_diag. }
        split; [lia|]. by replace (j - i) with (S (j - S i)) by lia.
      * intros [Hle Hl]. destruct (decide (j = i)) as [->|]; [by left|].
        right. split; [lia|].
        by replace (j - i) with (S (j - S i)) in Hl by lia.
    + rewrite IH. split.
      * intros [Hle Hl]. split; [lia|].
        by replace (j - i) with (S (j - S i)) by lia.
      * intros [Hle Hl]. destruct (decide (j = i)) as [->|].
        { rewrite Nat.sub_diag in Hl. simpl in Hl. congruence. }
        split; [lia|].
        by replace (j - i) with (S (j - S i)) in Hl by lia.
Qed.

(** The index built by the first loop of [__chain_b]. *)
Lemma index_elements_lookup (l : list A) (i : nat) (m : gmap A (list nat))
    (x : A) :
  index_elements i l m !! x =
    match positions x i l with
    | [] => m !! x
    | ps => Some (default [] (m !! x) ++ ps)
    end.
Proof.
  revert i m. induction l as [|y l IH]; intros i m; simpl; [done|].
  rewrite IH. unfold record_index.
  destruct (decide (y = x)) as [->|Hne].
  - rewrite lookup_insert_eq. simpl.
    destruct (positions x (S i) l); [done|].
    by rewrite <-app_assoc.
  - by rewrite lookup_insert_ne.
Qed.

(** [b2j] has the key [x] when [x] is in [b] and not popular, and then
    lists all the indices of [x]. *)
Lemma b2j_lookup (x : A) (js : list nat) :
  b2j b !! x = Some js → js = positions x 0 b ∧ js ≠ [].
Proof.
  unfold b2j. intros Hx.
  apply map_lookup_filter_Some in Hx as [Hx _].
  rewrite index_elements_lookup, lookup_empty in Hx. simpl in Hx.
  destruct (positions x 0 b); naive_solver.
Qed.

Lemma elem_of_instances (x : option A) (j : nat) :
  j ∈ instances b x → ∃ u, x = Some u ∧ b !! j = Some u.
Proof.
  unfold instances. destruct x as [u|]; [|by rewrite elem_of_nil].
  destruct (b2j b !! u) as [js|] eqn:Hjs; simpl;
    [|by rewrite elem_of_nil].
  apply b2j_lookup in Hjs as [-> _].
  rewrite elem_of_positions, Nat.sub_0_r. naive_solver.
Qed.

Lemma same_true (x y : option A) :
  same x y = true ↔ ∃ u, x = Some u ∧ y = Some u.
Proof.
  unfold same. destruct x as [u|], y as [v|]; try naive_solver.
  rewrite bool_decide_eq_true. naive_solver.
Qed.

Lemma isbjunk_false (x : option A) : isbjunk x = false.
Proof.
  unfold isbjunk, bjunk. destruct x; [|done].
  apply bool_decide_eq_false. apply not_elem_of_empty.
Qed.

Section Window.
Variables alo ahi blo bhi : nat.

Local Abbreviation j2len_ok := (j2len_ok a b alo blo).

Lemma scan_row_ok (i : nat) (js : list nat)
    (j2len newj2len : gmap nat nat) (best : Match) :
  alo ≤ i → i < ahi →
  (∀ j, j ∈ js → ∃ u, a !! i = Some u ∧ b !! j = Some u) →
  j2len_ok i j2len →
  j2len_ok (S i) newj2len →
  in_window a b alo ahi blo bhi best →
  j2len_ok (S i) (scan_row i blo bhi js j2len newj2len best).1 ∧
  in_window a b alo ahi blo bhi
    (scan_row i blo bhi js j2len newj2len best).2.
Proof.
  intros Hlo Hhi. revert newj2len best.
  induction js as [|j js IH]; intros newj2len best Hjs Hprev Hnew Hbest;
    simpl; [done|].
  assert (∀ j', j' ∈ js → ∃ u, a !! i = Some u ∧ b !! j' = Some u)
    as Hjs' by (intros; apply Hjs; by right).
  destruct (decide (j < blo)) as [|Hblo]; [by apply IH|].
  destruct (decide (bhi ≤ j)) as [|Hbhi]; [done|].
  destruct (Hjs j) as (u & Hai & Hbj); [by left|].
  set (k0 := j2len_get_prev j2len j).
  assert (k0 ≤ i ∧ alo ≤ i - k0 ∧ k0 ≤ j ∧ blo ≤ j - k0 ∧
          matches a b (i - k0) (j - k0) k0) as (Hk1 & Hk2 & Hk3 & Hk4 & Hk5).
  { subst k0. unfold j2len_get_prev. destruct j as [|j'].
    { repeat split; try lia. intros t Ht. lia. }
    destruct (j2len !! j') as [k|] eqn:Hk; simpl.
    - destruct (Hprev _ _ Hk) as (? & ? & ? & ? & ? & Hm).
      repeat split; try lia.
      by replace (S j' - k) with (j' + 1 - k) by lia.
    - repeat split; try lia. intros t Ht. lia. }
  assert (matches a b (i + 1 - (k0 + 1)) (j + 1 - (k0 + 1)) (k0 + 1))
    as Hm.
  { intros t Ht.
    replace (i + 1 - (k0 + 1)) with (i - k0) by lia.
    replace (j + 1 - (k0 + 1)) with (j - k0) by lia.
    destruct (decide (t < k0)) as [|]; [by apply Hk5|].
    assert (t = k0) as -> by lia.
    exists u.
    replace (i - k0 + k0) with i by lia.
    by replace (j - k0 + k0) with j by lia. }
  apply IH; [done|done| |].
  - intros j' k'. rewrite lookup_insert.
    destruct (decide (j = j')) as [<-|]; [|by apply Hnew].
    intros [= <-]. repeat split; try lia.
    by replace (S i - (k0 + 1)) with (i + 1 - (k0 + 1)) by lia.
  - destruct (decide (m_size best < k0 + 1)); [|done].
    unfold in_window. simpl. repeat split; try lia. done.
Qed.

Lemma scan_rows_ok (n i : nat) (j2len : gmap nat nat) (best : Match) :
  alo ≤ i → i + n ≤ ahi →
  j2len_ok i j2len →
  in_window a b alo ahi blo bhi best →
  in_window a b alo ahi blo bhi
    (scan_rows a b blo bhi (seq i n) j2len best).
Proof.
  revert i j2len best.
  induction n as [|n IH]; intros i j2len best Hlo Hhi Hprev Hbest;
    simpl; [done|].
  destruct (scan_row i blo bhi (instances b (a !! i)) j2len ∅ best)
    as [newj2len best'] eqn:Hrow.
  destruct (scan_row_ok i (instances b (a !! i)) j2len ∅ best)
    as [Hnew Hbest']; [lia|lia| |done| |done|].
  - intros j Hj. apply elem_of_instances in Hj as (u & -> & ?). eauto.
  - intros j k. by rewrite lookup_empty.
  - rewrite Hrow in Hnew, Hbest'. apply IH; [lia|lia|done|done].
Qed.

Lemma extend_back_ok (junk : bool) (besti bestj bestsize : nat) :
  in_window a b alo ahi blo bhi (mkMatch besti bestj bestsize) →
  in_window a b alo ahi blo bhi
    (extend_back a b junk alo blo besti bestj bestsize).
Proof.
  revert bestj bestsize.
  induction besti as [|i' IH]; intros bestj bestsize Hok; simpl;
    [done|].
  destruct bestj as [|j']; [done|].
  destruct (decide _) as [(Hi & Hj & _ & Hsame)|]; [|done].
  apply IH. destruct Hok as (? & ? & ? & ? & Hm). simpl in *.
  unfold in_window. simpl. repeat split; try lia.
  intros t Ht. destruct t as [|t].
  - rewrite !Nat.add_0_r. by apply same_true.
  - replace (i' + S t) with (S i' + t) by lia.
    replace (j' + S t) with (S j' + t) by lia.
    apply Hm. lia.
Qed.

Lemma extend_forward_ok (junk : bool) (room : nat)
    (besti bestj bestsize : nat) :
  besti + bestsize + room ≤ ahi →
  in_window a b alo ahi blo bhi (mkMatch besti bestj bestsize) →
  in_window a b alo ahi blo bhi
    (extend_forward a b junk room bhi besti bestj bestsize).
Proof.
  revert bestsize.
  induction room as [|room IH]; intros bestsize Hroom Hok; simpl;
    [done|].
  destruct (decide _) as [(Hj & _ & Hsame)|]; [|done].
  apply IH; [lia|]. destruct Hok as (? & ? & ? & ? & Hm). simpl in *.
  unfold in_window. simpl. repeat split; try lia.
  intros t Ht. destruct (decide (t < bestsize)); [by apply Hm|].
  assert (t = bestsize) as -> by lia. by apply same_true.
Qed.

Lemma extend_ok (junk : bool) (m : Match) :
  in_window a b alo ahi blo bhi m →
  in_window a b alo ahi blo bhi (extend a b junk alo ahi blo bhi m).
Proof.
  intros Hok. unfold extend.
  destruct m as [i j k]. simpl.
  pose proof (extend_back_ok junk i j k Hok) as Hback.
  destruct (extend_back a b junk alo blo i j k) as [i' j' k'].
  simpl. apply extend_forward_ok; [|done].
  destruct Hback as (? & ? & _). simpl in *. lia.
Qed.

Lemma find_longest_match_ok :
  alo ≤ ahi → blo ≤ bhi →
  in_window a b alo ahi blo bhi (find_longest_match a b alo ahi blo bhi).
Proof.
  intros Ha Hb. unfold find_longest_match.
  do 2 apply extend_ok.
  apply scan_rows_ok; [lia|lia| |].
  - intros j k. by rewrite lookup_empty.
  - unfold in_window. simpl. repeat split; try lia. intros t Ht. lia.
Qed.
End Window.
End Matcher_sound.

(** ** Chains of matching blocks *)

Section Chains.
Context `{Countable A}.
Variables a b : list A.

Lemma chain_bounds i0 j0 l i1 j1 :
  chain a b i0 j0 l i1 j1 → i0 ≤ i1 ∧ j0 ≤ j1.
Proof. induction 1; lia. Qed.

Lemma chain_app i0 j0 l1 i j l2 i1 j1 :
  chain a b i0 j0 l1 i j → chain a b i j l2 i1 j1 →
  chain a b i0 j0 (l1 ++ l2) i1 j1.
Proof.
  induction 1 as [i0 j0 i j Hi Hj|i0 j0 m l i j ????? IH]; intros Hl2;
    simpl.
  - destruct Hl2 as [????|]; constructor; lia || done.
  - constructor; auto.
Qed.

(** The blocks left of a block, the block, and the blocks right of it. *)
Lemma chain_join alo blo ll m lr ahi bhi :
  0 < m_size m → matches a b (m_a m) (m_b m) (m_size m) →
  chain a b alo blo ll (m_a m) (m_b m) →
  chain a b (m_a m + m_size m) (m_b m + m_size m) lr ahi bhi →
  chain a b alo blo (ll ++ m :: lr) ahi bhi.
Proof.
  intros Hk Hm Hll Hlr. eapply chain_app; [done|].
  constructor; done.
Qed.

Lemma chain_app_inv i0 j0 l1 l2 i1 j1 :
  chain a b i0 j0 (l1 ++ l2) i1 j1 →
  ∃ i j, chain a b i0 j0 l1 i j ∧ chain a b i j l2 i1 j1.
Proof.
  revert i0 j0. induction l1 as [|m l1 IH]; intros i0 j0; simpl.
  - intros Hl2. exists i0, j0. split; [by constructor|done].
  - inversion 1 as [|?????? Hi Hj Hk Hm Hl]; subst.
    destruct (IH _ _ Hl) as (i & j & Hl1 & Hl2).
    exists i, j. split; [by constructor|done].
Qed.

Lemma chain_Forall_ge i0 j0 l i1 j1 :
  chain a b i0 j0 l i1 j1 →
  Forall (λ m, i0 ≤ m_a m ∧ j0 ≤ m_b m ∧ 0 < m_size m) l.
Proof.
  induction 1 as [|i0 j0 m l i1 j1 ????? IH]; constructor; [lia|].
  eapply Forall_impl; [done|]. simpl. lia.
Qed.

(** A chain is in the order of [list.sort]. *)
Lemma chain_sorted i0 j0 l i1 j1 :
  chain a b i0 j0 l i1 j1 → Sorted match_le l.
Proof.
  induction 1 as [|i0 j0 m l i1 j1 ???? Hl IH]; constructor; [done|].
  apply chain_Forall_ge in Hl. destruct Hl as [|m' l' Hm' _]; constructor.
  unfold match_le. lia.
Qed.

End Chains.

Global Instance match_le_trans : Transitive match_le.
Proof. intros x y z. unfold match_le. lia. Qed.
Global Instance match_le_antisym : AntiSymm (=) match_le.
Proof.
  intros [] []. unfold match_le. simpl. intros ??. f_equal; lia.
Qed.
Global Instance match_le_total : Total match_le.
Proof. intros x y. unfold match_le. lia. Qed.

(** ** The queue loop of [get_matching_blocks] *)

Section Queue.
Context `{Countable A}.
Variables a b : list A.
Import SequenceMatcher.

Abbreviation range := (nat * nat * nat * nat)%type.

Local Abbreviation fills := (fills a b).
Local Abbreviation queue_inv := (queue_inv a b).

Lemma match_queue_spec (fuel : nat) (queue : list range)
    (found : list Match) :
  sum_list_with range_size queue < fuel →
  Forall range_ok queue →
  queue_inv queue found →
  ∃ r l, match_queue a b fuel queue found = Ok r ∧
         r ≡ₚ l ∧ chain a b 0 0 l (length a) (length b).
Proof.
  revert queue found.
  induction fuel as [|fuel IH]; intros queue found Hfuel Hok Hinv; [lia|].
  destruct queue as [|[[[alo ahi] blo] bhi] queue]; simpl.
  { destruct (Hinv []) as (l & Hl & Hc); [constructor|].
    exists found, l. simpl in Hl. rewrite app_nil_r in Hl. done. }
  apply Forall_cons in Hok as [[Ha Hb] Hok]. simpl in Hfuel.
  pose proof (find_longest_match_ok a b alo ahi blo bhi Ha Hb) as Hx.
  set (x := find_longest_match a b alo ahi blo bhi) in *.
  destruct Hx as (Hx1 & Hx2 & Hx3 & Hx4 & Hx5).
  destruct (decide (m_size x = 0)) as [Hk|Hk].
  { apply IH; [lia|done|].
    intros ls Hls. destruct (Hinv ([] :: ls)) as (l & Hl & Hc).
    - constructor; [by constructor|done].
    - by exists l. }
  assert (∀ ll lr ls, fills queue ls →
            chain a b alo blo ll (m_a x) (m_b x) →
            chain a b (m_a x + m_size x) (m_b x + m_size x) lr ahi bhi →
            ∃ l, (found ++ [x]) ++ lr ++ ll ++ concat ls ≡ₚ l ∧
                 chain a b 0 0 l (length a) (length b)) as Hstep.
  { intros ll lr ls Hls Hll Hlr.
    destruct (Hinv ((ll ++ x :: lr) :: ls)) as (l & Hl & Hc).
    - constructor; [|done]. apply chain_join; [lia|done..].
    - exists l. split; [|done]. rewrite <-Hl. simpl.
      rewrite <-!app_assoc. apply Permutation_app_head. simpl.
      rewrite (Permutation_app_swap_app lr ll).
      apply Permutation_middle. }
  assert (chain a b alo blo [] (m_a x) (m_b x)) as Hnil_l
    by (constructor; lia).
  assert (chain a b (m_a x + m_size x) (m_b x + m_size x) [] ahi bhi)
    as Hnil_r by (constructor; lia).
  destruct (decide (alo < m_a x ∧ blo < m_b x)) as [Hl|Hl];
    destruct (decide (m_a x + m_size x < ahi ∧ m_b x + m_size x < bhi))
      as [Hr|Hr];
    (apply IH;
     [simpl; lia
     |repeat (apply Forall_cons; split; [simpl; lia|]); done
     |]);
    intros ls Hls.
  - inversion Hls as [|? lr ? ls' Hlr Hls']; subst.
    inversion Hls' as [|? ll ? ls'' Hll Hls'']; subst.
    simpl. by apply Hstep.
  - inversion Hls as [|? ll ? ls' Hll Hls']; subst.
    simpl. apply (Hstep ll [] ls'); done.
  - inversion Hls as [|? lr ? ls' Hlr Hls']; subst.
    simpl. apply (Hstep [] lr ls'); done.
  - apply (Hstep [] [] ls); done.
Qed.

(** [get_matching_blocks] never runs out of turns, and sorting what the
    loop found gives a chain over the whole of [a] and [b]. *)
Lemma match_queue_terminates :
  ∃ found l,
    match_queue a b (2 * length a + 2) [(0, length a, 0, length b)] []
      = Ok found ∧
    merge_sort match_le found = l ∧
    chain a b 0 0 l (length a) (length b).
Proof.
  destruct (match_queue_spec (2 * length a + 2)
              [(0, length a, 0, length b)] []) as (r & l & Hr & Hp & Hc).
  - simpl. lia.
  - repeat constructor; lia.
  - intros ls Hls. inversion Hls as [|? l ? ls' Hl Hls']; subst.
    inversion Hls'; subst. exists l. simpl. by rewrite app_nil_r.
  - exists r, l. split; [done|]. split; [|done].
    apply (Sorted_unique match_le).
    + apply Sorted_merge_sort. apply _.
    + by eapply chain_sorted.
    + by rewrite merge_sort_Permutation.
Qed.
End Queue.

(** ** Merging adjacent blocks, and the opcodes *)

Section Opcodes.
Context `{Countable A}.
Variables a b : list A.
Import SequenceMatcher.

Lemma matches_merge i j k1 k2 :
  matches a b i j k1 → matches a b (i + k1) (j + k1) k2 →
  matches a b i j (k1 + k2).
Proof.
  intros H1 H2 t Ht. destruct (decide (t < k1)); [by apply H1|].
  destruct (H2 (t - k1)) as (x & Hx1 & Hx2); [lia|]. exists x.
  replace (i + t) with (i + k1 + (t - k1)) by lia.
  by replace (j + t) with (j + k1 + (t - k1)) by lia.
Qed.

Lemma collapse_fold (l : list Match) (cur : Match) (na : list Match)
    i1 j1 :
  chain a b 0 0 (na ++ cur :: l) i1 j1 →
  chain a b 0 0
    ((foldl collapse_step (cur, na) l).2 ++
     [(foldl collapse_step (cur, na) l).1]) i1 j1.
Proof.
  revert cur na. induction l as [|x l IH]; intros cur na Hc; simpl;
    [done|].
  destruct (decide _) as [[Hi Hj]|_].
  - apply IH.
    apply chain_app_inv in Hc as (i & j & Hna & Hc).
    eapply chain_app; [done|].
    inversion Hc as [|?????? Hci Hcj Hck Hcm Hc']; subst.
    inversion Hc' as [|?????? Hxi Hxj Hxk Hxm Hc'']; subst.
    constructor; simpl; [done|done|lia| |].
    + apply matches_merge; [done|]. by rewrite Hi, Hj.
    + by rewrite !Nat.add_assoc, Hi, Hj.
  - apply chain_app_inv in Hc as Hc'. destruct Hc' as (i & j & _ & Hc').
    inversion Hc'; subst.
    destruct (decide (m_size cur = 0)); [lia|].
    apply IH. by rewrite <-app_assoc.
Qed.

(** After the merge the blocks are still a chain, and the sentinel
    [(len(a), len(b), 0)] follows. *)
Lemma collapse_chain (l : list Match) :
  chain a b 0 0 l (length a) (length b) →
  ∃ l', collapse a b l = l' ++ [mkMatch (length a) (length b) 0] ∧
        chain a b 0 0 l' (length a) (length b).
Proof.
  intros Hc. unfold collapse. destruct l as [|x l]; simpl.
  { exists []. done. }
  assert (foldl collapse_step
            (if decide (0 = m_a x ∧ 0 = m_b x)
             then (mkMatch 0 0 (m_size x), [])
             else (x, [])) l
          = foldl collapse_step (x, []) l) as ->.
  { destruct (decide _) as [[Hi Hj]|]; [|done].
    destruct x as [xi xj xk]. simpl in *. by subst. }
  pose proof (collapse_fold l x [] _ _ Hc) as Hc'.
  destruct (foldl collapse_step (x, []) l) as [cur na]. simpl in *.
  apply chain_app_inv in Hc' as Hcur.
  destruct Hcur as (i & j & _ & Hcur). inversion Hcur; subst.
  destruct (decide (m_size cur = 0)); [lia|].
  by exists (na ++ [cur]).
Qed.

(** The answer of [get_opcodes], block by block. *)
Lemma opcode_step_eq (i j : nat) (answer : list Opcode) (x : Match) :
  opcode_step (i, j, answer) x =
    (m_a x + m_size x, m_b x + m_size x,
     answer ++ gap i j (m_a x) (m_b x) ++
     if decide (m_size x = 0) then []
     else [mkOp Equal (m_a x) (m_a x + m_size x)
                      (m_b x) (m_b x + m_size x)]).
Proof.
  unfold opcode_step, gap.
  repeat destruct (decide _); simpl; rewrite <-?app_assoc, ?app_nil_r;
    done.
Qed.

Lemma opcodes_fold (l : list Match) (i j : nat) (answer : list Opcode)
    i1 j1 :
  Forall (λ m, 0 < m_size m) l →
  (foldl opcode_step (i, j, answer) (l ++ [mkMatch i1 j1 0])).2
  = answer ++ ops_between i j l i1 j1.
Proof.
  revert i j answer. induction l as [|x l IH]; intros i j answer Hl.
  - change (foldl opcode_step (i, j, answer) ([] ++ [mkMatch i1 j1 0]))
      with (opcode_step (i, j, answer) (mkMatch i1 j1 0)).
    rewrite opcode_step_eq. simpl. by rewrite app_nil_r.
  - apply Forall_cons in Hl as [Hx Hl].
    change (foldl opcode_step (i, j, answer)
              ((x :: l) ++ [mkMatch i1 j1 0]))
      with (foldl opcode_step (opcode_step (i, j, answer) x)
              (l ++ [mkMatch i1 j1 0])).
    rewrite opcode_step_eq, IH by done.
    destruct (decide (m_size x = 0)); [lia|].
    simpl. by rewrite <-!app_assoc.
Qed.

Lemma opcodes_of_blocks (l : list Match) i1 j1 :
  Forall (λ m, 0 < m_size m) l →
  opcodes_of (l ++ [mkMatch i1 j1 0]) = ops_between 0 0 l i1 j1.
Proof. intros Hl. unfold opcodes_of. by rewrite opcodes_fold. Qed.

Lemma covers_app i0 j0 ops1 i j ops2 i1 j1 :
  covers a b i0 j0 ops1 i j → covers a b i j ops2 i1 j1 →
  covers a b i0 j0 (ops1 ++ ops2) i1 j1.
Proof. induction 1; intros; simpl; [done|]. constructor; auto. Qed.

Lemma covers_gap i j ai bj :
  i ≤ ai → j ≤ bj → covers a b i j (gap i j ai bj) ai bj.
Proof.
  intros Hi Hj. unfold gap.
  repeat destruct (decide _);
    try (apply (covers_cons a b (mkOp _ i ai j bj));
         [unfold op_ok; simpl; lia|constructor]).
  assert (i = ai) as -> by lia. assert (j = bj) as -> by lia. constructor.
Qed.

Lemma covers_ops_between i j l i1 j1 :
  chain a b i j l i1 j1 → covers a b i j (ops_between i j l i1 j1) i1 j1.
Proof.
  induction 1 as [|i0 j0 m l i1 j1 Hi Hj Hk Hm Hl IH]; simpl.
  - by apply covers_gap.
  - eapply covers_app; [by apply covers_gap|].
    apply (covers_cons a b (mkOp Equal _ _ _ _)); [|done].
    unfold op_ok. destruct m as [mi mj mk]. simpl in *.
    repeat split; try lia.
    by replace (mi + mk - mi) with mk by lia.
Qed.

(** [get_matching_blocks] and [get_opcodes] return, and what they return:
    a chain of blocks over the whole of [a] and [b] with the sentinel,
    and the opcodes of that chain. *)
Lemma get_matching_blocks_chain :
  ∃ l, get_matching_blocks a b
         = Ok (l ++ [mkMatch (length a) (length b) 0]) ∧
       chain a b 0 0 l (length a) (length b).
Proof.
  destruct (match_queue_terminates a b) as (found & l & Hq & Hs & Hc).
  destruct (collapse_chain l Hc) as (l' & Hl' & Hc').
  exists l'. split; [|done].
  unfold get_matching_blocks. rewrite Hq. simpl. by rewrite Hs, Hl'.
Qed.

Lemma get_opcodes_chain :
  ∃ l, chain a b 0 0 l (length a) (length b) ∧
       get_opcodes a b = Ok (ops_between 0 0 l (length a) (length b)).
Proof.
  destruct get_matching_blocks_chain as (l & Hl & Hc).
  exists l. split; [done|].
  unfold get_opcodes. rewrite Hl. simpl. f_equal.
  apply opcodes_of_blocks.
  eapply Forall_impl; [by eapply chain_Forall_ge|]. simpl. lia.
Qed.

Lemma get_opcodes_covers :
  ∃ ops, get_opcodes a b = Ok ops ∧
         covers a b 0 0 ops (length a) (length b).
Proof.
  destruct get_opcodes_chain as (l & Hc & Hops).
  eexists. split; [done|]. by apply covers_ops_between.
Qed.

Lemma seq_glue (i j k : nat) :
  i ≤ j → j ≤ k → seq i (j - i) ++ seq j (k - j) = seq i (k - i).
Proof.
  intros Hij Hjk. replace (k - i) with ((j - i) + (k - j)) by lia.
  rewrite seq_app. do 2 f_equal. lia.
Qed.

(** The spans of the opcodes, one after the other, are the indices of
    [a] and the indices of [b]: every index lies in exactly one span. *)
Lemma covers_spans i j ops i1 j1 :
  covers a b i j ops i1 j1 →
  i ≤ i1 ∧ j ≤ j1 ∧
  concat (a_span <$> ops) = seq i (i1 - i) ∧
  concat (b_span <$> ops) = seq j (j1 - j).
Proof.
  induction 1 as [i j|op ops i1 j1 Hop Hc (Hi & Hj & IHa & IHb)].
  - rewrite !Nat.sub_diag. done.
  - assert (op_i1 op ≤ op_i2 op ∧ op_j1 op ≤ op_j2 op) as [Hi' Hj'].
    { unfold op_ok in Hop. destruct (op_tag op); lia. }
    split; [lia|]. split; [lia|].
    rewrite !fmap_cons. simpl concat. rewrite IHa, IHb.
    unfold a_span, b_span. split; apply seq_glue; lia.
Qed.

(** The indices an opcode names are indices of [a] and of [b]. *)
Lemma covers_in_range i j ops i1 j1 op :
  covers a b i j ops i1 j1 → op ∈ ops →
  op_ok a b op ∧ i ≤ op_i1 op ∧ op_i2 op ≤ i1 ∧ j ≤ op_j1 op ∧ op_j2 op ≤ j1.
Proof.
  induction 1 as [i j|op' ops i1 j1 Hop Hc IH];
    [by rewrite elem_of_nil|].
  apply covers_spans in Hc as Hb.
  assert (op_i1 op' ≤ op_i2 op' ∧ op_j1 op' ≤ op_j2 op') as [Hi' Hj'].
  { unfold op_ok in Hop. destruct (op_tag op'); lia. }
  rewrite elem_of_cons. intros [->|Hin]; [split; [done|lia]|].
  destruct (IH Hin) as (? & ? & ? & ? & ?). split; [done|lia].
Qed.
End Opcodes.

(** ** The opcodes in three special cases *)

Section Special_cases.
Context `{Countable A}.
Import SequenceMatcher.

(** Nothing in common: one [replace] over everything. *)
Lemma get_opcodes_disjoint (a b : list A) :
  a ≠ [] → b ≠ [] → (∀ x, x ∈ a → x ∉ b) →
  get_opcodes a b = Ok [mkOp Replace 0 (length a) 0 (length b)].
Proof.
  intros Ha Hb Hdis.
  destruct (get_opcodes_chain a b) as (l & Hc & ->). f_equal.
  inversion Hc as [|i0 j0 m l' i1 j1 _ _ Hk Hm _]; subst.
  - simpl. unfold gap.
    destruct a, b; done.
  - destruct (Hm 0 Hk) as (x & Hxa & Hxb).
    apply list_elem_of_lookup_2 in Hxa, Hxb. by destruct (Hdis x).
Qed.

Lemma chain_single_a (x : A) (b : list A) (l : list Match) :
  chain [x] b 0 0 l 1 (length b) →
  l = [] ∨ ∃ j, l = [mkMatch 0 j 1] ∧ j < length b ∧ b !! j = Some x.
Proof.
  intros Hc.
  inversion Hc as [|i0 j0 m l0 i1 j1 _ _ Hk Hm Hl]; subst; [by left|].
  right. apply chain_bounds in Hl as Hb.
  destruct m as [mi mj mk]. simpl in *.
  assert (mi = 0 ∧ mk = 1) as [-> ->] by lia.
  exists mj. split; [|split; [lia|]].
  - inversion Hl as [|i0 j0 m' l i1 j1 Hi' _ Hk' _ Hl']; subst; [done|].
    simpl in *.
    apply chain_bounds in Hl'. lia.
  - destruct (Hm 0) as (y & Hy1 & Hy2); [lia|].
    rewrite Nat.add_0_r in Hy2. simpl in Hy1. congruence.
Qed.

Lemma chain_single_b (a : list A) (x : A) (l : list Match) :
  chain a [x] 0 0 l (length a) 1 →
  l = [] ∨ ∃ i, l = [mkMatch i 0 1] ∧ i < length a ∧ a !! i = Some x.
Proof.
  intros Hc.
  inversion Hc as [|i0 j0 m l0 i1 j1 _ _ Hk Hm Hl]; subst; [by left|].
  right. apply chain_bounds in Hl as Hb.
  destruct m as [mi mj mk]. simpl in *.
  assert (mj = 0 ∧ mk = 1) as [-> ->] by lia.
  exists mi. split; [|split; [lia|]].
  - inversion Hl as [|i0 j0 m' l i1 j1 _ Hj' Hk' _ Hl']; subst; [done|].
    simpl in *.
    apply chain_bounds in Hl'. lia.
  - destruct (Hm 0) as (y & Hy1 & Hy2); [lia|].
    rewrite Nat.add_0_r in Hy1. simpl in Hy2. congruence.
Qed.

(** One element against a sequence: a [replace] over everything, or the
    element found in [b] with inserts around it. *)
Lemma get_opcodes_single_a (x : A) (b : list A) :
  b ≠ [] →
  get_opcodes [x] b = Ok [mkOp Replace 0 1 0 (length b)] ∨
  ∃ j, j < length b ∧ b !! j = Some x ∧
    get_opcodes [x] b =
      Ok (gap 0 0 0 j ++ mkOp Equal 0 1 j (j + 1)
            :: gap 1 (j + 1) 1 (length b)).
Proof.
  intros Hb. destruct (get_opcodes_chain [x] b) as (l & Hc & ->).
  destruct (chain_single_a x b l Hc) as [->|(j & -> & Hj & Hx)].
  - left. destruct b; [done|]. done.
  - right. exists j. done.
Qed.

Lemma get_opcodes_single_b (a : list A) (x : A) :
  a ≠ [] →
  get_opcodes a [x] = Ok [mkOp Replace 0 (length a) 0 1] ∨
  ∃ i, i < length a ∧ a !! i = Some x ∧
    get_opcodes a [x] =
      Ok (gap 0 0 i 0 ++ mkOp Equal i (i + 1) 0 1
            :: gap (i + 1) 1 (length a) 1).
Proof.
  intros Ha. destruct (get_opcodes_chain a [x]) as (l & Hc & ->).
  destruct (chain_single_b a x l Hc) as [->|(i & -> & Hi & Hx)].
  - left. destruct a; [done|]. done.
  - right. exists i. done.
Qed.
End Special_cases.

(** ** A sequence matched against itself *)

Section Identical.
Context `{Countable A}.
Variable a : list A.
Import SequenceMatcher.

Local Abbreviation run := (indexed_run a).

Lemma positions_ge (x : A) (l : list A) (i : nat) :
  Forall (λ j, i ≤ j) (positions x i l).
Proof.
  apply Forall_forall. intros j Hj.
  by apply elem_of_positions in Hj as [? _].
Qed.

Lemma positions_sorted (x : A) (l : list A) (i : nat) :
  StronglySorted lt (positions x i l).
Proof.
  revert i. induction l as [|y l IH]; intros i; simpl; [constructor|].
  destruct (decide (y = x)); [|done].
  constructor; [done|]. apply (positions_ge x l (S i)).
Qed.

Lemma instances_cases (x : A) :
  instances a (Some x) = [] ∨
  (instances a (Some x) = positions x 0 a ∧ positions x 0 a ≠ []).
Proof.
  unfold instances. destruct (b2j a !! x) as [js|] eqn:Hjs; [|by left].
  right. apply b2j_lookup in Hjs as [-> ?]. done.
Qed.

Lemma run_S (j : nat) (x : A) :
  a !! j = Some x → instances a (Some x) ≠ [] → run (S j) = S (run j).
Proof. intros Hj Hx. simpl. rewrite Hj. by rewrite decide_False. Qed.

Lemma j2len_get_prev_le (j2len : gmap nat nat) (i j : nat) :
  (∀ j k, j2len !! j = Some k → k ≤ run (S j) ∧ k ≤ run i) →
  j2len_get_prev j2len j ≤ run j ∧ j2len_get_prev j2len j ≤ run i.
Proof.
  intros Hprev. unfold j2len_get_prev. destruct j as [|j']; [lia|].
  destruct (j2len !! j') as [k|] eqn:Hk; simpl; [|lia].
  by apply Hprev.
Qed.

(** One row of the search: the best match stays on the diagonal, because
    a longer match off the diagonal is never seen before the run on the
    diagonal that bounds it. *)
Lemma scan_row_diag (i : nat) (x : A) (js : list nat)
    (j2len new : gmap nat nat) (best : Match) :
  a !! i = Some x →
  instances a (Some x) ≠ [] →
  StronglySorted lt js →
  (∀ j, j ∈ js → a !! j = Some x) →
  (∀ j k, j2len !! j = Some k → k ≤ run (S j) ∧ k ≤ run i) →
  j2len_get_prev j2len i = run i →
  m_a best = m_b best →
  (∀ j', j' ≤ i → run j' ≤ m_size best) →
  (∀ j k, new !! j = Some k → k ≤ run (S j) ∧ k ≤ run (S i)) →
  (i ∈ js ∧ new !! i = None) ∨
    (new !! i = Some (run (S i)) ∧ run (S i) ≤ m_size best) →
  let r := scan_row i 0 (length a) js j2len new best in
  m_a r.2 = m_b r.2 ∧
  (∀ j', j' ≤ S i → run j' ≤ m_size r.2) ∧
  (∀ j k, r.1 !! j = Some k → k ≤ run (S j) ∧ k ≤ run (S i)) ∧
  j2len_get_prev r.1 (S i) = run (S i).
Proof.
  intros Hai Hx Hsorted Hjs Hprev Hdiag. revert new best Hsorted Hjs.
  induction js as [|j js IH];
    intros new best Hsorted Hjs Hbest Hruns Hnew Hi; cbn [scan_row fst snd].
  - destruct Hi as [[Hi _]|[Hi Hle]]; [by apply elem_of_nil in Hi|].
    split; [done|]. split; [|split; [done|]].
    + intros j' Hj'. destruct (decide (j' = S i)) as [->|]; [done|].
      apply Hruns. lia.
    + unfold j2len_get_prev. by rewrite Hi.
  - apply StronglySorted_inv in Hsorted as [Hsorted Hlt].
    assert (a !! j = Some x) as Haj by (apply Hjs; by left).
    apply lookup_lt_Some in Haj as Hjn.
    destruct (decide (j < 0)); [lia|].
    destruct (decide (length a ≤ j)); [lia|].
    destruct (j2len_get_prev_le j2len i j Hprev) as [Hk1 Hk2].
    pose proof (run_S j x Haj Hx) as HSj.
    pose proof (run_S i x Hai Hx) as HSi.
    set (k := j2len_get_prev j2len j + 1) in *.
    destruct (decide (j = i)) as [->|Hne].
    + assert (k = run (S i)) as Hk by (subst k; lia).
      apply IH; [done|by intros; apply Hjs; right| | | |].
      * by destruct (decide _).
      * intros j' Hj'. apply Hruns in Hj'.
        destruct (decide _); cbn [m_size]; lia.
      * intros j' k'. rewrite lookup_insert.
        destruct (decide (i = j')) as [<-|]; [|by apply Hnew].
        intros [= <-]. lia.
      * right. rewrite lookup_insert_eq, Hk. split; [done|].
        destruct (decide _); cbn [m_size]; lia.
    + assert (k ≤ m_size best) as Hk.
      { destruct (decide (j < i)) as [Hji|Hji].
        - pose proof (Hruns (S j)). lia.
        - destruct Hi as [[Hi _]|[_ Hle]]; [|lia].
          apply elem_of_cons in Hi as [->|Hi]; [done|].
          rewrite Forall_forall in Hlt. apply Hlt in Hi. lia. }
      destruct (decide (m_size best < k)); [lia|].
      apply IH; [done|by intros; apply Hjs; right|done|done| |].
      * intros j' k'. rewrite lookup_insert.
        destruct (decide (j = j')) as [<-|]; [|by apply Hnew].
        intros [= <-]. lia.
      * rewrite lookup_insert_ne by done.
        destruct Hi as [[Hi Hnone]|Hi]; [left|by right].
        split; [|done].
        apply elem_of_cons in Hi as [->|Hi]; done.
Qed.

Lemma scan_rows_diag (m i : nat) (j2len : gmap nat nat) (best : Match) :
  i + m = length a →
  (∀ j k, j2len !! j = Some k → k ≤ run (S j) ∧ k ≤ run i) →
  j2len_get_prev j2len i = run i →
  m_a best = m_b best →
  (∀ j', j' ≤ i → run j' ≤ m_size best) →
  m_a (scan_rows a a 0 (length a) (seq i m) j2len best)
  = m_b (scan_rows a a 0 (length a) (seq i m) j2len best).
Proof.
  revert i j2len best.
  induction m as [|m IH]; intros i j2len best Him Hprev Hdiag Hbest Hruns;
    simpl; [done|].
  assert (is_Some (a !! i)) as [x Hx] by (apply lookup_lt_is_Some_2; lia).
  rewrite Hx.
  destruct (instances_cases x) as [Hnone|[Hjs Hne]].
  - rewrite Hnone. simpl.
    assert (run (S i) = 0) as Hrun.
    { simpl. rewrite Hx. by rewrite decide_True. }
    apply IH; [lia| |by rewrite Hrun|done|].
    + intros j k. by rewrite lookup_empty.
    + intros j' Hj'. destruct (decide (j' = S i)) as [->|]; [lia|].
      apply Hruns. lia.
  - destruct (scan_row_diag i x (instances a (Some x)) j2len ∅ best)
      as (Hb & Hr & Hn & Hd); try done.
    + by rewrite <-Hjs in Hne.
    + rewrite Hjs. apply positions_sorted.
    + intros j. rewrite Hjs, elem_of_positions, Nat.sub_0_r. by intros [_ ?].
    + left. split; [|by rewrite lookup_empty].
      rewrite Hjs, elem_of_positions, Nat.sub_0_r. split; [lia|done].
    + destruct (scan_row i 0 (length a) (instances a (Some x)) j2len ∅ best)
        as [new best'].
      simpl in *. apply IH; [lia|done..].
Qed.

Lemma same_refl (i : nat) : i < length a → same (a !! i) (a !! i) = true.
Proof.
  intros Hi. apply same_true.
  destruct (lookup_lt_is_Some_2 a i Hi) as [x Hx]. eauto.
Qed.

Lemma extend_back_diag (i k : nat) :
  i ≤ length a →
  extend_back a a false 0 0 i i k = mkMatch 0 0 (i + k).
Proof.
  revert k. induction i as [|i IH]; intros k Hi; simpl; [done|].
  rewrite decide_True.
  - rewrite IH by lia. f_equal. lia.
  - repeat split; [lia|lia|apply isbjunk_false|apply same_refl; lia].
Qed.

Lemma extend_forward_diag (room k : nat) :
  k + room = length a →
  extend_forward a a false room (length a) 0 0 k
  = mkMatch 0 0 (length a).
Proof.
  revert k. induction room as [|room IH]; intros k Hk; simpl.
  - f_equal. lia.
  - rewrite decide_True; [apply IH; lia|].
    repeat split; [lia|apply isbjunk_false|apply same_refl; lia].
Qed.

(** The longest match of [a] with itself is the whole of [a]. *)
Lemma find_longest_match_self :
  find_longest_match a a 0 (length a) 0 (length a)
  = mkMatch 0 0 (length a).
Proof.
  unfold find_longest_match.
  set (best := scan_rows a a 0 (length a) (seq 0 (length a - 0)) ∅
                 (mkMatch 0 0 0)).
  assert (m_a best = m_b best) as Hdiag.
  { subst best. apply scan_rows_diag; try done; [lia|].
    intros j' Hj'. assert (j' = 0) as -> by lia. done. }
  assert (in_window a a 0 (length a) 0 (length a) best)
    as (_ & Hhi & _).
  { subst best. apply scan_rows_ok; [lia|lia| |].
    - intros j k. by rewrite lookup_empty.
    - unfold in_window. simpl. repeat split; try lia. intros t Ht. lia. }
  destruct best as [i j k]. simpl in *. subst j.
  unfold extend at 2. simpl.
  rewrite extend_back_diag by lia. simpl.
  rewrite extend_forward_diag by lia.
  unfold extend. simpl. by rewrite Nat.sub_diag.
Qed.

(** Identical sequences: one [equal] opcode over everything. *)
Lemma get_opcodes_self :
  a ≠ [] →
  get_opcodes a a = Ok [mkOp Equal 0 (length a) 0 (length a)].
Proof.
  intros Ha.
  assert (0 < length a) as Hn by (destruct a; [done|simpl; lia]).
  unfold get_opcodes, get_matching_blocks.
  replace (2 * length a + 2) with (S (S (2 * length a))) by lia.
  simpl match_queue. rewrite find_longest_match_self. simpl.
  destruct (decide (length a = 0)); [lia|].
  destruct (decide (0 < 0 ∧ 0 < 0)); [lia|].
  destruct (decide (length a < length a ∧ length a < length a)); [lia|].
  simpl. unfold collapse, opcodes_of. simpl.
  destruct (decide (length a = 0)); [lia|]. simpl.
  unfold opcode_step. simpl.
  destruct (decide (length a = 0)); [lia|].
  repeat (destruct (decide _); try lia). done.
Qed.
End Identical.

(** ** Strings: splitting and joining *)

Section Strings.
Import Str.

Lemma list_ind2 {A} (P : list A → Prop) :
  P [] → (∀ x, P [x]) →
  (∀ x y l, P l → P (y :: l) → P (x :: y :: l)) →
  ∀ l, P l.
Proof.
  intros H0 H1 H2 l.
  assert (P l ∧ ∀ x, P (x :: l)) as [? _]; [|done].
  induction l as [|y l [IH1 IH2]]; [by split|].
  split; [done|]. intros x. by apply H2.
Qed.

Lemma join_cons (sep x : str) (l : list str) :
  l ≠ [] → join sep (x :: l) = x ++ sep ++ join sep l.
Proof. by destruct l. Qed.

Lemma join_Forall (P : N → Prop) (sep : str) (l : list str) :
  Forall P sep → Forall (Forall P) l → Forall P (join sep l).
Proof.
  intros Hsep. induction 1 as [|x l Hx Hl IH]; [constructor|].
  destruct l as [|y l]; [done|].
  rewrite join_cons by done. rewrite !Forall_app. done.
Qed.

Lemma join_Forall_inv (P : N → Prop) (sep : str) (l : list str) :
  Forall P (join sep l) → Forall (Forall P) l.
Proof.
  induction l as [|x l IH]; [constructor|].
  destruct l as [|y l]; [by repeat constructor|].
  rewrite join_cons by done. rewrite !Forall_app.
  intros (? & ? & ?). constructor; auto.
Qed.

Lemma split_nlnl_go_nonempty (cur s : str) : split_nlnl_go cur s ≠ [].
Proof.
  revert cur. induction s as [| |x y s IH1 IH2] using list_ind2;
    intros cur; simpl; [done|done|].
  destruct (decide _); [done|]. apply IH2.
Qed.

Lemma split_nlnl_nonempty (s : str) : split_nlnl s ≠ [].
Proof. apply split_nlnl_go_nonempty. Qed.

Lemma join_split_nlnl_go (cur s : str) :
  join [Char.NL; Char.NL] (split_nlnl_go cur s) = cur ++ s.
Proof.
  revert cur. induction s as [| |x y s IH1 IH2] using list_ind2;
    intros cur.
  - simpl. by rewrite app_nil_r.
  - done.
  - change (split_nlnl_go cur (x :: y :: s)) with
      (if decide (x = Char.NL ∧ y = Char.NL)
       then cur :: split_nlnl_go [] s
       else split_nlnl_go (cur ++ [x]) (y :: s)).
    destruct (decide _) as [[-> ->]|_].
    + rewrite join_cons by apply split_nlnl_go_nonempty.
      by rewrite IH1.
    + rewrite IH2. by rewrite <-app_assoc.
Qed.

(** Splitting loses nothing: the paragraphs joined by the delimiter are
    the text. *)
Lemma join_split_nlnl (s : str) :
  join [Char.NL; Char.NL] (split_nlnl s) = s.
Proof. apply join_split_nlnl_go. Qed.

Lemma split_nlnl_Forall (P : N → Prop) (s : str) :
  Forall P s → Forall (Forall P) (split_nlnl s).
Proof.
  intros Hs. apply (join_Forall_inv P [Char.NL; Char.NL]).
  by rewrite join_split_nlnl.
Qed.

Lemma re_split_go_nonempty (in_sep prev_end : bool) (cur s : str) :
  re_split_go in_sep prev_end cur s ≠ [].
Proof.
  revert in_sep prev_end cur. induction s as [|c s IH];
    intros in_sep prev_end cur; simpl; [done|].
  destruct in_sep; [destruct (Char.is_space c); apply IH|].
  destruct (prev_end && Char.is_space c); [done|apply IH].
Qed.

Lemma re_split_sentences_nonempty (s : str) : re_split_sentences s ≠ [].
Proof. apply re_split_go_nonempty. Qed.

Lemma re_split_go_Forall (P : N → Prop) (in_sep prev_end : bool)
    (cur s : str) :
  Forall P cur → Forall P s →
  Forall (Forall P) (re_split_go in_sep prev_end cur s).
Proof.
  intros Hcur Hs. revert in_sep prev_end cur Hcur.
  induction Hs as [|c s Hc Hs IH]; intros in_sep prev_end cur Hcur; simpl.
  - by repeat constructor.
  - assert (Forall P (cur ++ [c])) by (apply Forall_app; by repeat constructor).
    destruct in_sep; [destruct (Char.is_space c); by apply IH|].
    destruct (prev_end && Char.is_space c); [|by apply IH].
    constructor; [done|]. by apply IH.
Qed.

Lemma re_split_sentences_Forall (P : N → Prop) (s : str) :
  Forall P s → Forall (Forall P) (re_split_sentences s).
Proof. by apply re_split_go_Forall. Qed.

End Strings.

(** ** Sanitizing *)

Section Sanitize.
Import Str.

Lemma replace_app (old : N) (new s1 s2 : str) :
  replace old new (s1 ++ s2) = replace old new s1 ++ replace old new s2.
Proof. unfold replace. apply bind_app. Qed.

Lemma replace_cons (old c : N) (new s : str) :
  replace old new (c :: s)
  = (if decide (c = old) then new else [c]) ++ replace old new s.
Proof. done. Qed.

(** The four replacements amount to one substitution, character by
    character. *)
Lemma sanitize_for_display_cons (c : N) (s : str) :
  sanitize_for_display (c :: s) = entity c ++ sanitize_for_display s.
Proof.
  unfold sanitize_for_display, entity.
  rewrite (replace_cons Char.LT).
  destruct (decide (c = Char.LT)) as [->|H1].
  { by rewrite !replace_app. }
  simpl app. rewrite (replace_cons Char.GT).
  destruct (decide (c = Char.GT)) as [->|H2].
  { by rewrite !replace_app. }
  simpl app. rewrite (replace_cons Char.LBRACE).
  destruct (decide (c = Char.LBRACE)) as [->|H3].
  { by rewrite !replace_app. }
  simpl app. rewrite (replace_cons Char.RBRACE).
  by destruct (decide (c = Char.RBRACE)) as [->|H4].
Qed.

Lemma sanitize_for_display_bind (s : str) :
  sanitize_for_display s = s ≫= entity.
Proof.
  induction s as [|c s IH]; [done|].
  rewrite sanitize_for_display_cons, IH. done.
Qed.

Lemma sanitize_for_display_app (s1 s2 : str) :
  sanitize_for_display (s1 ++ s2)
  = sanitize_for_display s1 ++ sanitize_for_display s2.
Proof. rewrite !sanitize_for_display_bind. apply bind_app. Qed.

Lemma entity_safe (c : N) : Forall safe_char (entity c).
Proof.
  unfold entity. repeat destruct (decide _);
    repeat constructor; unfold safe_char; try done; naive_solver.
Qed.

Lemma sanitize_for_display_safe (s : str) :
  Forall safe_char (sanitize_for_display s).
Proof.
  induction s as [|c s IH]; [constructor|].
  rewrite sanitize_for_display_cons. apply Forall_app.
  split; [apply entity_safe|done].
Qed.

Lemma entity_no_newline (c : N) : c ≠ Char.NL → Char.NL ∉ entity c.
Proof.
  intros Hc. unfold entity. repeat destruct (decide _); intros Hin;
    repeat (apply elem_of_cons in Hin as [Hin|Hin];
            [by (discriminate Hin || congruence)|]);
    by apply elem_of_nil in Hin.
Qed.

Lemma entity_newline : entity Char.NL = [Char.NL].
Proof. done. Qed.

Lemma entity_head (c : N) :
  c ≠ Char.NL → ∃ d w, entity c = d :: w ∧ d ≠ Char.NL.
Proof.
  intros Hc. unfold entity.
  repeat destruct (decide _); eexists _, _; (split; [done|]); done.
Qed.

(** A stretch without newlines goes to the paragraph being read. *)
Lemma split_nlnl_go_absorb (cur w s : str) :
  Char.NL ∉ w → split_nlnl_go cur (w ++ s) = split_nlnl_go (cur ++ w) s.
Proof.
  revert cur. induction w as [|c w IH]; intros cur Hw; simpl app.
  - by rewrite app_nil_r.
  - apply not_elem_of_cons in Hw as [Hc Hw].
    replace (cur ++ c :: w) with ((cur ++ [c]) ++ w)
      by by rewrite <-app_assoc.
    rewrite <-IH by done. simpl.
    destruct (w ++ s) as [|c' r]; [done|].
    rewrite decide_False; [done|]. naive_solver.
Qed.

Lemma split_nlnl_go_sanitize (cur s : str) :
  split_nlnl_go (sanitize_for_display cur) (sanitize_for_display s)
  = sanitize_for_display <$> split_nlnl_go cur s.
Proof.
  revert cur. induction s as [|x|x y s IH1 IH2] using list_ind2;
    intros cur.
  - done.
  - change (split_nlnl_go cur [x]) with [cur ++ [x]].
    rewrite fmap_cons, sanitize_for_display_app. simpl fmap.
    destruct (decide (x = Char.NL)) as [->|Hx]; [done|].
    rewrite sanitize_for_display_cons.
    rewrite split_nlnl_go_absorb by by apply entity_no_newline.
    simpl. by rewrite !app_nil_r.
  - change (split_nlnl_go cur (x :: y :: s)) with
      (if decide (x = Char.NL ∧ y = Char.NL)
       then cur :: split_nlnl_go [] s
       else split_nlnl_go (cur ++ [x]) (y :: s)).
    destruct (decide (x = Char.NL)) as [->|Hx].
    + destruct (decide (y = Char.NL)) as [->|Hy].
      * rewrite decide_True by done.
        rewrite fmap_cons, <-IH1. done.
      * rewrite decide_False by naive_solver.
        rewrite <-IH2, sanitize_for_display_app.
        rewrite (sanitize_for_display_cons Char.NL (y :: s)).
        rewrite entity_newline.
        rewrite (sanitize_for_display_cons y s).
        destruct (entity_head y Hy) as (d & w & -> & Hd).
        simpl. rewrite decide_False by naive_solver. done.
    + rewrite decide_False by naive_solver.
      rewrite <-IH2, sanitize_for_display_app.
      rewrite (sanitize_for_display_cons x (y :: s)).
      rewrite split_nlnl_go_absorb by by apply entity_no_newline.
      do 2 f_equal. rewrite (sanitize_for_display_cons x []).
      by rewrite app_nil_r.
Qed.

(** Sanitizing does not touch the paragraph boundaries. *)
Lemma split_nlnl_sanitize (s : str) :
  split_nlnl (sanitize_for_display s)
  = sanitize_for_display <$> split_nlnl s.
Proof. apply (split_nlnl_go_sanitize [] s). Qed.
End Sanitize.

(** ** The records of [compare_texts] *)

Section Records.
Import SequenceMatcher.

Lemma append_all_Ok {X} (f : X → result (list DiffRecord))
    (g : X → list DiffRecord) (ops : list X) :
  (∀ x, x ∈ ops → f x = Ok (g x)) →
  append_all f ops = Ok (concat (g <$> ops)).
Proof. intros Hf. unfold append_all. by rewrite (for_each_Ok f g). Qed.

Lemma sentence_records_emit (old_sentences new_sentences : list str)
    (op : Opcode) :
  op_i2 op ≤ length old_sentences →
  sentence_records old_sentences new_sentences op
  = Ok (sentence_emit old_sentences new_sentences op).
Proof.
  intros Hi. unfold sentence_records, sentence_emit.
  destruct (op_tag op); try done.
  by apply (for_each_index old_sentences (λ s, mkDiff (py "equal") s s)).
Qed.

Lemma paragraph_records_emit (paragraphs1 paragraphs2 : list str)
    (op : Opcode) :
  op_i2 op ≤ length paragraphs1 → op_j2 op ≤ length paragraphs2 →
  paragraph_records paragraphs1 paragraphs2 op
  = Ok (paragraph_emit paragraphs1 paragraphs2 op).
Proof.
  intros Hi Hj. unfold paragraph_records, paragraph_emit.
  destruct (op_tag op).
  - fold (old_sentences_of paragraphs1 op).
    fold (new_sentences_of paragraphs2 op).
    destruct (get_opcodes_covers (old_sentences_of paragraphs1 op)
                (new_sentences_of paragraphs2 op)) as (sops & -> & Hc).
    simpl. apply append_all_Ok. intros sop Hsop.
    apply sentence_records_emit.
    by destruct (covers_in_range _ _ _ _ _ _ _ sop Hc Hsop)
      as (_ & _ & ? & _).
  - by apply (for_each_index paragraphs1 (λ p, mkDiff (py "deleted") p [])).
  - by apply (for_each_index paragraphs2 (λ p, mkDiff (py "added") [] p)).
  - by apply (for_each_index paragraphs1 (λ p, mkDiff (py "equal") p p)).
Qed.

(** [compare_texts] returns, and what: the records of the opcodes of the
    two paragraph lists, opcode after opcode. *)
Lemma compare_texts_emit (text1 text2 : str) :
  let paragraphs1 := Str.split_nlnl (sanitize_for_display text1) in
  let paragraphs2 := Str.split_nlnl (sanitize_for_display text2) in
  ∃ opcodes,
    get_opcodes paragraphs1 paragraphs2 = Ok opcodes ∧
    covers paragraphs1 paragraphs2 0 0 opcodes
      (length paragraphs1) (length paragraphs2) ∧
    compare_texts text1 text2
    = Ok (concat (paragraph_emit paragraphs1 paragraphs2 <$> opcodes)).
Proof.
  intros p1 p2.
  destruct (get_opcodes_covers p1 p2) as (ops & Hops & Hc).
  exists ops. split; [done|]. split; [done|].
  unfold compare_texts. fold p1 p2. rewrite Hops. simpl.
  apply append_all_Ok. intros op Hop.
  destruct (covers_in_range _ _ _ _ _ _ _ op Hc Hop)
    as (_ & _ & ? & _ & ?).
  by apply paragraph_records_emit.
Qed.

Lemma elem_of_concat_fmap {X Y} (f : X → list Y) (l : list X) (y : Y) :
  y ∈ concat (f <$> l) ↔ ∃ x, x ∈ l ∧ y ∈ f x.
Proof.
  rewrite list_elem_of_In, in_concat. split.
  - intros (ys & Hys & Hy). apply list_elem_of_In in Hys, Hy.
    apply list_elem_of_fmap in Hys as (x & -> & Hx). eauto.
  - intros (x & Hx & Hy). exists (f x).
    rewrite <-!list_elem_of_In. split; [|done].
    by apply list_elem_of_fmap_2.
Qed.
End Records.

(** ** Slices *)

Section Slices.
Context {A : Type}.
Implicit Types l : list A.

Lemma slice_nil l (i : nat) : slice l i i = [].
Proof. unfold slice. by rewrite Nat.sub_diag. Qed.

Lemma slice_glue l (i j k : nat) :
  i ≤ j → j ≤ k → slice l i j ++ slice l j k = slice l i k.
Proof.
  intros Hij Hjk. unfold slice.
  replace (drop j l) with (drop (j - i) (drop i l))
    by (rewrite drop_drop; f_equal; lia).
  rewrite take_take_drop. f_equal. lia.
Qed.

Lemma slice_nonempty l (i j : nat) :
  i < j → j ≤ length l → slice l i j ≠ [].
Proof.
  intros Hij Hj Hnil. apply (f_equal length) in Hnil.
  rewrite slice_length in Hnil by done. simpl in Hnil. lia.
Qed.
End Slices.

Section Traversal.
Import SequenceMatcher.

Lemma matches_slices {A} `{Countable A} (a b : list A) (i j k : nat) :
  matches a b i j k → slice a i (i + k) = slice b j (j + k).
Proof.
  intros Hm. apply list_eq. intros t.
  destruct (decide (t < k)) as [Ht|Ht].
  - rewrite !slice_lookup by lia.
    destruct (Hm t Ht) as (x & -> & ->). done.
  - unfold slice. rewrite !lookup_take_ge by lia. done.
Qed.

Lemma covers_slices {A} `{Countable A} (a b : list A) i j ops i1 j1 :
  covers a b i j ops i1 j1 →
  concat ((λ op, slice a (op_i1 op) (op_i2 op)) <$> ops) = slice a i i1 ∧
  concat ((λ op, slice b (op_j1 op) (op_j2 op)) <$> ops) = slice b j j1.
Proof.
  induction 1 as [i j|op ops i1 j1 Hop Hc [IHa IHb]].
  - by rewrite !slice_nil.
  - apply covers_spans in Hc as (Hi & Hj & _).
    assert (op_i1 op ≤ op_i2 op ∧ op_j1 op ≤ op_j2 op) as [Hi' Hj'].
    { unfold op_ok in Hop. destruct (op_tag op); lia. }
    rewrite !fmap_cons. simpl concat. rewrite IHa, IHb.
    by rewrite !slice_glue.
Qed.

Lemma traverses_app rs1 us1 vs1 rs2 us2 vs2 :
  traverses rs1 us1 vs1 → traverses rs2 us2 vs2 →
  traverses (rs1 ++ rs2) (us1 ++ us2) (vs1 ++ vs2).
Proof.
  induction 1 as [|u rs us vs _ IH|g h rs us vs Hg Hh _ IH
                  |g rs us vs Hg _ IH|h rs us vs Hh _ IH];
    intros Hrs2; simpl; rewrite <-?app_assoc.
  - done.
  - apply traverses_equal. by apply IH.
  - apply traverses_modified; [done|done|by apply IH].
  - apply traverses_deleted; [done|by apply IH].
  - apply traverses_added; [done|by apply IH].
Qed.

Lemma traverses_equal_map (l : list str) :
  traverses ((λ u, mkDiff (py "equal") u u) <$> l) l l.
Proof. induction l; simpl; by constructor. Qed.

Lemma traverses_deleted_map (l : list str) :
  traverses ((λ p, mkDiff (py "deleted") p []) <$> l) l [].
Proof.
  induction l as [|p l IH]; simpl; [constructor|].
  by apply (traverses_deleted [p]).
Qed.

Lemma traverses_added_map (l : list str) :
  traverses ((λ p, mkDiff (py "added") [] p) <$> l) [] l.
Proof.
  induction l as [|p l IH]; simpl; [constructor|].
  by apply (traverses_added [p]).
Qed.

Lemma sentence_emit_traverses (olds news : list str) (op : Opcode) :
  op_ok olds news op →
  op_i2 op ≤ length olds → op_j2 op ≤ length news →
  traverses (sentence_emit olds news op)
    (slice olds (op_i1 op) (op_i2 op)) (slice news (op_j1 op) (op_j2 op)).
Proof.
  unfold op_ok, sentence_emit. intros Hop Hi Hj.
  destruct (op_tag op).
  - destruct Hop as [Hi' Hj'].
    pose proof (traverses_modified
      (slice olds (op_i1 op) (op_i2 op))
      (slice news (op_j1 op) (op_j2 op)) [] [] []) as Ht.
    rewrite !app_nil_r in Ht.
    apply Ht; [by apply slice_nonempty..|constructor].
  - destruct Hop as [Hi' ->]. rewrite (slice_nil news).
    pose proof (traverses_deleted
      (slice olds (op_i1 op) (op_i2 op)) [] [] []) as Ht.
    rewrite !app_nil_r in Ht.
    apply Ht; [by apply slice_nonempty|constructor].
  - destruct Hop as [-> Hj']. rewrite (slice_nil olds).
    pose proof (traverses_added
      (slice news (op_j1 op) (op_j2 op)) [] [] []) as Ht.
    rewrite !app_nil_r in Ht.
    apply Ht; [by apply slice_nonempty|constructor].
  - destruct Hop as (Hi' & Hj' & Hk & Hm).
    apply matches_slices in Hm.
    replace (op_i1 op + (op_i2 op - op_i1 op)) with (op_i2 op) in Hm
      by lia.
    replace (op_j1 op + (op_i2 op - op_i1 op)) with (op_j2 op) in Hm
      by lia.
    rewrite <-Hm. apply traverses_equal_map.
Qed.

(** The records of a sentence-level alignment use up the sentences of
    both sides, each once and in order. *)
Lemma sentences_traverses (olds news : list str) i j sops i1 j1 :
  covers olds news i j sops i1 j1 →
  i1 ≤ length olds → j1 ≤ length news →
  traverses (concat (sentence_emit olds news <$> sops))
    (slice olds i i1) (slice news j j1).
Proof.
  induction 1 as [i j|op ops i1 j1 Hop Hc IH]; intros Hi1 Hj1.
  - rewrite !slice_nil. constructor.
  - apply covers_spans in Hc as Hb. destruct Hb as (Hi & Hj & _).
    assert (op_i1 op ≤ op_i2 op ∧ op_j1 op ≤ op_j2 op) as [Hi' Hj'].
    { unfold op_ok in Hop. destruct (op_tag op); lia. }
    rewrite fmap_cons. simpl concat.
    rewrite <-(slice_glue olds (op_i1 op) (op_i2 op) i1) by done.
    rewrite <-(slice_glue news (op_j1 op) (op_j2 op) j1) by done.
    apply traverses_app; [|by apply IH].
    apply sentence_emit_traverses; [done|lia|lia].
Qed.

Lemma paragraph_emit_traverses (p1 p2 : list str) (op : Opcode) :
  op_ok p1 p2 op →
  op_i2 op ≤ length p1 → op_j2 op ≤ length p2 →
  traverses (paragraph_emit p1 p2 op) (old_units p1 op) (new_units p2 op).
Proof.
  unfold op_ok, paragraph_emit, old_units, new_units. intros Hop Hi Hj.
  destruct (op_tag op).
  - destruct (get_opcodes_covers (old_sentences_of p1 op)
                (new_sentences_of p2 op)) as (sops & -> & Hc).
    apply sentences_traverses in Hc; [|done..].
    by rewrite !slice_full in Hc.
  - destruct Hop as [_ ->]. rewrite (slice_nil p2).
    apply traverses_deleted_map.
  - destruct Hop as [-> _]. rewrite (slice_nil p1).
    apply traverses_added_map.
  - destruct Hop as (Hi' & Hj' & Hk & Hm).
    apply matches_slices in Hm.
    replace (op_i1 op + (op_i2 op - op_i1 op)) with (op_i2 op) in Hm
      by lia.
    replace (op_j1 op + (op_i2 op - op_i1 op)) with (op_j2 op) in Hm
      by lia.
    rewrite <-Hm. apply traverses_equal_map.
Qed.

Lemma paragraphs_traverses (p1 p2 : list str) i j ops i1 j1 :
  covers p1 p2 i j ops i1 j1 →
  i1 ≤ length p1 → j1 ≤ length p2 →
  traverses (concat (paragraph_emit p1 p2 <$> ops))
    (concat (old_units p1 <$> ops)) (concat (new_units p2 <$> ops)).
Proof.
  induction 1 as [i j|op ops i1 j1 Hop Hc IH]; intros Hi1 Hj1.
  - constructor.
  - apply covers_spans in Hc as Hb. destruct Hb as (Hi & Hj & _).
    rewrite !fmap_cons. simpl concat.
    apply traverses_app; [|by apply IH].
    apply paragraph_emit_traverses; [done|lia|lia].
Qed.
End Traversal.

(** ** The summary *)

Section Summary.
Lemma percent_Ok (n total_elements : nat) :
  percent n total_elements
  = Ok (if decide (0 < total_elements)
        then Flt (ratio_percent n total_elements) else Int 0).
Proof.
  unfold percent. destruct (decide _) as [Ht|]; [|done].
  destruct total_elements; [lia|done].
Qed.

Lemma tally_step_unrecognized (t : Tally) (diff : DiffRecord) :
  ¬ recognized diff → tally_step t diff = t.
Proof.
  unfold recognized, tally_step. intros Hd.
  repeat (destruct (decide _); [naive_solver|]). done.
Qed.

Lemma tally_step_recognized (t : Tally) (diff : DiffRecord) :
  recognized diff →
  added (tally_step t diff) + deleted (tally_step t diff)
  + modified (tally_step t diff) + unchanged_n (tally_step t diff)
  = S (added t + deleted t + modified t + unchanged_n t).
Proof.
  unfold recognized, tally_step. intros Hd.
  repeat (destruct (decide _); [simpl; lia|]). naive_solver.
Qed.

Lemma tally_filter (diffs : list DiffRecord) (t : Tally) :
  foldl tally_step t (filter recognized diffs) = foldl tally_step t diffs.
Proof.
  revert t. induction diffs as [|d diffs IH]; intros t; [done|].
  rewrite filter_cons. destruct (decide (recognized d)); simpl.
  - apply IH.
  - rewrite IH. by rewrite tally_step_unrecognized.
Qed.

Lemma tally_total (diffs : list DiffRecord) (t : Tally) :
  let t' := foldl tally_step t diffs in
  added t' + deleted t' + modified t' + unchanged_n t'
  = added t + deleted t + modified t + unchanged_n t
    + length (filter recognized diffs).
Proof.
  revert t. induction diffs as [|d diffs IH]; intros t; simpl; [lia|].
  rewrite IH, filter_cons. destruct (decide (recognized d)).
  - rewrite tally_step_recognized by done. simpl. lia.
  - by rewrite tally_step_unrecognized.
Qed.

(** [generate_summary] returns, and what. *)
Lemma generate_summary_Ok (diffs : list DiffRecord) :
  let t := foldl tally_step (mkTally 0 0 0 0 [] [] []) diffs in
  let total := added t + deleted t + modified t + unchanged_n t in
  let pct n :=
    if decide (0 < total) then Flt (ratio_percent n total) else Int 0 in
  generate_summary diffs =
    Ok (mkSummary total
          (mkWordStats (added t) (pct (added t))
             (count_words (added_content t)))
          (mkWordStats (deleted t) (pct (deleted t))
             (count_words (deleted_content t)))
          (mkModStats (modified t) (pct (modified t))
             (count_words (fst <$> modified_content t))
             (count_words (snd <$> modified_content t)))
          (mkEqualStats (unchanged_n t) (pct (unchanged_n t)))).
Proof. intros t total pct. unfold generate_summary. by rewrite !percent_Ok. Qed.
End Summary.


(** ** What the records contain *)

Section Contents.
Import SequenceMatcher.

Lemma slice_Forall {A} (P : A → Prop) (l : list A) (i j : nat) :
  Forall P l → Forall P (slice l i j).
Proof.
  intros Hl. apply Forall_forall. intros x Hx.
  apply elem_of_slice in Hx. by eapply Forall_forall in Hl.
Qed.

Lemma space_safe : Forall safe_char (py " ").
Proof. repeat constructor; done. Qed.

Lemma newlines_safe : Forall safe_char [Char.NL; Char.NL].
Proof. repeat constructor; done. Qed.

Lemma sentence_emit_safe (olds news : list str) (op : Opcode)
    (r : DiffRecord) :
  Forall (Forall safe_char) olds → Forall (Forall safe_char) news →
  r ∈ sentence_emit olds news op →
  Forall safe_char (old_content r) ∧ Forall safe_char (new_content r).
Proof.
  intros Ho Hn. unfold sentence_emit.
  assert (∀ i j, Forall safe_char (Str.join (py " ") (slice olds i j)))
    as Hjo by (intros; apply join_Forall;
               [apply space_safe|by apply slice_Forall]).
  assert (∀ i j, Forall safe_char (Str.join (py " ") (slice news i j)))
    as Hjn by (intros; apply join_Forall;
               [apply space_safe|by apply slice_Forall]).
  destruct (op_tag op).
  - intros ->%list_elem_of_singleton. simpl. auto.
  - intros ->%list_elem_of_singleton. simpl. split; [auto|constructor].
  - intros ->%list_elem_of_singleton. simpl. split; [constructor|auto].
  - intros (s & -> & Hs)%list_elem_of_fmap. simpl.
    apply elem_of_slice in Hs. eapply Forall_forall in Ho; done.
Qed.

Lemma paragraph_emit_safe (p1 p2 : list str) (op : Opcode)
    (r : DiffRecord) :
  Forall (Forall safe_char) p1 → Forall (Forall safe_char) p2 →
  r ∈ paragraph_emit p1 p2 op →
  Forall safe_char (old_content r) ∧ Forall safe_char (new_content r).
Proof.
  intros H1 H2. unfold paragraph_emit. destruct (op_tag op).
  - destruct (get_opcodes _ _) as [sops|]; [|by rewrite elem_of_nil].
    intros (sop & _ & Hr)%elem_of_concat_fmap.
    apply sentence_emit_safe in Hr; [done|..];
      apply re_split_sentences_Forall, join_Forall;
      (apply newlines_safe || by apply slice_Forall).
  - intros (p & -> & Hp)%list_elem_of_fmap. simpl.
    apply elem_of_slice in Hp. eapply Forall_forall in H1; [|done].
    split; [done|constructor].
  - intros (p & -> & Hp)%list_elem_of_fmap. simpl.
    apply elem_of_slice in Hp. eapply Forall_forall in H2; [|done].
    split; [constructor|done].
  - intros (p & -> & Hp)%list_elem_of_fmap. simpl.
    apply elem_of_slice in Hp. eapply Forall_forall in H1; done.
Qed.

Lemma type_modified_sentence (olds news : list str) (op : Opcode)
    (r : DiffRecord) :
  r ∈ sentence_emit olds news op → type r = py "modified" →
  op_tag op = Replace ∧
  old_content r = Str.join (py " ") (slice olds (op_i1 op) (op_i2 op)) ∧
  new_content r = Str.join (py " ") (slice news (op_j1 op) (op_j2 op)).
Proof.
  unfold sentence_emit. destruct (op_tag op).
  - intros ->%list_elem_of_singleton. done.
  - intros ->%list_elem_of_singleton. done.
  - intros ->%list_elem_of_singleton. done.
  - intros (s & -> & Hs)%list_elem_of_fmap. done.
Qed.

Lemma type_modified_paragraph (p1 p2 : list str) (op : Opcode)
    (r : DiffRecord) :
  r ∈ paragraph_emit p1 p2 op → type r = py "modified" →
  op_tag op = Replace ∧
  ∃ sops sop,
    get_opcodes (old_sentences_of p1 op) (new_sentences_of p2 op)
      = Ok sops ∧
    sop ∈ sops ∧
    r ∈ sentence_emit (old_sentences_of p1 op) (new_sentences_of p2 op)
          sop.
Proof.
  unfold paragraph_emit. destruct (op_tag op).
  - destruct (get_opcodes _ _) as [sops|]; [|by rewrite elem_of_nil].
    intros (sop & Hsop & Hr)%elem_of_concat_fmap _.
    split; [done|]. by exists sops, sop.
  - intros (p & -> & Hp)%list_elem_of_fmap. done.
  - intros (p & -> & Hp)%list_elem_of_fmap. done.
  - intros (p & -> & Hp)%list_elem_of_fmap. done.
Qed.
End Contents.

(** ** Texts without a common paragraph, and empty texts *)

Section Degenerate.
Import SequenceMatcher.

(** No paragraph in common: the whole texts are matched sentence by
    sentence. *)
Lemma compare_texts_disjoint (text1 text2 : str) :
  let s1 := sanitize_for_display text1 in
  let s2 := sanitize_for_display text2 in
  let olds := Str.re_split_sentences s1 in
  let news := Str.re_split_sentences s2 in
  (∀ p, p ∈ Str.split_nlnl s1 → p ∉ Str.split_nlnl s2) →
  ∃ sops,
    get_opcodes olds news = Ok sops ∧
    covers olds news 0 0 sops (length olds) (length news) ∧
    compare_texts text1 text2
    = Ok (concat (sentence_emit olds news <$> sops)).
Proof.
  intros s1 s2 olds news Hdis.
  destruct (get_opcodes_covers olds news) as (sops & Hsops & Hc).
  exists sops. split; [done|]. split; [done|].
  unfold compare_texts. fold s1 s2.
  rewrite get_opcodes_disjoint;
    [|apply split_nlnl_nonempty|apply split_nlnl_nonempty|done].
  simpl.
  rewrite (append_all_Ok _
             (paragraph_emit (Str.split_nlnl s1) (Str.split_nlnl s2)));
    [|by intros op ->%list_elem_of_singleton;
         apply paragraph_records_emit].
  f_equal. simpl. rewrite app_nil_r.
  unfold paragraph_emit, old_sentences_of, new_sentences_of. simpl.
  rewrite !slice_full, !join_split_nlnl.
  fold olds news. by rewrite Hsops.
Qed.

Lemma slice_singleton {A} (l : list A) (i : nat) (x : A) :
  l !! i = Some x → slice l i (i + 1) = [x].
Proof.
  intros Hx. unfold slice.
  replace (i + 1 - i) with 1 by lia.
  by rewrite (drop_S l x i Hx).
Qed.

Lemma emit_gap_insert (E : Opcode → list DiffRecord) (i j bj : nat) :
  (∀ op, op_tag op = Insert → Forall is_added (E op)) →
  Forall is_added (concat (E <$> gap i j i bj)).
Proof.
  intros HE. unfold gap.
  destruct (decide (i < i ∧ j < bj)); [lia|].
  destruct (decide (i < i)); [lia|].
  destruct (decide (j < bj)); [|constructor].
  simpl. rewrite app_nil_r. by apply HE.
Qed.

Lemma emit_gap_delete (E : Opcode → list DiffRecord) (i j ai : nat) :
  (∀ op, op_tag op = Delete → Forall is_deleted (E op)) →
  Forall is_deleted (concat (E <$> gap i j ai j)).
Proof.
  intros HE. unfold gap.
  destruct (decide (i < ai ∧ j < j)); [lia|].
  destruct (decide (i < ai)).
  - simpl. rewrite app_nil_r. by apply HE.
  - destruct (decide (j < j)); [lia|constructor].
Qed.

Lemma sentence_emit_insert (olds news : list str) (op : Opcode) :
  op_tag op = Insert → Forall is_added (sentence_emit olds news op).
Proof.
  intros Hop. unfold sentence_emit. rewrite Hop. by repeat constructor.
Qed.

Lemma sentence_emit_delete (olds news : list str) (op : Opcode) :
  op_tag op = Delete → Forall is_deleted (sentence_emit olds news op).
Proof.
  intros Hop. unfold sentence_emit. rewrite Hop. by repeat constructor.
Qed.

Lemma paragraph_emit_insert (p1 p2 : list str) (op : Opcode) :
  op_tag op = Insert → Forall is_added (paragraph_emit p1 p2 op).
Proof.
  intros Hop. unfold paragraph_emit. rewrite Hop.
  apply Forall_fmap, Forall_true. done.
Qed.

Lemma paragraph_emit_delete (p1 p2 : list str) (op : Opcode) :
  op_tag op = Delete → Forall is_deleted (paragraph_emit p1 p2 op).
Proof.
  intros Hop. unfold paragraph_emit. rewrite Hop.
  apply Forall_fmap, Forall_true. done.
Qed.

(** The empty sentence against the sentences of a text. *)
Lemma sentences_empty_old (news : list str) :
  news ≠ [] →
  ∃ sops, get_opcodes [[]] news = Ok sops ∧
          added_around_one (concat (sentence_emit [[]] news <$> sops)).
Proof.
  intros Hne.
  destruct (get_opcodes_single_a [] news Hne)
    as [Hops|(j & Hj & Hx & Hops)];
    rewrite Hops; eexists; (split; [done|]).
  - eexists [], _, []. split; [done|]. split; [constructor|].
    split; [constructor|]. right. done.
  - rewrite fmap_app, concat_app, fmap_cons. simpl concat.
    eexists _, _, _. split; [done|].
    split; [apply emit_gap_insert, sentence_emit_insert|].
    split; [apply emit_gap_insert, sentence_emit_insert|]. by left.
Qed.

Lemma sentences_empty_new (olds : list str) :
  olds ≠ [] →
  ∃ sops, get_opcodes olds [[]] = Ok sops ∧
          deleted_around_one (concat (sentence_emit olds [[]] <$> sops)).
Proof.
  intros Hne.
  destruct (get_opcodes_single_b olds [] Hne)
    as [Hops|(i & Hi & Hx & Hops)];
    rewrite Hops; eexists; (split; [done|]).
  - eexists [], _, []. split; [done|]. split; [constructor|].
    split; [constructor|]. right. done.
  - rewrite fmap_app, concat_app, fmap_cons. simpl concat.
    unfold sentence_emit at 2. simpl. rewrite (slice_singleton olds i []) by done.
    eexists _, _, _. split; [done|].
    split; [apply emit_gap_delete, sentence_emit_delete|].
    split; [apply emit_gap_delete, sentence_emit_delete|]. by left.
Qed.

(** An empty first text. *)
Lemma compare_texts_empty_old (text2 : str) :
  ∃ differences,
    compare_texts [] text2 = Ok differences ∧
    added_around_one differences.
Proof.
  destruct (compare_texts_emit [] text2) as (ops & Hops & _ & ->).
  eexists. split; [done|].
  change (Str.split_nlnl (sanitize_for_display [])) with [[] : str] in *.
  set (p2 := Str.split_nlnl (sanitize_for_display text2)) in *.
  assert (p2 ≠ []) as Hne by apply split_nlnl_nonempty.
  destruct (get_opcodes_single_a [] p2 Hne)
    as [Hops'|(j & Hj & Hx & Hops')];
    rewrite Hops in Hops'; injection Hops' as ->.
  - rewrite fmap_cons, fmap_nil. cbn [concat]. rewrite app_nil_r.
    unfold paragraph_emit. cbn [op_tag].
    change (old_sentences_of [[]] (mkOp Replace 0 1 0 (length p2)))
      with [[] : str].
    destruct (sentences_empty_old
                (new_sentences_of p2 (mkOp Replace 0 1 0 (length p2))))
      as (sops & -> & Hshape); [apply re_split_sentences_nonempty|].
    exact Hshape.
  - rewrite fmap_app, concat_app, fmap_cons. cbn [concat].
    assert (paragraph_emit [[]] p2 (mkOp Equal 0 1 j (j + 1))
            = [mkDiff (py "equal") [] []]) as -> by done.
    eexists _, _, _. split; [reflexivity|].
    split; [apply emit_gap_insert, paragraph_emit_insert|].
    split; [apply emit_gap_insert, paragraph_emit_insert|]. by left.
Qed.

(** An empty second text. *)
Lemma compare_texts_empty_new (text1 : str) :
  ∃ differences,
    compare_texts text1 [] = Ok differences ∧
    deleted_around_one differences.
Proof.
  destruct (compare_texts_emit text1 []) as (ops & Hops & _ & ->).
  eexists. split; [done|].
  change (Str.split_nlnl (sanitize_for_display [])) with [[] : str] in *.
  set (p1 := Str.split_nlnl (sanitize_for_display text1)) in *.
  assert (p1 ≠ []) as Hne by apply split_nlnl_nonempty.
  destruct (get_opcodes_single_b p1 [] Hne)
    as [Hops'|(i & Hi & Hx & Hops')];
    rewrite Hops in Hops'; injection Hops' as ->.
  - rewrite fmap_cons, fmap_nil. cbn [concat]. rewrite app_nil_r.
    unfold paragraph_emit. cbn [op_tag].
    change (new_sentences_of [[]] (mkOp Replace 0 (length p1) 0 1))
      with [[] : str].
    destruct (sentences_empty_new
                (old_sentences_of p1 (mkOp Replace 0 (length p1) 0 1)))
      as (sops & -> & Hshape); [apply re_split_sentences_nonempty|].
    exact Hshape.
  - rewrite fmap_app, concat_app, fmap_cons. cbn [concat].
    assert (paragraph_emit p1 [[]] (mkOp Equal i (i + 1) 0 1)
            = [mkDiff (py "equal") [] []]) as ->.
    { unfold paragraph_emit. cbn [op_tag op_i1 op_i2].
      by rewrite (slice_singleton p1 i []). }
    eexists _, _, _. split; [reflexivity|].
    split; [apply emit_gap_delete, paragraph_emit_delete|].
    split; [apply emit_gap_delete, paragraph_emit_delete|]. by left.
Qed.
End Degenerate.

(** ** Whitespace: collapsing, stripping, words *)

Section Whitespace_facts.
Import Whitespace.

Lemma lstrip_app_nonspace (l1 l2 : str) :
  Exists (λ c, Char.is_space c = false) l1 →
  lstrip (l1 ++ l2) = lstrip l1 ++ l2.
Proof.
  induction l1 as [|c l1 IH]; intros Hex; [by apply Exists_nil in Hex|].
  simpl. destruct (Char.is_space c) eqn:Hc; [|done].
  apply IH. apply Exists_cons in Hex as [Hex|Hex]; [congruence|done].
Qed.

Lemma lstrip_app_space (l1 l2 : str) :
  Forall (λ c, Char.is_space c = true) l1 → lstrip (l1 ++ l2) = lstrip l2.
Proof. induction 1 as [|c l1 Hc _ IH]; simpl; [done|]. by rewrite Hc. Qed.

Lemma rstrip_app_nonspace (x y : str) :
  Exists (λ c, Char.is_space c = false) y →
  rstrip (x ++ y) = x ++ rstrip y.
Proof.
  intros Hy. unfold rstrip. rewrite reverse_app.
  rewrite lstrip_app_nonspace.
  - by rewrite reverse_app, reverse_involutive.
  - apply Exists_exists in Hy as (c & Hc & Hs). apply Exists_exists.
    exists c. split; [by apply elem_of_reverse|done].
Qed.

Lemma rstrip_app_space (x y : str) :
  Forall (λ c, Char.is_space c = true) y → rstrip (x ++ y) = rstrip x.
Proof.
  intros Hy. unfold rstrip. rewrite reverse_app, lstrip_app_space; [done|].
  by apply Forall_reverse.
Qed.

Lemma rstrip_snoc_nonspace (w : str) (c : N) :
  Char.is_space c = false → rstrip (w ++ [c]) = w ++ [c].
Proof.
  intros Hc. unfold rstrip. rewrite reverse_snoc. simpl. rewrite Hc.
  by rewrite reverse_cons, reverse_involutive.
Qed.

Lemma split_ws_go_Some_nonempty (u s : str) :
  Str.split_ws_go (Some u) s ≠ [].
Proof.
  revert u. induction s as [|c s IH]; intros u; simpl; [done|].
  destruct (Char.is_space c); [done|apply IH].
Qed.

(** Collapsing the whitespace and stripping the ends leaves the words,
    one space between them. *)
Lemma strip_collapse_words (s : str) :
  (∀ b, strip (re_sub_spaces_go b s)
        = Str.join (py " ") (Str.split_ws_go None s)) ∧
  (∀ w c0, Char.is_space c0 = false →
     rstrip ((w ++ [c0]) ++ re_sub_spaces_go false s)
     = Str.join (py " ") (Str.split_ws_go (Some (w ++ [c0])) s)) ∧
  (∀ w c0, Char.is_space c0 = false →
     rstrip ((w ++ [c0]) ++ Char.SP :: re_sub_spaces_go true s)
     = Str.join (py " ") ((w ++ [c0]) :: Str.split_ws_go None s)).
Proof.
  induction s as [|c s (IH1 & IH2 & IH3)].
  - split; [done|]. split.
    + intros w c0 Hc0. simpl. rewrite app_nil_r.
      by apply rstrip_snoc_nonspace.
    + intros w c0 Hc0. simpl.
      rewrite (rstrip_app_space (w ++ [c0]) [Char.SP]) by by repeat constructor.
      by apply rstrip_snoc_nonspace.
  - destruct (Char.is_space c) eqn:Hc.
    + split; [|split].
      * intros b. cbn [re_sub_spaces_go Str.split_ws_go]. rewrite Hc.
        cbn [option_list app].
        destruct b; [apply IH1|]. unfold strip.
        cbn [lstrip]. change (Char.is_space Char.SP) with true.
        cbv iota. apply IH1.
      * intros w c0 Hc0. cbn [re_sub_spaces_go Str.split_ws_go].
        rewrite Hc. cbn [option_list app]. by apply IH3.
      * intros w c0 Hc0. cbn [re_sub_spaces_go Str.split_ws_go].
        rewrite Hc. cbn [option_list app]. by apply IH3.
    + split; [|split].
      * intros b. cbn [re_sub_spaces_go Str.split_ws_go]. rewrite Hc.
        unfold strip. cbn [lstrip]. rewrite Hc.
        cbn [default app]. apply (IH2 [] c Hc).
      * intros w c0 Hc0. cbn [re_sub_spaces_go Str.split_ws_go].
        rewrite Hc. cbn [default].
        rewrite (cons_middle c), app_assoc. by apply IH2.
      * intros w c0 Hc0. cbn [re_sub_spaces_go Str.split_ws_go].
        rewrite Hc. cbn [default app].
        replace ((w ++ [c0]) ++ Char.SP :: c :: re_sub_spaces_go false s)
          with (((w ++ [c0]) ++ [Char.SP])
                ++ (([] ++ [c]) ++ re_sub_spaces_go false s))
          by by rewrite <-!app_assoc.
        rewrite rstrip_app_nonspace by (constructor; done).
        rewrite (IH2 [] c Hc).
        rewrite join_cons by apply split_ws_go_Some_nonempty.
        by rewrite <-!app_assoc.
Qed.

Lemma re_sub_spaces_go_no_newline (b : bool) (s : str) :
  Char.NL ∉ re_sub_spaces_go b s.
Proof.
  revert b. induction s as [|c s IH]; intros b; simpl;
    [apply not_elem_of_nil|].
  destruct (Char.is_space c) eqn:Hc.
  - destruct b; [apply IH|].
    apply not_elem_of_cons. split; [done|apply IH].
  - apply not_elem_of_cons. split; [|apply IH]. by intros <-.
Qed.

Lemma re_sub_newlines_go_id (s : str) :
  Char.NL ∉ s → re_sub_newlines_go false s = s.
Proof.
  induction s as [|c s IH]; intros Hs; [done|].
  apply not_elem_of_cons in Hs as [Hc Hs].
  cbn [re_sub_newlines_go andb]. rewrite decide_False by naive_solver.
  by rewrite IH.
Qed.

Lemma split_nlnl_go_no_newline (cur s : str) :
  Char.NL ∉ s → Str.split_nlnl_go cur s = [cur ++ s].
Proof.
  revert cur. induction s as [|c s IH]; intros cur Hs; simpl.
  - by rewrite app_nil_r.
  - apply not_elem_of_cons in Hs as [Hc Hs].
    rewrite IH by done. rewrite <-app_assoc.
    destruct s as [|c' s]; [done|].
    rewrite decide_False; [done|]. naive_solver.
Qed.

Lemma split_nlnl_no_newline (s : str) :
  Char.NL ∉ s → Str.split_nlnl s = [s].
Proof. apply (split_nlnl_go_no_newline []). Qed.

Lemma clean_text_strip (text : str) :
  clean_text text = strip (re_sub_spaces text).
Proof.
  unfold clean_text.
  pose proof (re_sub_spaces_go_no_newline false text) as Hnl.
  fold (re_sub_spaces text) in Hnl.
  unfold re_sub_newlines. rewrite re_sub_newlines_go_id by done.
  rewrite split_nlnl_no_newline by done. simpl.
  by destruct (decide (strip (re_sub_spaces text) = [])) as [->|].
Qed.

Lemma split_ws_go_words (s : str) (cur : option str) :
  (∀ u, cur = Some u → is_word u) →
  Forall is_word (Str.split_ws_go cur s).
Proof.
  revert cur. induction s as [|c s IH]; intros cur Hcur; simpl.
  - destruct cur as [u|]; [|constructor].
    constructor; [by apply Hcur|constructor].
  - destruct (Char.is_space c) eqn:Hc.
    + apply Forall_app. split.
      * destruct cur as [u|]; [|constructor].
        constructor; [by apply Hcur|constructor].
      * apply IH. by intros.
    + apply IH. intros u [= <-]. split.
      * by destruct (default [] cur).
      * apply Forall_app. split; [|by repeat constructor].
        destruct cur as [u|]; [by apply Hcur|constructor].
Qed.

Lemma split_ws_words (s : str) : Forall is_word (Str.split_ws s).
Proof. apply split_ws_go_words. by intros. Qed.

Lemma split_ws_go_word (w s : str) (cur : option str) :
  is_word w →
  Str.split_ws_go cur (w ++ s)
  = Str.split_ws_go (Some (default [] cur ++ w)) s.
Proof.
  intros [Hne Hw]. revert cur.
  induction Hw as [|c w Hc Hw IH]; intros cur; [done|].
  simpl. rewrite Hc. destruct w as [|c' w]; [done|].
  rewrite IH by done. simpl. by rewrite <-app_assoc.
Qed.

(** The words of words joined by single spaces are these words. *)
Lemma split_ws_join (ws : list str) :
  Forall is_word ws → Str.split_ws (Str.join (py " ") ws) = ws.
Proof.
  induction 1 as [|w ws Hw Hws IH]; [done|].
  unfold Str.split_ws in *. destruct ws as [|w' ws].
  - simpl. rewrite <-(app_nil_r w) at 1.
    by rewrite split_ws_go_word.
  - rewrite join_cons by done.
    rewrite split_ws_go_word by done.
    change (py " ") with [Char.SP] in IH |- *.
    cbn [app default Str.split_ws_go].
    change (Char.is_space Char.SP) with true. cbn [option_list app].
    by rewrite IH.
Qed.

Lemma join_words_nil (ws : list str) :
  Forall is_word ws → Str.join (py " ") ws = [] → ws = [].
Proof.
  intros Hws Hj. destruct Hws as [|w ws [Hne _] _]; [done|].
  destruct ws; simpl in Hj; [done|].
  by apply app_eq_nil in Hj as [-> _].
Qed.

Lemma split_ws_go_nil (s : str) :
  Str.split_ws_go None s = [] ↔ Forall (λ c, Char.is_space c = true) s.
Proof.
  induction s as [|c s IH]; simpl; [by split; [constructor|]|].
  destruct (Char.is_space c) eqn:Hc.
  - simpl. rewrite IH. split; [by constructor|].
    by intros [_ ?]%Forall_cons.
  - split.
    + intros Hnil. by apply split_ws_go_Some_nonempty in Hnil.
    + intros [? _]%Forall_cons. congruence.
Qed.
End Whitespace_facts.

(** ** More on the records of [compare_texts] *)

Section Records_shape.
Import SequenceMatcher.

(** Texts that are the same once sanitized. *)
Lemma compare_texts_same_sanitized (text1 text2 : str) :
  sanitize_for_display text1 = sanitize_for_display text2 →
  compare_texts text1 text2
  = Ok ((λ p, mkDiff (py "equal") p p)
          <$> Str.split_nlnl (sanitize_for_display text1)).
Proof.
  intros Hs. unfold compare_texts. rewrite <-Hs.
  set (paragraphs := Str.split_nlnl (sanitize_for_display text1)).
  rewrite get_opcodes_self by apply split_nlnl_nonempty.
  simpl. rewrite (append_all_Ok _ (paragraph_emit paragraphs paragraphs)).
  - f_equal. simpl. rewrite app_nil_r. unfold paragraph_emit. simpl.
    by rewrite slice_full.
  - intros op ->%list_elem_of_singleton.
    by apply paragraph_records_emit.
Qed.

Lemma sentence_emit_well_formed (olds news : list str) (op : Opcode) :
  Forall well_formed (sentence_emit olds news op).
Proof.
  unfold sentence_emit. destruct (op_tag op).
  - apply Forall_singleton. unfold well_formed. simpl. auto.
  - apply Forall_singleton. unfold well_formed. simpl. auto.
  - apply Forall_singleton. unfold well_formed. simpl. auto.
  - apply Forall_fmap, Forall_true. intros s. unfold well_formed.
    simpl. auto.
Qed.

Lemma paragraph_emit_well_formed (p1 p2 : list str) (op : Opcode) :
  Forall well_formed (paragraph_emit p1 p2 op).
Proof.
  unfold paragraph_emit. destruct (op_tag op).
  - destruct (get_opcodes _ _) as [sops|]; [|constructor].
    apply Forall_concat, Forall_fmap, Forall_true. intros sop.
    apply sentence_emit_well_formed.
  - apply Forall_fmap, Forall_true. intros p. unfold well_formed. simpl. auto.
  - apply Forall_fmap, Forall_true. intros p. unfold well_formed. simpl. auto.
  - apply Forall_fmap, Forall_true. intros p. unfold well_formed. simpl. auto.
Qed.

Lemma fmap_slice_nonempty {A B} (f : A → B) (l : list A) (i j : nat) :
  i < j → j ≤ length l → f <$> slice l i j ≠ [].
Proof.
  intros Hij Hj Hnil. apply fmap_nil_inv in Hnil.
  by apply slice_nonempty in Hnil.
Qed.

Lemma sentence_emit_nonempty (olds news : list str) (op : Opcode) :
  op_ok olds news op → op_i2 op ≤ length olds →
  sentence_emit olds news op ≠ [].
Proof.
  unfold op_ok, sentence_emit. intros Hop Hi.
  destruct (op_tag op); try done.
  apply fmap_slice_nonempty; [lia|done].
Qed.

Lemma concat_cons_nonempty {A} (x : list A) (l : list (list A)) :
  x ≠ [] → concat (x :: l) ≠ [].
Proof. intros Hx. simpl. by destruct x. Qed.

Lemma paragraph_emit_nonempty (p1 p2 : list str) (op : Opcode) :
  op_ok p1 p2 op → op_i2 op ≤ length p1 → op_j2 op ≤ length p2 →
  paragraph_emit p1 p2 op ≠ [].
Proof.
  unfold op_ok, paragraph_emit. intros Hop Hi Hj.
  destruct (op_tag op); try (apply fmap_slice_nonempty; [lia|done]).
  destruct (get_opcodes_covers (old_sentences_of p1 op)
              (new_sentences_of p2 op)) as (sops & -> & Hc).
  assert (0 < length (old_sentences_of p1 op)) as Hlen.
  { pose proof (re_split_sentences_nonempty
                  (Str.join [Char.NL; Char.NL]
                     (slice p1 (op_i1 op) (op_i2 op)))) as Hne.
    unfold old_sentences_of. destruct (Str.re_split_sentences _); [done|].
    simpl. lia. }
  inversion Hc as [|sop sops' ? ? Hsop Hc']; subst; [lia|].
  rewrite fmap_cons. apply concat_cons_nonempty.
  apply sentence_emit_nonempty; [done|].
  apply covers_spans in Hc'. lia.
Qed.

Lemma compare_texts_shape (text1 text2 : str) :
  ∃ differences,
    compare_texts text1 text2 = Ok differences ∧
    differences ≠ [] ∧ Forall well_formed differences.
Proof.
  destruct (compare_texts_emit text1 text2) as (ops & _ & Hc & ->).
  eexists. split; [done|]. split.
  - set (p1 := Str.split_nlnl (sanitize_for_display text1)) in *.
    set (p2 := Str.split_nlnl (sanitize_for_display text2)) in *.
    assert (0 < length p1) as Hlen.
    { pose proof (split_nlnl_nonempty (sanitize_for_display text1)) as Hne.
      fold p1 in Hne. destruct p1; [done|simpl; lia]. }
    inversion Hc as [|op ops' ? ? Hop Hc']; subst; [lia|].
    rewrite fmap_cons. apply concat_cons_nonempty.
    apply covers_spans in Hc'.
    apply paragraph_emit_nonempty; [done|lia|lia].
  - apply Forall_concat, Forall_fmap, Forall_true. intros op.
    apply paragraph_emit_well_formed.
Qed.

Lemma well_formed_recognized (d : DiffRecord) :
  well_formed d → recognized d.
Proof. unfold well_formed, recognized. naive_solver. Qed.
End Records_shape.

(** ** The characters that are not whitespace *)

Section Conservation.
Import SequenceMatcher.

Lemma nonspace_app (s1 s2 : str) :
  nonspace (s1 ++ s2) = nonspace s1 ++ nonspace s2.
Proof. apply filter_app. Qed.

Lemma nonspace_space (s : str) :
  Forall (λ c, Char.is_space c = true) s → nonspace s = [].
Proof.
  induction 1 as [|c s Hc _ IH]; [done|].
  unfold nonspace in *. rewrite filter_cons.
  rewrite decide_False by congruence. done.
Qed.

Lemma nonspace_join (sep : str) (l : list str) :
  Forall (λ c, Char.is_space c = true) sep →
  nonspace (Str.join sep l) = nonspace (concat l).
Proof.
  intros Hsep. induction l as [|x l IH]; [done|].
  destruct l as [|y l].
  - simpl. by rewrite app_nil_r.
  - rewrite join_cons by done.
    change (concat (x :: y :: l)) with (x ++ concat (y :: l)).
    rewrite !nonspace_app, IH, (nonspace_space sep) by done. done.
Qed.

Lemma space_sep : Forall (λ c, Char.is_space c = true) (py " ").
Proof. by repeat constructor. Qed.

Lemma newline_sep :
  Forall (λ c, Char.is_space c = true) [Char.NL; Char.NL].
Proof. by repeat constructor. Qed.

Lemma nonspace_cons_space (c : N) (s : str) :
  Char.is_space c = true → nonspace (c :: s) = nonspace s.
Proof.
  intros Hc. unfold nonspace. rewrite filter_cons.
  by rewrite decide_False by congruence.
Qed.

Lemma re_split_go_nonspace (in_sep prev_end : bool) (cur s : str) :
  nonspace (concat (Str.re_split_go in_sep prev_end cur s))
  = nonspace (cur ++ s).
Proof.
  revert in_sep prev_end cur. induction s as [|c s IH];
    intros in_sep prev_end cur; cbn [Str.re_split_go].
  - simpl. by rewrite !app_nil_r.
  - destruct in_sep.
    + destruct (Char.is_space c) eqn:Hc.
      * rewrite IH, !nonspace_app. by rewrite (nonspace_cons_space c).
      * rewrite IH. by rewrite <-app_assoc.
    + destruct (prev_end && Char.is_space c) eqn:Hpc.
      * apply andb_true_iff in Hpc as [_ Hc]. cbn [concat].
        rewrite !nonspace_app, IH. simpl.
        by rewrite (nonspace_cons_space c).
      * rewrite IH. by rewrite <-app_assoc.
Qed.

(** Sentence splitting only removes whitespace. *)
Lemma re_split_sentences_nonspace (s : str) :
  nonspace (concat (Str.re_split_sentences s)) = nonspace s.
Proof. apply (re_split_go_nonspace false false [] s). Qed.

Lemma traverses_nonspace rs us vs :
  traverses rs us vs →
  nonspace (concat (old_content <$> rs)) = nonspace (concat us) ∧
  nonspace (concat (new_content <$> rs)) = nonspace (concat vs).
Proof.
  induction 1 as [|u rs us vs _ [IHo IHn]|g h rs us vs _ _ _ [IHo IHn]
                  |g rs us vs _ _ [IHo IHn]|h rs us vs _ _ [IHo IHn]];
    rewrite ?fmap_cons; cbn [concat old_content new_content];
    rewrite ?concat_app, ?nonspace_app, ?IHo, ?IHn,
      ?(nonspace_join (py " ")) by apply space_sep; done.
Qed.

Lemma old_units_nonspace (p1 : list str) (op : Opcode) :
  nonspace (concat (old_units p1 op))
  = nonspace (concat (slice p1 (op_i1 op) (op_i2 op))).
Proof.
  unfold old_units, old_sentences_of. destruct (op_tag op); try done.
  rewrite re_split_sentences_nonspace.
  apply nonspace_join, newline_sep.
Qed.

Lemma new_units_nonspace (p2 : list str) (op : Opcode) :
  nonspace (concat (new_units p2 op))
  = nonspace (concat (slice p2 (op_j1 op) (op_j2 op))).
Proof.
  unfold new_units, new_sentences_of. destruct (op_tag op); try done.
  rewrite re_split_sentences_nonspace.
  apply nonspace_join, newline_sep.
Qed.

Lemma nonspace_concat_ext {X} (f g : X → list str) (l : list X) :
  (∀ x, nonspace (concat (f x)) = nonspace (concat (g x))) →
  nonspace (concat (concat (f <$> l)))
  = nonspace (concat (concat (g <$> l))).
Proof.
  intros Hfg. induction l as [|x l IH]; [done|].
  rewrite !fmap_cons. cbn [concat].
  by rewrite !concat_app, !nonspace_app, Hfg, IH.
Qed.

Lemma compare_texts_nonspace (text1 text2 : str) :
  ∃ differences,
    compare_texts text1 text2 = Ok differences ∧
    nonspace (concat (old_content <$> differences))
    = nonspace (sanitize_for_display text1) ∧
    nonspace (concat (new_content <$> differences))
    = nonspace (sanitize_for_display text2).
Proof.
  destruct (compare_texts_emit text1 text2) as (ops & _ & Hc & ->).
  eexists. split; [done|].
  set (p1 := Str.split_nlnl (sanitize_for_display text1)) in *.
  set (p2 := Str.split_nlnl (sanitize_for_display text2)) in *.
  destruct (traverses_nonspace _ _ _
              (paragraphs_traverses p1 p2 0 0 ops _ _ Hc
                 (reflexivity _) (reflexivity _))) as [-> ->].
  destruct (covers_slices _ _ _ _ _ _ _ Hc) as (Hsa & Hsb).
  rewrite !slice_full in Hsa, Hsb.
  rewrite (nonspace_concat_ext (old_units p1)
             (λ op, slice p1 (op_i1 op) (op_i2 op)))
    by apply old_units_nonspace.
  rewrite (nonspace_concat_ext (new_units p2)
             (λ op, slice p2 (op_j1 op) (op_j2 op)))
    by apply new_units_nonspace.
  rewrite Hsa, Hsb.
  rewrite <-!(nonspace_join [Char.NL; Char.NL]) by apply newline_sep.
  subst p1 p2. by rewrite !join_split_nlnl.
Qed.
End Conservation.

(** ** Counting the records *)

Section Counting.
Lemma count_type_cons (ty : str) (d : DiffRecord) (diffs : list DiffRecord) :
  count_type ty (d :: diffs)
  = (if decide (type d = ty) then 1 else 0) + count_type ty diffs.
Proof.
  unfold count_type. rewrite bind_cons.
  by destruct (decide (type d = ty)).
Qed.

Lemma count_type_snoc (ty : str) (diffs : list DiffRecord) (d : DiffRecord) :
  count_type ty (diffs ++ [d])
  = count_type ty diffs + (if decide (type d = ty) then 1 else 0).
Proof.
  induction diffs as [|d' diffs IH].
  - rewrite app_nil_l, count_type_cons. unfold count_type. simpl. lia.
  - rewrite <-app_comm_cons, !count_type_cons, IH. lia.
Qed.

Lemma tally_counts (diffs : list DiffRecord) (t : Tally) :
  let t' := foldl tally_step t diffs in
  added t' = added t + count_type (py "added") diffs ∧
  deleted t' = deleted t + count_type (py "deleted") diffs ∧
  modified t' = modified t + count_type (py "modified") diffs.
Proof.
  revert t. induction diffs as [|d diffs IH]; intros t.
  - unfold count_type. simpl. lia.
  - cbn [foldl]. cbv zeta. destruct (IH (tally_step t d)) as (-> & -> & ->).
    rewrite !count_type_cons. unfold tally_step.
    destruct (decide (type d = py "added")) as [->|?]; [simpl; lia|].
    destruct (decide (type d = py "deleted")) as [->|?]; [simpl; lia|].
    destruct (decide (type d = py "modified")); [simpl; lia|].
    destruct (decide (type d = py "equal")); simpl; lia.
Qed.

Lemma filter_recognized_all (diffs : list DiffRecord) :
  Forall recognized diffs → filter recognized diffs = diffs.
Proof.
  induction 1 as [|d diffs Hd _ IH]; [done|].
  rewrite filter_cons, decide_True by done. by rewrite IH.
Qed.
End Counting.

(** ** The highlighted view *)

Section Highlighting.
Lemma sanitize_content_safe (content : str) :
  Forall safe_char content → sanitize_content content = content.
Proof.
  unfold sanitize_content, Str.replace.
  induction 1 as [|c s (Hlt & Hgt & _) _ IH]; [done|].
  simpl. rewrite decide_False by done. simpl.
  rewrite decide_False by done. simpl. by f_equal.
Qed.

Lemma highlight_old_step_blank (version : str) (h : Highlight)
    (d : DiffRecord) :
  highlight_old_step version h (blank_new d)
  = highlight_old_step version h d.
Proof.
  unfold highlight_old_step, blank_new. cbn [type old_content].
  destruct (decide (type d = py "equal")) as [He|?].
  { rewrite decide_False; [done|]. rewrite He. done. }
  destruct (decide (type d = py "added")); [done|]. done.
Qed.

Lemma highlight_new_step_blank (version : str) (h : Highlight)
    (d : DiffRecord) :
  highlight_new_step version h (blank_old d)
  = highlight_new_step version h d.
Proof.
  unfold highlight_new_step, blank_old. cbn [type new_content].
  destruct (decide (type d = py "equal")) as [He|?].
  { rewrite decide_False; [done|]. rewrite He. done. }
  destruct (decide (type d = py "added")) as [Ha|?].
  { rewrite decide_False; [done|]. rewrite Ha. done. }
  destruct (decide (type d = py "deleted")); [done|]. done.
Qed.

Lemma foldl_fmap_ext {S X} (f : S → X → S) (g : X → X) (l : list X) (s : S) :
  (∀ s x, f s (g x) = f s x) → foldl f s (g <$> l) = foldl f s l.
Proof.
  intros Hfg. revert s. induction l as [|x l IH]; intros s; [done|].
  rewrite fmap_cons. cbn [foldl]. by rewrite Hfg, IH.
Qed.

Lemma foldl_filter_ext {S X} (f : S → X → S) (P : X → Prop)
    `{∀ x, Decision (P x)} (l : list X) (s : S) :
  (∀ s x, ¬ P x → f s x = s) → foldl f s (filter P l) = foldl f s l.
Proof.
  intros Hf. revert s. induction l as [|x l IH]; intros s; [done|].
  rewrite filter_cons. destruct (decide (P x)); cbn [foldl].
  - apply IH.
  - by rewrite Hf, IH.
Qed.

Lemma highlight_old_step_unrecognized (version : str) (h : Highlight)
    (d : DiffRecord) :
  ¬ recognized d → highlight_old_step version h d = h.
Proof.
  unfold recognized, highlight_old_step. intros Hd.
  repeat (destruct (decide _); [naive_solver|]). done.
Qed.

Lemma highlight_new_step_unrecognized (version : str) (h : Highlight)
    (d : DiffRecord) :
  ¬ recognized d → highlight_new_step version h d = h.
Proof.
  unfold recognized, highlight_new_step. intros Hd.
  repeat (destruct (decide _); [naive_solver|]). done.
Qed.

(** The counters of the old view after the loop. *)
Lemma highlight_old_counts (version : str) (diffs : list DiffRecord)
    (h : Highlight) :
  let h' := foldl (highlight_old_step version) h diffs in
  deletion_count h' = deletion_count h + count_type (py "deleted") diffs ∧
  modification_count h'
  = modification_count h + count_type (py "modified") diffs.
Proof.
  revert h. induction diffs as [|d diffs IH]; intros h.
  - unfold count_type. simpl. lia.
  - cbn [foldl]. cbv zeta.
    destruct (IH (highlight_old_step version h d)) as (-> & ->).
    rewrite !count_type_cons. unfold highlight_old_step.
    destruct (decide (type d = py "equal")) as [->|?]; [simpl; lia|].
    destruct (decide (type d = py "added")) as [->|?]; [simpl; lia|].
    destruct (decide (type d = py "deleted")) as [->|?]; [simpl; lia|].
    destruct (decide (type d = py "modified")); simpl; lia.
Qed.

Lemma highlight_new_counts (version : str) (diffs : list DiffRecord)
    (h : Highlight) :
  let h' := foldl (highlight_new_step version) h diffs in
  addition_count h' = addition_count h + count_type (py "added") diffs ∧
  modification_count h'
  = modification_count h + count_type (py "modified") diffs.
Proof.
  revert h. induction diffs as [|d diffs IH]; intros h.
  - unfold count_type. simpl. lia.
  - cbn [foldl]. cbv zeta.
    destruct (IH (highlight_new_step version h d)) as (-> & ->).
    rewrite !count_type_cons. unfold highlight_new_step.
    destruct (decide (type d = py "equal")) as [->|?]; [simpl; lia|].
    destruct (decide (type d = py "added")) as [->|?]; [simpl; lia|].
    destruct (decide (type d = py "deleted")) as [->|?]; [simpl; lia|].
    destruct (decide (type d = py "modified")); simpl; lia.
Qed.
End Highlighting.

(** ** Changes are separated by [equal] records *)

Section Separation.
Import SequenceMatcher.
Context {A : Type} `{Countable A}.

Lemma alternating_cons_equal (op : Opcode) (ops : list Opcode) :
  op_tag op = Equal → alternating ops → alternating (op :: ops).
Proof. intros Hop Hops. destruct ops; [done|]. split; [by left|done]. Qed.

Lemma alternating_gap_equal (i j ai bj : nat) (op : Opcode)
    (ops : list Opcode) :
  op_tag op = Equal → alternating ops →
  alternating (gap i j ai bj ++ op :: ops).
Proof.
  intros Hop Hops. pose proof (alternating_cons_equal op ops Hop Hops).
  unfold gap. repeat destruct (decide _); try done;
    (split; [by right|done]).
Qed.

Lemma ops_between_alternating (l : list Match) (i j i1 j1 : nat) :
  alternating (ops_between i j l i1 j1).
Proof.
  revert i j. induction l as [|x l IH]; intros i j; cbn [ops_between].
  - unfold gap. by repeat destruct (decide _).
  - by apply alternating_gap_equal.
Qed.

Lemma get_opcodes_alternating (a b : list A) :
  ∃ ops, get_opcodes a b = Ok ops ∧
         covers a b 0 0 ops (length a) (length b) ∧ alternating ops.
Proof.
  destruct (get_opcodes_covers a b) as (ops & Hops & Hc).
  destruct (get_opcodes_chain a b) as (l & _ & Hl).
  exists ops. split; [done|]. split; [done|].
  rewrite Hops in Hl. injection Hl as ->. apply ops_between_alternating.
Qed.
End Separation.

Section Separated_records.
Import SequenceMatcher.

Lemma separated_cons (r : DiffRecord) (l : list DiffRecord) :
  separated l → (∀ r', head l = Some r' → neighbours r r') →
  separated (r :: l).
Proof. intros Hl Hr. destruct l as [|r' l]; [done|]. split; [|done]. by apply Hr. Qed.

Lemma separated_tail (r : DiffRecord) (l : list DiffRecord) :
  separated (r :: l) → separated l.
Proof. destruct l; [done|]. by intros [_ ?]. Qed.

Lemma separated_same (P : DiffRecord → Prop) (l : list DiffRecord) :
  (∀ r r', P r → P r' → neighbours r r') → Forall P l → separated l.
Proof.
  intros HP. induction 1 as [|r l Hr Hl IH]; [done|].
  apply separated_cons; [done|]. intros r' Hr'.
  destruct Hl as [|r'' l Hr'' _]; [done|]. injection Hr' as <-. by apply HP.
Qed.

Lemma separated_app (l1 l2 : list DiffRecord) :
  separated l1 → separated l2 →
  Forall (λ r, type r = py "equal") l1 ∨ starts_equal l2 →
  separated (l1 ++ l2).
Proof.
  intros H1 H2 Hb. induction l1 as [|r l1 IH]; [done|].
  rewrite <-app_comm_cons. apply separated_cons.
  - apply IH; [by eapply separated_tail|].
    destruct Hb as [Hb|Hb]; [|by right].
    left. by apply Forall_cons in Hb as [_ ?].
  - intros r' Hr'. destruct l1 as [|r1 l1].
    + destruct l2 as [|r2 l2]; [done|]. injection Hr' as <-.
      destruct Hb as [Hb|Hb].
      * left. by apply Forall_cons in Hb as [? _].
      * right. left. done.
    + injection Hr' as <-. by destruct H1 as [? _].
Qed.

Lemma starts_equal_app (l1 l2 : list DiffRecord) :
  l1 ≠ [] → Forall (λ r, type r = py "equal") l1 → starts_equal (l1 ++ l2).
Proof. intros Hne Hl. destruct Hl as [|r l1 Hr _]; [done|]. done. Qed.

(** What alternating opcodes emit is separated. *)
Lemma emit_separated (f : Opcode → list DiffRecord) (ops : list Opcode) :
  alternating ops →
  (∀ op, op ∈ ops → separated (f op)) →
  (∀ op, op ∈ ops → op_tag op = Equal →
         f op ≠ [] ∧ Forall (λ r, type r = py "equal") (f op)) →
  separated (concat (f <$> ops)).
Proof.
  induction ops as [|op ops IH]; intros Halt Hsep Heq; [done|].
  rewrite fmap_cons. cbn [concat]. apply separated_app.
  - apply Hsep. apply elem_of_cons. by left.
  - apply IH.
    + destruct ops; [done|]. by destruct Halt as [_ ?].
    + intros op' Hop'. apply Hsep. apply elem_of_cons. by right.
    + intros op' Hop'. apply Heq. apply elem_of_cons. by right.
  - destruct ops as [|op' ops]; [by right|].
    destruct Halt as [[Hop|Hop'] _].
    + left. apply Heq; [apply elem_of_cons; by left|done].
    + right. rewrite fmap_cons. cbn [concat].
      destruct (Heq op') as [Hne Hall]; [|done|by apply starts_equal_app].
      apply elem_of_cons. right. apply elem_of_cons. by left.
Qed.

Lemma neighbours_equal (r r' : DiffRecord) :
  type r = py "equal" → type r' = py "equal" → neighbours r r'.
Proof. intros Hr _. by left. Qed.

Lemma neighbours_deleted (r r' : DiffRecord) :
  type r = py "deleted" → type r' = py "deleted" → neighbours r r'.
Proof. intros Hr Hr'. right. right. by left. Qed.

Lemma neighbours_added (r r' : DiffRecord) :
  type r = py "added" → type r' = py "added" → neighbours r r'.
Proof. intros Hr Hr'. right. right. by right. Qed.

Lemma sentence_emit_separated (olds news : list str) (op : Opcode) :
  separated (sentence_emit olds news op).
Proof.
  unfold sentence_emit. destruct (op_tag op); try done.
  apply (separated_same _ _ neighbours_equal).
  apply Forall_fmap, Forall_true. done.
Qed.

Lemma sentence_emit_equal (olds news : list str) (op : Opcode) :
  op_ok olds news op → op_i2 op ≤ length olds → op_tag op = Equal →
  sentence_emit olds news op ≠ [] ∧
  Forall (λ r, type r = py "equal") (sentence_emit olds news op).
Proof.
  intros Hop Hi Htag. split; [by apply sentence_emit_nonempty|].
  unfold sentence_emit. rewrite Htag. apply Forall_fmap, Forall_true. done.
Qed.

Lemma paragraph_emit_equal (p1 p2 : list str) (op : Opcode) :
  op_ok p1 p2 op → op_i2 op ≤ length p1 → op_j2 op ≤ length p2 →
  op_tag op = Equal →
  paragraph_emit p1 p2 op ≠ [] ∧
  Forall (λ r, type r = py "equal") (paragraph_emit p1 p2 op).
Proof.
  intros Hop Hi Hj Htag. split; [by apply paragraph_emit_nonempty|].
  unfold paragraph_emit. rewrite Htag. apply Forall_fmap, Forall_true. done.
Qed.

Lemma paragraph_emit_separated (p1 p2 : list str) (op : Opcode) :
  separated (paragraph_emit p1 p2 op).
Proof.
  unfold paragraph_emit. destruct (op_tag op).
  - destruct (get_opcodes_alternating (old_sentences_of p1 op)
                (new_sentences_of p2 op)) as (sops & -> & Hc & Halt).
    apply emit_separated; [done|..].
    + intros sop _. apply sentence_emit_separated.
    + intros sop Hsop Htag.
      destruct (covers_in_range _ _ _ _ _ _ _ sop Hc Hsop)
        as (Hok & _ & Hi & _).
      by apply sentence_emit_equal.
  - apply (separated_same _ _ neighbours_deleted).
    apply Forall_fmap, Forall_true. done.
  - apply (separated_same _ _ neighbours_added).
    apply Forall_fmap, Forall_true. done.
  - apply (separated_same _ _ neighbours_equal).
    apply Forall_fmap, Forall_true. done.
Qed.

Lemma compare_texts_separation (text1 text2 : str) :
  ∃ differences,
    compare_texts text1 text2 = Ok differences ∧ separated differences.
Proof.
  unfold compare_texts.
  set (p1 := Str.split_nlnl (sanitize_for_display text1)).
  set (p2 := Str.split_nlnl (sanitize_for_display text2)).
  destruct (get_opcodes_alternating p1 p2) as (ops & Hops & Hc & Halt).
  destruct (compare_texts_emit text1 text2) as (ops' & Hops' & _ & Hcmp).
  fold p1 p2 in Hops', Hcmp. rewrite Hops in Hops'. injection Hops' as <-.
  unfold compare_texts in Hcmp. fold p1 p2 in Hcmp. rewrite Hcmp.
  eexists. split; [done|]. apply emit_separated; [done|..].
  - intros op _. apply paragraph_emit_separated.
  - intros op Hop Htag.
    destruct (covers_in_range _ _ _ _ _ _ _ op Hc Hop)
      as (Hok & _ & Hi & _ & Hj).
    by apply paragraph_emit_equal.
Qed.

(** Next to a [modified] record there are only [equal] records. *)
Lemma separated_modified (l1 l2 : list DiffRecord) (r r' : DiffRecord) :
  separated (l1 ++ r :: r' :: l2) →
  (type r = py "modified" → type r' = py "equal") ∧
  (type r' = py "modified" → type r = py "equal") ∧
  (type r = py "deleted" → type r' ≠ py "added") ∧
  (type r = py "added" → type r' ≠ py "deleted").
Proof.
  induction l1 as [|r0 l1 IH].
  - intros [Hn _]. unfold neighbours in Hn.
    repeat split; intros Hr; try intros Hr'; rewrite ?Hr, ?Hr' in Hn;
      naive_solver.
  - intros Hs. apply IH. by eapply separated_tail.
Qed.
End Separated_records.

(** ** Sentences end in a terminator *)

Section Sentences.
Lemma re_split_go_ends (in_sep prev_end : bool) (cur s : str) :
  (in_sep = false → prev_end = true → ends_sentence cur) →
  ∃ init last,
    Str.re_split_go in_sep prev_end cur s = init ++ [last] ∧
    Forall ends_sentence init.
Proof.
  revert in_sep prev_end cur. induction s as [|c s IH];
    intros in_sep prev_end cur Hcur; cbn [Str.re_split_go].
  - exists [], cur. done.
  - assert (Char.is_sentence_end c = true → ends_sentence (cur ++ [c]))
      as Hnext by (intros Hc; by exists cur, c).
    destruct in_sep.
    + destruct (Char.is_space c); [by apply IH|].
      apply IH. intros _. apply Hnext.
    + destruct (prev_end && Char.is_space c) eqn:Hpc;
        [|apply IH; intros _; apply Hnext].
      apply andb_true_iff in Hpc as [-> _].
      destruct (IH true false []) as (init & last & -> & Hinit); [done|].
      exists (cur :: init), last. split; [done|].
      constructor; [by apply Hcur|done].
Qed.

Lemma re_split_sentences_ends (s : str) :
  ∃ init last,
    Str.re_split_sentences s = init ++ [last] ∧ Forall ends_sentence init.
Proof. by apply re_split_go_ends. Qed.
End Sentences.

(** ** [clean_text] *)

Section Clean_text.
Import Whitespace.

Lemma clean_text_words (text : str) :
  clean_text text = Str.join (py " ") (Str.split_ws text).
Proof.
  rewrite clean_text_strip. unfold re_sub_spaces.
  destruct (strip_collapse_words text) as (Hs & _). apply Hs.
Qed.

Lemma elem_of_join (sep : str) (l : list str) (c : N) :
  c ∈ Str.join sep l → c ∈ sep ∨ ∃ w, w ∈ l ∧ c ∈ w.
Proof.
  induction l as [|x l IH]; [by rewrite elem_of_nil|].
  destruct l as [|y l].
  - simpl. intros Hc. right. exists x. split; [apply elem_of_cons; by left|done].
  - rewrite join_cons by done. rewrite !elem_of_app.
    intros [Hc|[Hc|Hc]].
    + right. exists x. split; [apply elem_of_cons; by left|done].
    + by left.
    + destruct (IH Hc) as [?|(w & Hw & Hcw)]; [by left|].
      right. exists w. split; [apply elem_of_cons; by right|done].
Qed.

Lemma clean_text_no_newline (text : str) : Char.NL ∉ clean_text text.
Proof.
  rewrite clean_text_words. intros [Hc|(w & Hw & Hc)]%elem_of_join.
  - apply list_elem_of_singleton in Hc. discriminate Hc.
  - pose proof (split_ws_words text) as Hws.
    rewrite Forall_forall in Hws. destruct (Hws w Hw) as [_ Hns].
    rewrite Forall_forall in Hns. by apply Hns in Hc.
Qed.

Lemma clean_text_split_ws (text : str) :
  Str.split_ws (clean_text text) = Str.split_ws text.
Proof. rewrite clean_text_words. apply split_ws_join, split_ws_words. Qed.

Lemma clean_text_idempotent (text : str) :
  clean_text (clean_text text) = clean_text text.
Proof. by rewrite (clean_text_words (clean_text text)), clean_text_split_ws,
         <-clean_text_words. Qed.

Lemma clean_text_nil (text : str) :
  clean_text text = [] ↔ Forall (λ c, Char.is_space c = true) text.
Proof.
  rewrite clean_text_words, <-split_ws_go_nil. split.
  - apply join_words_nil, split_ws_words.
  - unfold Str.split_ws. by intros ->.
Qed.

Lemma word_ends (w : str) :
  is_word w →
  (∃ c s, w = c :: s ∧ Char.is_space c = false) ∧
  (∃ s c, w = s ++ [c] ∧ Char.is_space c = false).
Proof.
  intros [Hne Hw]. split.
  - destruct Hw as [|c s Hc _]; [done|]. by exists c, s.
  - destruct w as [|c s _] using rev_ind; [done|].
    apply Forall_app in Hw as [_ Hc]. rewrite Forall_singleton in Hc.
    exists s, c. split; [done|exact Hc].
Qed.

Lemma join_words_ends (ws : list str) :
  Forall is_word ws → ws ≠ [] →
  (∃ c s, Str.join (py " ") ws = c :: s ∧ Char.is_space c = false) ∧
  (∃ s c, Str.join (py " ") ws = s ++ [c] ∧ Char.is_space c = false).
Proof.
  induction 1 as [|w ws Hw Hws IH]; intros Hne; [done|clear Hne].
  destruct (word_ends w Hw) as ((c & s & -> & Hc) & Hlast).
  destruct ws as [|y ws]; [split; [by exists c, s|done]|].
  rewrite join_cons by done. split; [by exists c, (s ++ py " " ++ Str.join (py " ") (y :: ws))|].
  destruct IH as (_ & s' & c' & -> & Hc'); [done|].
  exists ((c :: s) ++ py " " ++ s'), c'. by rewrite <-!app_assoc.
Qed.

Lemma strip_join_words (ws : list str) :
  Forall is_word ws → strip (Str.join (py " ") ws) = Str.join (py " ") ws.
Proof.
  intros Hws. destruct (decide (ws = [])) as [->|Hne]; [done|].
  destruct (join_words_ends ws Hws Hne)
    as ((c & s & Hj & Hc) & s' & c' & Hj' & Hc').
  unfold strip. rewrite Hj at 1. cbn [lstrip]. rewrite Hc, <-Hj, Hj'.
  by apply rstrip_snoc_nonspace.
Qed.

Lemma clean_text_stripped (text : str) :
  strip (clean_text text) = clean_text text.
Proof. rewrite clean_text_words. apply strip_join_words, split_ws_words. Qed.

Lemma sanitize_no_newline (s : str) :
  Char.NL ∉ s → Char.NL ∉ sanitize_for_display s.
Proof.
  induction s as [|c s IH]; intros Hs; [done|].
  apply not_elem_of_cons in Hs as [Hc Hs].
  rewrite sanitize_for_display_cons, not_elem_of_app.
  split; [by apply entity_no_newline|by apply IH].
Qed.

Lemma clean_text_one_paragraph (text : str) :
  Str.split_nlnl (sanitize_for_display (clean_text text))
  = [sanitize_for_display (clean_text text)].
Proof.
  apply split_nlnl_no_newline, sanitize_no_newline, clean_text_no_newline.
Qed.
End Clean_text.

(** ** The records are free of markup *)

Section Safe_records.
Lemma compare_texts_safe (text1 text2 : str) :
  ∃ differences,
    compare_texts text1 text2 = Ok differences ∧
    Forall (λ r, Forall safe_char (old_content r) ∧
                 Forall safe_char (new_content r)) differences.
Proof.
  destruct (compare_texts_emit text1 text2) as (ops & _ & _ & ->).
  eexists. split; [done|]. apply Forall_forall.
  intros r (op & _ & Hr)%elem_of_concat_fmap.
  apply paragraph_emit_safe in Hr; [done|..];
    apply split_nlnl_Forall, sanitize_for_display_safe.
Qed.

Lemma replace_out (old c : N) (new s : str) :
  c ∉ new → c = old ∨ c ∉ s → c ∉ Str.replace old new s.
Proof.
  intros Hnew. induction s as [|d s IH]; intros Hs;
    [apply not_elem_of_nil|].
  rewrite replace_cons, not_elem_of_app. split.
  - destruct (decide (d = old)) as [->|Hd]; [done|].
    rewrite list_elem_of_singleton. intros ->.
    destruct Hs as [?|Hs]; [done|]. apply Hs, elem_of_cons. by left.
  - apply IH. destruct Hs as [?|Hs]; [by left|right].
    by apply not_elem_of_cons in Hs as [_ ?].
Qed.

Lemma sanitize_content_no_markup (content : str) :
  (Char.LT ∉ sanitize_content content) ∧
  (Char.GT ∉ sanitize_content content).
Proof.
  assert (∀ c, c ∉ py "&lt;" → c ∉ py "&gt;" → c = Char.LT ∨ c = Char.GT →
               c ∉ sanitize_content content) as Hout.
  { intros c Hlt Hgt Hc. unfold sanitize_content.
    apply replace_out; [done|]. destruct Hc as [-> | ->]; [right|by left].
    apply replace_out; [done|by left]. }
  assert (∀ c, c ≠ 38%N → c ≠ 108%N → c ≠ 103%N → c ≠ 116%N → c ≠ 59%N →
               (c ∉ py "&lt;") ∧ (c ∉ py "&gt;")) as Hlit.
  { intros c ?????. split; intros Hin;
      repeat (apply elem_of_cons in Hin as [Hin|Hin]; [done|]);
      by apply elem_of_nil in Hin. }
  split; apply Hout; try apply Hlit; try done; (by left) || (by right).
Qed.
End Safe_records.

(** ** More on the highlighted view *)

Section Highlighting_more.
Lemma sanitize_content_id (content : str) :
  Char.LT ∉ content → Char.GT ∉ content → sanitize_content content = content.
Proof.
  unfold sanitize_content. induction content as [|c s IH]; intros Hl Hg;
    [done|].
  apply not_elem_of_cons in Hl as [Hcl Hl].
  apply not_elem_of_cons in Hg as [Hcg Hg].
  rewrite (replace_cons Char.LT), decide_False by done.
  rewrite replace_app. cbn [app]. rewrite IH by done.
  by rewrite (replace_cons Char.GT), decide_False by done.
Qed.

Lemma highlight_old_step_text (version : str) (h : Highlight)
    (d : DiffRecord) :
  highlighted_text (highlight_old_step version h d)
  = highlighted_text h
    ++ highlighted_text
         (highlight_old_step version
            (mkHighlight [] 0 (deletion_count h) (modification_count h)) d).
Proof.
  unfold highlight_old_step.
  repeat (destruct (decide _); [done|]). cbn [highlighted_text].
  by rewrite app_nil_r.
Qed.

Lemma highlight_new_step_text (version : str) (h : Highlight)
    (d : DiffRecord) :
  highlighted_text (highlight_new_step version h d)
  = highlighted_text h
    ++ highlighted_text
         (highlight_new_step version
            (mkHighlight [] (addition_count h) 0 (modification_count h)) d).
Proof.
  unfold highlight_new_step.
  repeat (destruct (decide _); [done|]). cbn [highlighted_text].
  by rewrite app_nil_r.
Qed.

(** The paragraph of an [equal] record. *)
Lemma highlight_old_equal (version : str) (ps : list str) (h : Highlight) :
  foldl (highlight_old_step version) h
    ((λ p, mkDiff (py "equal") p p) <$> ps)
  = mkHighlight
      (highlighted_text h
       ++ concat ((λ p, py "<p style='margin-bottom: 8px; line-height: 1.5;'>"
                        ++ sanitize_content p ++ py "</p>") <$> ps))
      (addition_count h) (deletion_count h) (modification_count h).
Proof.
  revert h. induction ps as [|p ps IH]; intros h.
  - cbn [fmap list_fmap foldl concat]. rewrite app_nil_r. by destruct h.
  - rewrite !fmap_cons. cbn [foldl concat]. rewrite IH.
    unfold highlight_old_step. cbn [type old_content].
    rewrite decide_True by done.
    cbn [highlighted_text addition_count deletion_count modification_count].
    by rewrite <-!app_assoc.
Qed.

Lemma highlight_new_equal (version : str) (ps : list str) (h : Highlight) :
  foldl (highlight_new_step version) h
    ((λ p, mkDiff (py "equal") p p) <$> ps)
  = mkHighlight
      (highlighted_text h
       ++ concat ((λ p, py "<p style='margin-bottom: 8px; line-height: 1.5;'>"
                        ++ sanitize_content p ++ py "</p>") <$> ps))
      (addition_count h) (deletion_count h) (modification_count h).
Proof.
  revert h. induction ps as [|p ps IH]; intros h.
  - cbn [fmap list_fmap foldl concat]. rewrite app_nil_r. by destruct h.
  - rewrite !fmap_cons. cbn [foldl concat]. rewrite IH.
    unfold highlight_new_step. cbn [type new_content].
    rewrite decide_True by done.
    cbn [highlighted_text addition_count deletion_count modification_count].
    by rewrite <-!app_assoc.
Qed.

Lemma fmap_sanitize_content_safe (f g : str → str) (ps : list str) :
  Forall (Forall safe_char) ps →
  (λ p, f p ++ sanitize_content p ++ g p) <$> ps
  = (λ p, f p ++ p ++ g p) <$> ps.
Proof.
  induction 1 as [|p ps Hp _ IH]; [done|].
  rewrite !fmap_cons, IH. by rewrite (sanitize_content_safe p Hp).
Qed.

(** The counters and the text before the last record. *)
Lemma highlight_old_state (version : str) (diffs : list DiffRecord) :
  let h := foldl (highlight_old_step version) (mkHighlight [] 0 0 0) diffs in
  deletion_count h = count_type (py "deleted") diffs ∧
  modification_count h = count_type (py "modified") diffs.
Proof.
  cbv zeta.
  by destruct (highlight_old_counts version diffs (mkHighlight [] 0 0 0))
    as [-> ->].
Qed.

Lemma highlight_new_state (version : str) (diffs : list DiffRecord) :
  let h := foldl (highlight_new_step version) (mkHighlight [] 0 0 0) diffs in
  addition_count h = count_type (py "added") diffs ∧
  modification_count h = count_type (py "modified") diffs.
Proof.
  cbv zeta.
  by destruct (highlight_new_counts version diffs (mkHighlight [] 0 0 0))
    as [-> ->].
Qed.
(** The last record adds what the body of the loop writes for it, given
    the numbers of records of its kind before it. *)
Lemma highlight_old_snoc (version : str) (diffs : list DiffRecord)
    (d : DiffRecord) :
  highlighted_text
    (foldl (highlight_old_step version) (mkHighlight [] 0 0 0) (diffs ++ [d]))
  = highlighted_text
      (foldl (highlight_old_step version) (mkHighlight [] 0 0 0) diffs)
    ++ highlighted_text
         (highlight_old_step version
            (mkHighlight [] 0 (count_type (py "deleted") diffs)
               (count_type (py "modified") diffs)) d).
Proof.
  rewrite foldl_snoc.
  destruct (highlight_old_state version diffs) as [Hd Hm].
  cbv zeta in Hd, Hm.
  rewrite (highlight_old_step_text version (foldl _ _ diffs)).
  by rewrite Hd, Hm.
Qed.

Lemma highlight_new_snoc (version : str) (diffs : list DiffRecord)
    (d : DiffRecord) :
  highlighted_text
    (foldl (highlight_new_step version) (mkHighlight [] 0 0 0) (diffs ++ [d]))
  = highlighted_text
      (foldl (highlight_new_step version) (mkHighlight [] 0 0 0) diffs)
    ++ highlighted_text
         (highlight_new_step version
            (mkHighlight [] (count_type (py "added") diffs) 0
               (count_type (py "modified") diffs)) d).
Proof.
  rewrite foldl_snoc.
  destruct (highlight_new_state version diffs) as [Ha Hm].
  cbv zeta in Ha, Hm.
  rewrite (highlight_new_step_text version (foldl _ _ diffs)).
  by rewrite Ha, Hm.
Qed.
End Highlighting_more.

(** ** Records with content *)

Section Content.
Import SequenceMatcher.

Lemma re_split_go_pieces (in_sep prev_end : bool) (cur s : str) :
  (in_sep = false → prev_end = true → cur ≠ []) →
  match last s with
  | Some c => Char.is_space c = false
  | None => cur ≠ []
  end →
  Forall (λ p, p ≠ []) (Str.re_split_go in_sep prev_end cur s).
Proof.
  revert in_sep prev_end cur. induction s as [|c s IH];
    intros in_sep prev_end cur Hcur Hlast; cbn [Str.re_split_go].
  - by apply Forall_singleton.
  - assert (cur ++ [c] ≠ []) as Hne by (by destruct cur).
    assert (∀ cur' : str, (s = [] → cur' ≠ []) →
            match last s with
            | Some c' => Char.is_space c' = false
            | None => cur' ≠ []
            end) as Hlast'.
    { intros cur' Hcur'. destruct s as [|c' s]; [by apply Hcur'|].
      change (last (c :: c' :: s)) with (last (c' :: s)) in Hlast.
      destruct (last (c' :: s)) eqn:Hl; [done|].
      by apply last_None in Hl. }
    assert (s = [] → Char.is_space c = false) as Hend
      by (intros ->; exact Hlast).
    destruct in_sep.
    + destruct (Char.is_space c) eqn:Hc.
      * apply IH; [done|]. apply Hlast'. intros Hs. by apply Hend in Hs.
      * apply IH; [done|]. by apply Hlast'.
    + destruct (prev_end && Char.is_space c) eqn:Hpc.
      * apply andb_true_iff in Hpc as [-> Hc]. constructor; [by apply Hcur|].
        apply IH; [done|]. apply Hlast'. intros Hs.
        apply Hend in Hs. congruence.
      * apply IH; [done|]. by apply Hlast'.
Qed.

Lemma re_split_sentences_pieces_nonempty (s w : str) (c : N) :
  s = w ++ [c] → Char.is_space c = false →
  Forall (λ p, p ≠ []) (Str.re_split_sentences s).
Proof.
  intros -> Hc. apply re_split_go_pieces; [done|]. by rewrite last_snoc.
Qed.

Lemma entity_last (c : N) :
  Char.is_space c = false →
  ∃ w d, entity c = w ++ [d] ∧ Char.is_space d = false.
Proof.
  intros Hc. unfold entity.
  destruct (decide _); [by exists (py "&lt"), 59%N|].
  destruct (decide _); [by exists (py "&gt"), 59%N|].
  destruct (decide _); [by exists (py "&#123"), 59%N|].
  destruct (decide _); [by exists (py "&#125"), 59%N|].
  by exists [], c.
Qed.

Lemma sanitize_last (s w : str) (c : N) :
  s = w ++ [c] → Char.is_space c = false →
  ∃ w' d, sanitize_for_display s = w' ++ [d] ∧ Char.is_space d = false.
Proof.
  intros -> Hc. destruct (entity_last c Hc) as (u & d & Hu & Hd).
  exists (sanitize_for_display w ++ u), d. split; [|done].
  rewrite sanitize_for_display_app.
  rewrite (sanitize_for_display_cons c []). cbn [sanitize_for_display].
  rewrite <-app_assoc, <-Hu. f_equal. unfold sanitize_for_display. simpl.
  by rewrite app_nil_r.
Qed.

Lemma join_nonempty (sep : str) (l : list str) :
  l ≠ [] → Forall (λ p, p ≠ []) l → Str.join sep l ≠ [].
Proof.
  intros Hne Hl. destruct Hl as [|x l Hx _]; [done|].
  destruct l; simpl; [done|]. by destruct x.
Qed.

Lemma sentence_emit_content (olds news : list str) (op : Opcode)
    (r : DiffRecord) :
  Forall (λ p, p ≠ []) olds → Forall (λ p, p ≠ []) news →
  op_ok olds news op → op_i2 op ≤ length olds → op_j2 op ≤ length news →
  r ∈ sentence_emit olds news op →
  (type r = py "added" ∨ old_content r ≠ []) ∧
  (type r = py "deleted" ∨ new_content r ≠ []).
Proof.
  intros Ho Hn Hop Hi Hj. unfold op_ok, sentence_emit in *.
  assert (op_i1 op < op_i2 op →
          Str.join (py " ") (slice olds (op_i1 op) (op_i2 op)) ≠ []) as Hjo.
  { intros ?. apply join_nonempty; [by apply slice_nonempty|].
    by apply slice_Forall. }
  assert (op_j1 op < op_j2 op →
          Str.join (py " ") (slice news (op_j1 op) (op_j2 op)) ≠ []) as Hjn.
  { intros ?. apply join_nonempty; [by apply slice_nonempty|].
    by apply slice_Forall. }
  destruct (op_tag op).
  - intros ->%list_elem_of_singleton. simpl. split; right;
      [apply Hjo|apply Hjn]; lia.
  - intros ->%list_elem_of_singleton. simpl. split; [right|by left].
    apply Hjo; lia.
  - intros ->%list_elem_of_singleton. simpl. split; [by left|right].
    apply Hjn; lia.
  - intros (s & -> & Hs)%list_elem_of_fmap. simpl.
    apply elem_of_slice in Hs. rewrite Forall_forall in Ho.
    split; right; by apply Ho.
Qed.
End Content.

(** ** The contents the summary collects *)

Section Collected.
Lemma tally_contents (diffs : list DiffRecord) (t : Tally) :
  let t' := foldl tally_step t diffs in
  added_content t'
  = added_content t
    ++ (new_content <$> filter (λ d, type d = py "added") diffs) ∧
  deleted_content t'
  = deleted_content t
    ++ (old_content <$> filter (λ d, type d = py "deleted") diffs) ∧
  modified_content t'
  = modified_content t
    ++ ((λ d, (old_content d, new_content d))
          <$> filter (λ d, type d = py "modified") diffs).
Proof.
  revert t. induction diffs as [|d diffs IH]; intros t.
  - cbn. by rewrite !app_nil_r.
  - cbn [foldl]. cbv zeta. destruct (IH (tally_step t d)) as (-> & -> & ->).
    rewrite !filter_cons. unfold tally_step.
    destruct (decide (type d = py "added")) as [Ha|?].
    { rewrite !decide_False by (rewrite Ha; done).
      cbn [added_content deleted_content modified_content].
      by rewrite fmap_cons, <-app_assoc. }
    destruct (decide (type d = py "deleted")) as [Hd|?].
    { rewrite !decide_False by (rewrite Hd; done).
      cbn [added_content deleted_content modified_content].
      by rewrite fmap_cons, <-app_assoc. }
    destruct (decide (type d = py "modified")) as [Hm|?].
    { cbn [added_content deleted_content modified_content].
      by rewrite fmap_cons, <-app_assoc. }
    by destruct (decide (type d = py "equal")).
Qed.
End Collected.

(** * The properties of the specification *)

(** C7.  [generate_summary []] has [total_elements = 0] and percentage [0]
    for the four kinds.  For every list of records [generate_summary]
    returns (no division by zero), its counts add up to [total_elements],
    and each percentage is the float [count / total_elements * 100] when
    [total_elements > 0] and the integer [0] when [total_elements = 0]. *)
Theorem generate_summary_percentages :
  generate_summary []
  = Ok (mkSummary 0 (mkWordStats 0 (Int 0) 0) (mkWordStats 0 (Int 0) 0)
          (mkModStats 0 (Int 0) 0 0) (mkEqualStats 0 (Int 0))) ∧
  ∀ diffs, ∃ s,
    generate_summary diffs = Ok s ∧
    total_elements s
    = count (additions s) + count (deletions s)
      + mod_count (modifications s) + eq_count (unchanged s) ∧
    let pct n :=
      if decide (0 < total_elements s)
      then Flt (ratio_percent n (total_elements s)) else Int 0 in
    percentage (additions s) = pct (count (additions s)) ∧
    percentage (deletions s) = pct (count (deletions s)) ∧
    mod_percentage (modifications s) = pct (mod_count (modifications s)) ∧
    eq_percentage (unchanged s) = pct (eq_count (unchanged s)).
Proof.
  split; [done|]. intros diffs. eexists. split; [apply generate_summary_Ok|].
  simpl. done.
Qed.

(** C9.  For a single [added] record, [additions.words] is the number of
    whitespace-separated words of its [new_content]; for
    [new_content = "a b c"] it is 3. *)
Theorem generate_summary_added_words :
  (∀ old new, ∃ s,
     generate_summary [mkDiff (py "added") old new] = Ok s ∧
     words (additions s) = length (Str.split_ws new)) ∧
  ∃ s, generate_summary [mkDiff (py "added") [] (py "a b c")] = Ok s ∧
       words (additions s) = 3.
Proof.
  split.
  - intros old new. eexists. split; [apply generate_summary_Ok|].
    simpl. unfold count_words. simpl. lia.
  - eexists. split; [apply generate_summary_Ok|]. done.
Qed.

(** C10.  [generate_summary] ignores the records whose type is none of
    ['added'], ['deleted'], ['modified'], ['equal']: the summary is that of
    the recognized records alone, [total_elements] is their number, and it
    can be less than the length of the list. *)
Theorem generate_summary_ignores_unrecognized :
  (∀ diffs, ∃ s,
     generate_summary diffs = Ok s ∧
     generate_summary (filter recognized diffs) = Ok s ∧
     total_elements s = length (filter recognized diffs) ∧
     total_elements s ≤ length diffs) ∧
  ∃ s, generate_summary [mkDiff (py "moved") (py "a") (py "b")] = Ok s ∧
       s = mkSummary 0 (mkWordStats 0 (Int 0) 0) (mkWordStats 0 (Int 0) 0)
             (mkModStats 0 (Int 0) 0 0) (mkEqualStats 0 (Int 0)) ∧
       total_elements s < length [mkDiff (py "moved") (py "a") (py "b")].
Proof.
  split.
  - intros diffs. eexists. split; [apply generate_summary_Ok|].
    split; [|split].
    + rewrite generate_summary_Ok. by rewrite tally_filter.
    + simpl. by rewrite tally_total.
    + simpl. rewrite tally_total. simpl. apply length_filter.
  - eexists. split; [apply generate_summary_Ok|]. split; [done|simpl; lia].
Qed.

(** C1 (as the specification states it).  The scenario does not give three
    records. *)
Lemma scenario_not_three_records :
  ¬ ∃ r1 r2 r3, compare_texts scenario_A scenario_B = Ok [r1; r2; r3].
Proof. intros (r1 & r2 & r3 & Hr). vm_compute in Hr. discriminate Hr. Qed.

(** C1 (amended).  The scenario gives two records: an [equal] record for
    "The cat sat." and one [modified] record with
    [old_content = "Dogs bark loudly."] and
    [new_content = "Dogs howl loudly. New paragraph here."]: the two
    sentence lists share no sentence, so the sentence matcher answers with
    one [replace] span. *)
Theorem scenario_two_records :
  compare_texts scenario_A scenario_B
  = Ok [mkDiff (py "equal") (py "The cat sat.") (py "The cat sat.");
        mkDiff (py "modified") (py "Dogs bark loudly.")
          (py "Dogs howl loudly. New paragraph here.")].
Proof. vm_compute. reflexivity. Qed.

(** C3 (as the specification states it).  The one record of
    [compare_texts("<", "<")] does not carry the paragraph ["<"] itself. *)
Lemma identity_not_raw_paragraph :
  compare_texts (py "<") (py "<")
  ≠ Ok ((λ p, mkDiff (py "equal") p p) <$> Str.split_nlnl (py "<")).
Proof. vm_compute. discriminate. Qed.

(** C3 (amended).  [compare_texts(T, T)] yields only [equal] records,
    exactly one per paragraph of [T] and in the order of the paragraphs;
    [old_content] and [new_content] of each are the paragraph after
    [sanitize_for_display]. *)
Theorem compare_texts_identity (T : str) :
  compare_texts T T
  = Ok ((λ p, mkDiff (py "equal")
                (sanitize_for_display p) (sanitize_for_display p))
          <$> Str.split_nlnl T).
Proof.
  unfold compare_texts.
  set (paragraphs := Str.split_nlnl (sanitize_for_display T)).
  rewrite get_opcodes_self
    by apply split_nlnl_nonempty.
  simpl. rewrite (append_all_Ok _ (paragraph_emit paragraphs paragraphs)).
  - f_equal. simpl. rewrite app_nil_r. unfold paragraph_emit. simpl.
    rewrite slice_full. subst paragraphs.
    rewrite split_nlnl_sanitize, <-list_fmap_compose. done.
  - intros op ->%list_elem_of_singleton.
    by apply paragraph_records_emit.
Qed.

(** C5.  [compare_texts] returns, and no content field of a record it
    returns contains [<], [>], [{] or [}]: the texts are rewritten first,
    character by character, with [<] as [&lt;], [>] as [&gt;], [{] as
    [&#123;] and [}] as [&#125;], so that a record can differ from the raw
    text, as for the text ["<"]. *)
Theorem compare_texts_sanitized :
  (∀ text1 text2, ∃ differences,
     compare_texts text1 text2 = Ok differences ∧
     Forall (λ r, Forall safe_char (old_content r) ∧
                  Forall safe_char (new_content r)) differences) ∧
  (∀ text, sanitize_for_display text = text ≫= entity) ∧
  (∀ text1 text2,
     compare_texts text1 text2
     = compare_texts (text1 ≫= entity) (text2 ≫= entity)) ∧
  compare_texts (py "<") (py "<")
  = Ok [mkDiff (py "equal") (py "&lt;") (py "&lt;")].
Proof.
  split; [|split; [|split]].
  - intros text1 text2.
    destruct (compare_texts_emit text1 text2) as (ops & _ & _ & ->).
    eexists. split; [done|]. apply Forall_forall.
    intros r (op & _ & Hr)%elem_of_concat_fmap.
    apply paragraph_emit_safe in Hr; [done|..];
      apply split_nlnl_Forall, sanitize_for_display_safe.
  - apply sanitize_for_display_bind.
  - intros text1 text2. unfold compare_texts.
    rewrite <-!sanitize_for_display_bind.
    assert (∀ s, sanitize_for_display (sanitize_for_display s)
                 = sanitize_for_display s) as Hidem; [|by rewrite !Hidem].
    intros s. pose proof (sanitize_for_display_safe s) as Hs.
    induction Hs as [|c w Hc Hw IH]; [done|].
    rewrite sanitize_for_display_cons, IH. unfold entity.
    destruct Hc as (? & ? & ? & ?). by rewrite !decide_False.
  - vm_compute. reflexivity.
Qed.

(** C6.  The opcodes of the two paragraph lists cover them: every span
    starts where the one before ends, from the first paragraph to the
    last; every index of a paragraph of either text lies in exactly one
    span; the spans of the paragraphs, one after the other, are the list of
    paragraphs; an [equal] span holds the same paragraphs on both sides.
    The records use up the units of the two texts (the paragraphs, and for
    a [replace] span its sentences), each unit once and in document order.
    The paragraphs are those of the input, sanitized. *)
Theorem compare_texts_coverage (text1 text2 : str) :
  let paragraphs1 := Str.split_nlnl (sanitize_for_display text1) in
  let paragraphs2 := Str.split_nlnl (sanitize_for_display text2) in
  ∃ opcodes differences,
    SequenceMatcher.get_opcodes paragraphs1 paragraphs2 = Ok opcodes ∧
    covers paragraphs1 paragraphs2 0 0 opcodes
      (length paragraphs1) (length paragraphs2) ∧
    concat (a_span <$> opcodes) = seq 0 (length paragraphs1) ∧
    concat (b_span <$> opcodes) = seq 0 (length paragraphs2) ∧
    concat ((λ op, slice paragraphs1 (op_i1 op) (op_i2 op)) <$> opcodes)
      = paragraphs1 ∧
    concat ((λ op, slice paragraphs2 (op_j1 op) (op_j2 op)) <$> opcodes)
      = paragraphs2 ∧
    compare_texts text1 text2 = Ok differences ∧
    traverses differences
      (concat (old_units paragraphs1 <$> opcodes))
      (concat (new_units paragraphs2 <$> opcodes)) ∧
    paragraphs1 = sanitize_for_display <$> Str.split_nlnl text1 ∧
    paragraphs2 = sanitize_for_display <$> Str.split_nlnl text2.
Proof.
  intros p1 p2.
  destruct (compare_texts_emit text1 text2) as (ops & Hops & Hc & Hrecs).
  fold p1 p2 in Hops, Hc, Hrecs.
  exists ops, (concat (paragraph_emit p1 p2 <$> ops)).
  destruct (covers_spans _ _ _ _ _ _ _ Hc) as (_ & _ & Ha & Hb).
  destruct (covers_slices _ _ _ _ _ _ _ Hc) as (Hsa & Hsb).
  rewrite !Nat.sub_0_r in Ha, Hb. rewrite !slice_full in Hsa, Hsb.
  repeat (split; [done|]).
  split; [by apply (paragraphs_traverses p1 p2 0 0 ops _ _ Hc)|].
  split; apply split_nlnl_sanitize.
Qed.

(** C8.  A [replace] span of paragraphs is refined once, into the records
    of the opcodes of its sentences: the result of [compare_texts] is what
    [paragraph_records] gives for the paragraph opcodes, one after the
    other; for a [replace] opcode that is what [sentence_records] gives
    for the opcodes of the sentence matcher, which is never empty; a
    [replace] opcode of sentences gives exactly one [modified] record,
    whose [old_content] and [new_content] are the sentences of its span on
    each side joined by spaces, and no other opcode, of paragraphs or of
    sentences, gives a [modified] record.  So every [modified] record
    comes from one [replace] opcode of the sentence matcher, run on the
    sentences of one [replace] span of paragraphs: its contents are the
    sentences of a non-empty contiguous span of each side joined by
    spaces, and nothing splits or matches them again. *)
Theorem modified_records_one_level (text1 text2 : str) :
  let paragraphs1 := Str.split_nlnl (sanitize_for_display text1) in
  let paragraphs2 := Str.split_nlnl (sanitize_for_display text2) in
  ∃ opcodes differences,
    SequenceMatcher.get_opcodes paragraphs1 paragraphs2 = Ok opcodes ∧
    compare_texts text1 text2 = Ok differences ∧
    (∃ records,
       Forall2 (λ op rs,
           paragraph_records paragraphs1 paragraphs2 op = Ok rs)
         opcodes records ∧
       differences = concat records) ∧
    (∀ op, op ∈ opcodes → op_tag op = Replace →
       let old_sentences := old_sentences_of paragraphs1 op in
       let new_sentences := new_sentences_of paragraphs2 op in
       ∃ sentence_opcodes sentence_recs,
         SequenceMatcher.get_opcodes old_sentences new_sentences
           = Ok sentence_opcodes ∧
         covers old_sentences new_sentences 0 0 sentence_opcodes
           (length old_sentences) (length new_sentences) ∧
         Forall2 (λ s_op rs,
             sentence_records old_sentences new_sentences s_op = Ok rs ∧
             (op_tag s_op = Replace →
              rs = [mkDiff (py "modified")
                      (Str.join (py " ")
                         (slice old_sentences (op_i1 s_op) (op_i2 s_op)))
                      (Str.join (py " ")
                         (slice new_sentences (op_j1 s_op) (op_j2 s_op)))]) ∧
             (op_tag s_op ≠ Replace →
              rs ≠ [] ∧ Forall (λ r, type r ≠ py "modified") rs))
           sentence_opcodes sentence_recs ∧
         paragraph_records paragraphs1 paragraphs2 op
           = Ok (concat sentence_recs) ∧
         concat sentence_recs ≠ []) ∧
    (∀ op rs, op ∈ opcodes → op_tag op ≠ Replace →
       paragraph_records paragraphs1 paragraphs2 op = Ok rs →
       Forall (λ r, type r ≠ py "modified") rs) ∧
    ∀ r, r ∈ differences → type r = py "modified" →
      ∃ op sentence_opcodes s_op,
        let old_sentences := old_sentences_of paragraphs1 op in
        let new_sentences := new_sentences_of paragraphs2 op in
        op ∈ opcodes ∧ op_tag op = Replace ∧
        SequenceMatcher.get_opcodes old_sentences new_sentences
          = Ok sentence_opcodes ∧
        s_op ∈ sentence_opcodes ∧ op_tag s_op = Replace ∧
        op_i1 s_op < op_i2 s_op ≤ length old_sentences ∧
        op_j1 s_op < op_j2 s_op ≤ length new_sentences ∧
        r = mkDiff (py "modified")
              (Str.join (py " ")
                 (slice old_sentences (op_i1 s_op) (op_i2 s_op)))
              (Str.join (py " ")
                 (slice new_sentences (op_j1 s_op) (op_j2 s_op))).
Proof.
  intros p1 p2.
  destruct (compare_texts_emit text1 text2) as (ops & Hops & Hc & Hrecs).
  fold p1 p2 in Hops, Hc, Hrecs.
  exists ops, (concat (paragraph_emit p1 p2 <$> ops)).
  split; [done|]. split; [done|].
  assert (∀ op, op ∈ ops →
            op_ok p1 p2 op ∧ op_i2 op ≤ length p1 ∧ op_j2 op ≤ length p2)
    as Hrange.
  { intros op Hop.
    by destruct (covers_in_range _ _ _ _ _ _ _ op Hc Hop)
      as (? & _ & ? & _ & ?). }
  split; [|split; [|split]].
  - exists (paragraph_emit p1 p2 <$> ops). split; [|done].
    apply Forall2_fmap_r, Forall_Forall2_diag, Forall_forall.
    intros op Hop. destruct (Hrange op Hop) as (_ & Hi & Hj).
    by apply paragraph_records_emit.
  - intros op Hop Htag. cbv zeta.
    destruct (Hrange op Hop) as (Hok & Hi & Hj).
    destruct (get_opcodes_covers
                (old_sentences_of p1 op) (new_sentences_of p2 op))
      as (sops & Hsops & Hsc).
    exists sops,
      (sentence_emit (old_sentences_of p1 op) (new_sentences_of p2 op)
         <$> sops).
    split; [done|]. split; [done|].
    pose proof (paragraph_emit_nonempty p1 p2 op Hok Hi Hj) as Hne.
    pose proof (paragraph_records_emit p1 p2 op Hi Hj) as Hemit.
    unfold paragraph_emit in Hne, Hemit. rewrite Htag in Hne, Hemit.
    cbv zeta in Hne, Hemit. rewrite Hsops in Hne, Hemit.
    split; [|done].
    apply Forall2_fmap_r, Forall_Forall2_diag, Forall_forall.
    intros sop Hsop.
    destruct (covers_in_range _ _ _ _ _ _ _ sop Hsc Hsop)
      as (Hsok & _ & Hsi & _ & Hsj).
    split; [by apply sentence_records_emit|]. split.
    + intros Hst. unfold sentence_emit. by rewrite Hst.
    + intros Hst. split; [by apply sentence_emit_nonempty|].
      unfold sentence_emit. destruct (op_tag sop); [done|..].
      * by apply Forall_singleton.
      * by apply Forall_singleton.
      * apply Forall_fmap, Forall_true. done.
  - intros op rs Hop Htag Hrs. destruct (Hrange op Hop) as (_ & Hi & Hj).
    rewrite paragraph_records_emit in Hrs by done. injection Hrs as <-.
    unfold paragraph_emit. destruct (op_tag op); [done|..];
      apply Forall_fmap, Forall_true; done.
  - intros r (op & Hop & Hr)%elem_of_concat_fmap Hty.
    destruct (type_modified_paragraph _ _ _ _ Hr Hty)
      as (Htag & sops & sop & Hsops & Hsop & Hrs).
    destruct (type_modified_sentence _ _ _ _ Hrs Hty)
      as (Hstag & Hold & Hnew).
    exists op, sops, sop. simpl. repeat (split; [done|]).
    destruct (get_opcodes_covers
                (old_sentences_of p1 op) (new_sentences_of p2 op))
      as (sops' & Hsops' & Hsc).
    rewrite Hsops in Hsops'. injection Hsops' as <-.
    destruct (covers_in_range _ _ _ _ _ _ _ sop Hsc Hsop)
      as (Hok & _ & ? & _ & ?).
    unfold op_ok in Hok. rewrite Hstag in Hok.
    split; [lia|]. split; [lia|].
    destruct r as [ty old new]. simpl in *. by subst.
Qed.

(** C2 (as the specification states it).  ["A"] and ["B"] share no
    paragraph and no sentence, and the result is not made of [deleted] and
    [added] records. *)
Lemma total_replacement_not_deleted_added :
  ∃ differences,
    compare_texts (py "A") (py "B") = Ok differences ∧
    ¬ Forall (λ r, type r = py "deleted" ∨ type r = py "added") differences.
Proof.
  exists [mkDiff (py "modified") (py "A") (py "B")].
  split; [vm_compute; reflexivity|].
  intros Hall. apply Forall_cons in Hall as [[Hr|Hr] _]; discriminate Hr.
Qed.

(** C2 (amended).  When the two texts share no paragraph, the paragraph
    matcher answers with one [replace] span over both texts, and the
    result is the sentence-level alignment of the whole texts: the records
    of the opcodes of the two sentence lists.  When the sentence lists
    share no sentence either, the result is one [modified] record:
    [old_content] is the sentences of the first text joined by spaces,
    [new_content] those of the second. *)
Theorem compare_texts_total_replacement (text1 text2 : str) :
  let s1 := sanitize_for_display text1 in
  let s2 := sanitize_for_display text2 in
  let old_sentences := Str.re_split_sentences s1 in
  let new_sentences := Str.re_split_sentences s2 in
  (∀ p, p ∈ Str.split_nlnl s1 → p ∉ Str.split_nlnl s2) →
  (∃ sentence_opcodes,
     SequenceMatcher.get_opcodes old_sentences new_sentences
       = Ok sentence_opcodes ∧
     covers old_sentences new_sentences 0 0 sentence_opcodes
       (length old_sentences) (length new_sentences) ∧
     compare_texts text1 text2
     = Ok (concat (sentence_emit old_sentences new_sentences
                     <$> sentence_opcodes))) ∧
  ((∀ s, s ∈ old_sentences → s ∉ new_sentences) →
   compare_texts text1 text2
   = Ok [mkDiff (py "modified")
           (Str.join (py " ") old_sentences)
           (Str.join (py " ") new_sentences)]).
Proof.
  intros s1 s2 olds news Hdis.
  destruct (compare_texts_disjoint text1 text2 Hdis)
    as (sops & Hsops & Hc & Hrecs).
  fold s1 s2 olds news in Hsops, Hc, Hrecs.
  split; [by exists sops|].
  intros Hsdis. rewrite Hrecs.
  rewrite get_opcodes_disjoint in Hsops;
    [|apply re_split_sentences_nonempty..|done].
  injection Hsops as <-.
  rewrite fmap_cons, fmap_nil. cbn [concat]. rewrite app_nil_r.
  unfold sentence_emit. cbn [op_tag op_i1 op_i2 op_j1 op_j2].
  by rewrite !slice_full.
Qed.

Lemma compare_texts_total_replacement_witness :
  compare_texts (py "A") (py "B")
  = Ok [mkDiff (py "modified") (py "A") (py "B")].
Proof.
  apply (compare_texts_total_replacement (py "A") (py "B")).
  - intros p Hp Hq.
    change (p ∈ [py "A"]) in Hp. change (p ∈ [py "B"]) in Hq.
    apply list_elem_of_singleton in Hp, Hq. subst p. discriminate Hq.
  - intros s Hs Hq.
    change (s ∈ [py "A"]) in Hs. change (s ∈ [py "B"]) in Hq.
    apply list_elem_of_singleton in Hs, Hq. subst s. discriminate Hq.
Defined.

(** C4 (as the specification states it).  The empty text against ["x"]:
    the result is not empty and not made of [added] records; and the empty
    text splits into one (empty) paragraph, which is not dropped. *)
Lemma empty_text_not_only_added :
  Str.split_nlnl (py "") = [py ""] ∧
  ∃ differences,
    compare_texts (py "") (py "x") = Ok differences ∧
    differences ≠ [] ∧
    ¬ Forall (λ r, type r = py "added") differences.
Proof.
  split; [done|].
  exists [mkDiff (py "modified") (py "") (py "x")].
  split; [vm_compute; reflexivity|]. split; [done|].
  intros Hall. apply Forall_cons in Hall as [Hr _]. discriminate Hr.
Qed.

(** C4 (amended).  Paragraph splitting drops nothing: a text always has at
    least one paragraph (the empty text has one empty paragraph) and the
    paragraphs joined by the delimiter are the text.  When the first text
    is empty, the result is never empty: it is made of [added] records and
    exactly one other record, an [equal] record with empty content or a
    [modified] record with empty [old_content].  When the second text is
    empty, it is made of [deleted] records and exactly one other record,
    an [equal] record with empty content or a [modified] record with empty
    [new_content]. *)
Theorem compare_texts_empty_text :
  (∀ text, Str.split_nlnl text ≠ [] ∧
           Str.join [Char.NL; Char.NL] (Str.split_nlnl text) = text) ∧
  (∀ text2, ∃ differences,
     compare_texts [] text2 = Ok differences ∧
     added_around_one differences) ∧
  (∀ text1, ∃ differences,
     compare_texts text1 [] = Ok differences ∧
     deleted_around_one differences).
Proof.
  split; [|split].
  - intros text. split; [apply split_nlnl_nonempty|apply join_split_nlnl].
  - apply compare_texts_empty_old.
  - apply compare_texts_empty_new.
Qed.

(** * Further properties of the code *)

(** X1.  [clean_text] is [' '.join(text.split())]: its result is the words
    of the text (the maximal runs of characters that are not whitespace),
    in order, with one space between two words. *)
Theorem clean_text_joins_words (text : str) :
  clean_text text = Str.join (py " ") (Str.split_ws text) ∧
  Forall is_word (Str.split_ws text).
Proof. split; [apply clean_text_words|apply split_ws_words]. Qed.

(** X2.  No paragraph boundary survives [clean_text]: after the first
    substitution the text has no newline, so the second substitution
    changes nothing and the split at blank lines gives one piece; the
    result contains no newline and is one paragraph for
    [split('\n\n')]. *)
Theorem clean_text_one_piece (text : str) :
  (Char.NL ∉ Whitespace.re_sub_spaces text) ∧
  Whitespace.re_sub_newlines (Whitespace.re_sub_spaces text)
  = Whitespace.re_sub_spaces text ∧
  Str.split_nlnl (Whitespace.re_sub_spaces text)
  = [Whitespace.re_sub_spaces text] ∧
  (Char.NL ∉ clean_text text) ∧
  Str.split_nlnl (clean_text text) = [clean_text text].
Proof.
  pose proof (re_sub_spaces_go_no_newline false text) as Hnl.
  fold (Whitespace.re_sub_spaces text) in Hnl.
  split; [done|]. split; [by apply re_sub_newlines_go_id|].
  split; [by apply split_nlnl_no_newline|].
  split; [apply clean_text_no_newline|].
  apply split_nlnl_no_newline, clean_text_no_newline.
Qed.

(** X3.  [clean_text] keeps the words of the text, and cleaning a cleaned
    text changes nothing. *)
Theorem clean_text_idempotent_words (text : str) :
  Str.split_ws (clean_text text) = Str.split_ws text ∧
  clean_text (clean_text text) = clean_text text.
Proof. split; [apply clean_text_split_ws|apply clean_text_idempotent]. Qed.

(** X4.  The result of [clean_text] has no whitespace at its ends
    ([strip] leaves it as it is), and it is empty exactly when the text
    consists of whitespace only (the empty text included). *)
Theorem clean_text_empty_iff_blank (text : str) :
  Whitespace.strip (clean_text text) = clean_text text ∧
  (clean_text text = [] ↔ Forall (λ c, Char.is_space c = true) text).
Proof. split; [apply clean_text_stripped|apply clean_text_nil]. Qed.

(** X5.  On two cleaned texts [compare_texts] never works at the level of
    paragraphs: each side is one paragraph.  When the two sanitized texts
    are the same the result is one [equal] record with the whole text;
    otherwise it is the alignment of the sentences of the two texts. *)
Theorem compare_texts_after_clean_text (text1 text2 : str) :
  let s1 := sanitize_for_display (clean_text text1) in
  let s2 := sanitize_for_display (clean_text text2) in
  let olds := Str.re_split_sentences s1 in
  let news := Str.re_split_sentences s2 in
  Str.split_nlnl s1 = [s1] ∧ Str.split_nlnl s2 = [s2] ∧
  (s1 = s2 →
   compare_texts (clean_text text1) (clean_text text2)
   = Ok [mkDiff (py "equal") s1 s1]) ∧
  (s1 ≠ s2 →
   ∃ sops,
     SequenceMatcher.get_opcodes olds news = Ok sops ∧
     covers olds news 0 0 sops (length olds) (length news) ∧
     compare_texts (clean_text text1) (clean_text text2)
     = Ok (concat (sentence_emit olds news <$> sops))).
Proof.
  cbv zeta.
  pose proof (clean_text_one_paragraph text1) as H1.
  pose proof (clean_text_one_paragraph text2) as H2.
  split; [done|]. split; [done|]. split.
  - intros Hs. rewrite (compare_texts_same_sanitized _ _ Hs), H1. done.
  - intros Hs.
    apply (compare_texts_disjoint (clean_text text1) (clean_text text2)).
    rewrite H1, H2. intros p ->%list_elem_of_singleton.
    by intros ?%list_elem_of_singleton.
Qed.

(** X6.  [compare_texts] returns for all inputs, its result is never
    empty, and every record has one of the four types with the content the
    type calls for: an [equal] record the same content on both sides, a
    [deleted] record no new content, an [added] record no old content. *)
Theorem compare_texts_records_shape (text1 text2 : str) :
  ∃ differences,
    compare_texts text1 text2 = Ok differences ∧
    differences ≠ [] ∧
    Forall well_formed differences ∧ Forall recognized differences.
Proof.
  destruct (compare_texts_shape text1 text2) as (ds & Hc & Hne & Hwf).
  exists ds. repeat split; try done.
  eapply Forall_impl; [done|]. apply well_formed_recognized.
Qed.

(** X7.  Nothing but whitespace is lost: the old contents of the records,
    one after the other, have the characters of the first sanitized text
    that are not whitespace, in order, and the new contents those of the
    second. *)
Theorem compare_texts_conserves_characters (text1 text2 : str) :
  ∃ differences,
    compare_texts text1 text2 = Ok differences ∧
    nonspace (concat (old_content <$> differences))
    = nonspace (sanitize_for_display text1) ∧
    nonspace (concat (new_content <$> differences))
    = nonspace (sanitize_for_display text2).
Proof. apply compare_texts_nonspace. Qed.

(** X8.  When the sanitized texts are the same, all records are [equal];
    when all records are [equal], the two sanitized texts have the same
    characters apart from whitespace.  They need not be the same text:
    ["A.  B."] and ["A. B."] give two [equal] records. *)
Theorem compare_texts_all_equal :
  (∀ text1 text2, ∃ differences,
     compare_texts text1 text2 = Ok differences ∧
     (sanitize_for_display text1 = sanitize_for_display text2 →
      Forall (λ r, type r = py "equal") differences) ∧
     (Forall (λ r, type r = py "equal") differences →
      nonspace (sanitize_for_display text1)
      = nonspace (sanitize_for_display text2))) ∧
  compare_texts (py "A.  B.") (py "A. B.")
  = Ok [mkDiff (py "equal") (py "A.") (py "A.");
        mkDiff (py "equal") (py "B.") (py "B.")].
Proof.
  split; [|vm_compute; reflexivity].
  intros text1 text2.
  destruct (compare_texts_nonspace text1 text2) as (ds & Hc & Ho & Hn).
  destruct (compare_texts_shape text1 text2) as (ds' & Hc' & _ & Hwf).
  rewrite Hc in Hc'. injection Hc' as <-.
  exists ds. split; [done|]. split.
  - intros Hs. rewrite (compare_texts_same_sanitized _ _ Hs) in Hc.
    injection Hc as <-. apply Forall_fmap, Forall_true. done.
  - intros Heq. rewrite <-Ho, <-Hn. f_equal. f_equal.
    apply Forall_fmap_ext. rewrite Forall_forall in Heq, Hwf.
    apply Forall_forall. intros r Hr.
    specialize (Heq r Hr). specialize (Hwf r Hr). simpl in Heq.
    unfold well_formed in Hwf. rewrite Heq in Hwf.
    destruct Hwf as [[_ ?]|[?|[[? _]|[? _]]]]; done.
Qed.

(** X9.  The summary of a result of [compare_texts] counts every record:
    [total_elements] is the length of the result, which is positive, the
    four counts add up to it, and every percentage is the float
    [count / total_elements * 100], never the integer [0] of the empty
    case. *)
Theorem generate_summary_of_compare_texts (text1 text2 : str) :
  ∃ differences summary,
    compare_texts text1 text2 = Ok differences ∧
    generate_summary differences = Ok summary ∧
    total_elements summary = length differences ∧
    0 < total_elements summary ∧
    count (additions summary) + count (deletions summary)
    + mod_count (modifications summary) + eq_count (unchanged summary)
    = length differences ∧
    percentage (additions summary)
    = Flt (ratio_percent (count (additions summary)) (length differences)) ∧
    percentage (deletions summary)
    = Flt (ratio_percent (count (deletions summary)) (length differences)) ∧
    mod_percentage (modifications summary)
    = Flt (ratio_percent (mod_count (modifications summary))
             (length differences)) ∧
    eq_percentage (unchanged summary)
    = Flt (ratio_percent (eq_count (unchanged summary))
             (length differences)).
Proof.
  destruct (compare_texts_shape text1 text2) as (ds & Hc & Hne & Hwf).
  exists ds. eexists. split; [done|].
  split; [apply generate_summary_Ok|].
  pose proof (tally_total ds (mkTally 0 0 0 0 [] [] [])) as Ht.
  cbv zeta in Ht. rewrite filter_recognized_all in Ht
    by (eapply Forall_impl; [done|apply well_formed_recognized]).
  cbn [total_elements additions deletions modifications unchanged
       count percentage mod_count mod_percentage eq_count eq_percentage].
  set (t := foldl tally_step _ ds) in *.
  cbn [added deleted modified unchanged_n] in Ht.
  assert (0 < length ds) by (destruct ds; [done|simpl; lia]).
  assert (added t + deleted t + modified t + unchanged_n t = length ds)
    as -> by lia.
  rewrite !decide_True by done. repeat split; try done; lia.
Qed.

(** X10.  [count_change_types] agrees with [generate_summary]: for every
    list of records its three numbers are the counts of additions,
    deletions and modifications of the summary, and together they are at
    most [total_elements], which is at most the length of the list. *)
Theorem count_change_types_summary (diffs : list DiffRecord) :
  ∃ summary,
    generate_summary diffs = Ok summary ∧
    count_change_types diffs
    = (count (additions summary), count (deletions summary),
       mod_count (modifications summary)) ∧
    count (additions summary) + count (deletions summary)
    + mod_count (modifications summary) ≤ total_elements summary ∧
    total_elements summary ≤ length diffs.
Proof.
  eexists. split; [apply generate_summary_Ok|].
  pose proof (tally_total diffs (mkTally 0 0 0 0 [] [] [])) as Ht.
  destruct (tally_counts diffs (mkTally 0 0 0 0 [] [] []))
    as (Ha & Hd & Hm).
  cbv zeta in Ht, Ha, Hd, Hm.
  cbn [total_elements additions deletions modifications count mod_count].
  set (t := foldl tally_step _ diffs) in *.
  cbn [added deleted modified unchanged_n] in Ht, Ha, Hd, Hm.
  pose proof (length_filter recognized diffs) as Hlen.
  unfold count_change_types. cbv zeta. rewrite Ha, Hd, Hm.
  split; [done|]. split; lia.
Qed.

(** X11.  A view shows one document only: the view of the first document
    does not depend on any [new_content], nor on the content of an [added]
    record; the view of the second document (any [version] other than
    ['old']) does not depend on any [old_content], nor on the content of a
    [deleted] record. *)
Theorem highlight_differences_one_document (diffs : list DiffRecord)
    (version : str) :
  highlight_differences diffs version
  = highlight_differences
      ((if decide (version = py "old") then blank_new else blank_old)
         <$> diffs) version.
Proof.
  unfold highlight_differences. cbv zeta.
  destruct (decide (version = py "old")).
  - by rewrite (foldl_fmap_ext _ blank_new)
      by apply highlight_old_step_blank.
  - by rewrite (foldl_fmap_ext _ blank_old)
      by apply highlight_new_step_blank.
Qed.

(** X12.  Records of a type other than the four are skipped by
    [highlight_differences] and by [count_change_types]: the results are
    those for the list without them. *)
Theorem highlight_differences_skips_unrecognized (diffs : list DiffRecord)
    (version : str) :
  highlight_differences (filter recognized diffs) version
  = highlight_differences diffs version ∧
  count_change_types (filter recognized diffs) = count_change_types diffs.
Proof.
  split.
  - unfold highlight_differences. cbv zeta.
    destruct (decide (version = py "old")).
    + by rewrite (foldl_filter_ext _ recognized)
        by apply highlight_old_step_unrecognized.
    + by rewrite (foldl_filter_ext _ recognized)
        by apply highlight_new_step_unrecognized.
  - destruct (tally_counts diffs (mkTally 0 0 0 0 [] [] []))
      as (Ha & Hd & Hm).
    destruct (tally_counts (filter recognized diffs)
                (mkTally 0 0 0 0 [] [] [])) as (Ha' & Hd' & Hm').
    cbv zeta in *. rewrite tally_filter in Ha', Hd', Hm'.
    unfold count_change_types. cbv zeta.
    cbn [added deleted modified] in *. f_equal; [f_equal|]; lia.
Qed.

(** X13.  [sanitize_content] leaves neither [<] nor [>], and applying it
    twice is applying it once; on every content field of a record of
    [compare_texts] it changes nothing, the text having been escaped
    before. *)
Theorem sanitize_content_after_compare_texts :
  (∀ content,
     (Char.LT ∉ sanitize_content content) ∧
     (Char.GT ∉ sanitize_content content) ∧
     sanitize_content (sanitize_content content)
     = sanitize_content content) ∧
  (∀ text1 text2, ∃ differences,
     compare_texts text1 text2 = Ok differences ∧
     Forall (λ r, sanitize_content (old_content r) = old_content r ∧
                  sanitize_content (new_content r) = new_content r)
       differences).
Proof.
  split.
  - intros content.
    destruct (sanitize_content_no_markup content) as [Hl Hg].
    split; [done|]. split; [done|]. by apply sanitize_content_id.
  - intros text1 text2.
    destruct (compare_texts_safe text1 text2) as (ds & Hc & Hs).
    exists ds. split; [done|]. eapply Forall_impl; [done|].
    intros r [Ho Hn]. split; by apply sanitize_content_safe.
Qed.

(** X14.  The anchors are numbered per kind, from 1, in the order of the
    records: a [deleted] or [modified] record at the end of the list adds
    to the view of the first document a paragraph whose id carries the
    number of [deleted] (of [modified]) records of the list, and an
    [added] or [modified] record adds to the view of the second document a
    paragraph whose id carries the number of [added] (of [modified])
    records. *)
Theorem highlight_differences_anchors (diffs : list DiffRecord)
    (version old new : str) :
  version ≠ py "old" →
  highlight_differences (diffs ++ [mkDiff (py "deleted") old new]) (py "old")
  = highlight_differences diffs (py "old")
    ++ py "<p id='" ++ py "old" ++ py "-deletion-"
    ++ str_of_int
         (count_type (py "deleted")
            (diffs ++ [mkDiff (py "deleted") old new]))
    ++ py "' style='margin-bottom: 8px; line-height: 1.5;'><span style='background-color: #FFCCCC; padding: 2px 0; border-radius: 3px;'>"
    ++ sanitize_content old ++ py "</span></p>" ∧
  highlight_differences (diffs ++ [mkDiff (py "modified") old new]) (py "old")
  = highlight_differences diffs (py "old")
    ++ py "<p id='" ++ py "old" ++ py "-modification-"
    ++ str_of_int
         (count_type (py "modified")
            (diffs ++ [mkDiff (py "modified") old new]))
    ++ py "' style='margin-bottom: 8px; line-height: 1.5;'><span style='background-color: #FFFFCC; padding: 2px 0; border-radius: 3px;'>"
    ++ sanitize_content old ++ py "</span></p>" ∧
  highlight_differences (diffs ++ [mkDiff (py "added") old new]) version
  = highlight_differences diffs version
    ++ py "<p id='" ++ version ++ py "-addition-"
    ++ str_of_int
         (count_type (py "added") (diffs ++ [mkDiff (py "added") old new]))
    ++ py "' style='margin-bottom: 8px; line-height: 1.5;'><span style='background-color: #CCFFCC; padding: 2px 0; border-radius: 3px;'>"
    ++ sanitize_content new ++ py "</span></p>" ∧
  highlight_differences (diffs ++ [mkDiff (py "modified") old new]) version
  = highlight_differences diffs version
    ++ py "<p id='" ++ version ++ py "-modification-"
    ++ str_of_int
         (count_type (py "modified")
            (diffs ++ [mkDiff (py "modified") old new]))
    ++ py "' style='margin-bottom: 8px; line-height: 1.5;'><span style='background-color: #FFFFCC; padding: 2px 0; border-radius: 3px;'>"
    ++ sanitize_content new ++ py "</span></p>".
Proof.
  intros Hv. unfold highlight_differences. cbv zeta.
  rewrite !(decide_True (P := py "old" = py "old")) by done.
  rewrite !(decide_False (P := version = py "old")) by done.
  rewrite !highlight_old_snoc, !highlight_new_snoc, !count_type_snoc.
  unfold highlight_old_step, highlight_new_step.
  cbn [type old_content new_content].
  rewrite !(decide_False (P := py "deleted" = py "equal")) by done.
  rewrite !(decide_False (P := py "deleted" = py "added")) by done.
  rewrite !(decide_False (P := py "modified" = py "equal")) by done.
  rewrite !(decide_False (P := py "modified" = py "added")) by done.
  rewrite !(decide_False (P := py "modified" = py "deleted")) by done.
  rewrite !(decide_False (P := py "added" = py "equal")) by done.
  rewrite !(decide_True (P := py "deleted" = py "deleted")) by done.
  rewrite !(decide_True (P := py "modified" = py "modified")) by done.
  rewrite !(decide_True (P := py "added" = py "added")) by done.
  cbn [highlighted_text deletion_count modification_count addition_count].
  rewrite !app_nil_l. done.
Qed.

Lemma highlight_differences_anchors_witness :
  py "new" ≠ py "old" ∧
  highlight_differences [mkDiff (py "added") [] (py "x")] (py "new")
  = py "<p id='new-addition-1' style='margin-bottom: 8px; line-height: 1.5;'><span style='background-color: #CCFFCC; padding: 2px 0; border-radius: 3px;'>x</span></p>".
Proof.
  assert (py "new" ≠ py "old") as Hv by done.
  split; [done|].
  destruct (highlight_differences_anchors [] (py "new") [] (py "x") Hv)
    as (_ & _ & Ha & _).
  rewrite app_nil_l in Ha. rewrite Ha. vm_compute. reflexivity.
Defined.

(** X15.  For a text compared with itself both views are the same: one
    plain paragraph for every paragraph of the sanitized text, with no
    anchor and no colour. *)
Theorem highlight_differences_identical (T version : str) :
  ∃ differences,
    compare_texts T T = Ok differences ∧
    highlight_differences differences version
    = concat ((λ p, py "<p style='margin-bottom: 8px; line-height: 1.5;'>"
                    ++ p ++ py "</p>")
                <$> Str.split_nlnl (sanitize_for_display T)).
Proof.
  eexists. split; [by apply compare_texts_same_sanitized|].
  unfold highlight_differences. cbv zeta.
  destruct (decide (version = py "old")).
  - rewrite highlight_old_equal. cbn [highlighted_text app].
    by rewrite (fmap_sanitize_content_safe (λ _, _) (λ _, _))
      by apply split_nlnl_Forall, sanitize_for_display_safe.
  - rewrite highlight_new_equal. cbn [highlighted_text app].
    by rewrite (fmap_sanitize_content_safe (λ _, _) (λ _, _))
      by apply split_nlnl_Forall, sanitize_for_display_safe.
Qed.

(** X16.  The sentences of a paragraph: there is always at least one,
    every sentence but the last ends in [.], [!] or [?], and the sentences
    together have the characters of the paragraph that are not whitespace,
    in order. *)
Theorem re_split_sentences_pieces (s : str) :
  ∃ init last,
    Str.re_split_sentences s = init ++ [last] ∧
    Forall ends_sentence init ∧
    nonspace (concat (Str.re_split_sentences s)) = nonspace s.
Proof.
  destruct (re_split_sentences_ends s) as (init & last & Hs & Hinit).
  exists init, last. split; [done|]. split; [done|].
  apply re_split_sentences_nonspace.
Qed.

(** X17.  Changes are set apart by [equal] records: of two records that
    follow one another in a result of [compare_texts], one is [equal], or
    both are [deleted], or both are [added].  So a [modified] record has
    only [equal] records next to it, and a [deleted] record is never
    directly followed by an [added] one, nor the other way round. *)
Theorem compare_texts_changes_separated (text1 text2 : str) :
  ∃ differences,
    compare_texts text1 text2 = Ok differences ∧
    separated differences ∧
    ∀ l1 r r' l2, differences = l1 ++ r :: r' :: l2 →
      neighbours r r' ∧
      (type r = py "modified" → type r' = py "equal") ∧
      (type r' = py "modified" → type r = py "equal") ∧
      (type r = py "deleted" → type r' ≠ py "added") ∧
      (type r = py "added" → type r' ≠ py "deleted").
Proof.
  destruct (compare_texts_separation text1 text2) as (ds & Hc & Hs).
  exists ds. split; [done|]. split; [done|].
  intros l1 r r' l2 ->. split; [|by eapply separated_modified].
  clear Hc. induction l1 as [|r0 l1 IH]; [by destruct Hs|].
  apply IH. by eapply separated_tail.
Qed.

(** X18.  For two cleaned texts that are not empty, every record of
    [compare_texts] has content to show: the old content is empty only in
    an [added] record, the new content only in a [deleted] record. *)
Theorem compare_texts_cleaned_content (text1 text2 : str) :
  clean_text text1 ≠ [] → clean_text text2 ≠ [] →
  ∃ differences,
    compare_texts (clean_text text1) (clean_text text2) = Ok differences ∧
    Forall (λ r, (type r = py "added" ∨ old_content r ≠ []) ∧
                 (type r = py "deleted" ∨ new_content r ≠ []))
      differences.
Proof.
  intros Hne1 Hne2.
  assert (∀ text, clean_text text ≠ [] →
            ∃ w d, sanitize_for_display (clean_text text) = w ++ [d] ∧
                   Char.is_space d = false) as Hlast.
  { intros text Hne. rewrite clean_text_words in Hne |- *.
    destruct (join_words_ends (Str.split_ws text)) as (_ & w & c & Hj & Hc).
    - apply split_ws_words.
    - by intros Hnil; rewrite Hnil in Hne.
    - by eapply sanitize_last. }
  destruct (Hlast text1 Hne1) as (w1 & d1 & Hs1 & Hd1).
  destruct (Hlast text2 Hne2) as (w2 & d2 & Hs2 & Hd2).
  pose proof (clean_text_one_paragraph text1) as H1.
  pose proof (clean_text_one_paragraph text2) as H2.
  destruct (decide (sanitize_for_display (clean_text text1)
                    = sanitize_for_display (clean_text text2))) as [Hs|Hs].
  - rewrite (compare_texts_same_sanitized _ _ Hs), H1. eexists.
    split; [done|]. rewrite fmap_cons, fmap_nil. apply Forall_singleton.
    cbn [type old_content new_content]. rewrite Hs1.
    split; right; by destruct w1.
  - destruct (compare_texts_disjoint (clean_text text1) (clean_text text2))
      as (sops & _ & Hc & ->).
    { rewrite H1, H2. intros p ->%list_elem_of_singleton.
      by intros ?%list_elem_of_singleton. }
    eexists. split; [done|]. apply Forall_forall.
    intros r (sop & Hsop & Hr)%elem_of_concat_fmap.
    destruct (covers_in_range _ _ _ _ _ _ _ sop Hc Hsop)
      as (Hok & _ & Hi & _ & Hj).
    apply (sentence_emit_content _ _ sop r
             (re_split_sentences_pieces_nonempty _ _ _ Hs1 Hd1)
             (re_split_sentences_pieces_nonempty _ _ _ Hs2 Hd2)
             Hok Hi Hj Hr).
Qed.

Lemma compare_texts_cleaned_content_witness :
  ∃ differences,
    compare_texts (clean_text (py " a  b. ")) (clean_text (py "a c.")) = Ok differences ∧
    Forall (λ r, (type r = py "added" ∨ old_content r ≠ []) ∧
                 (type r = py "deleted" ∨ new_content r ≠ []))
      differences.
Proof.
  apply (compare_texts_cleaned_content (py " a  b. ") (py "a c."));
    vm_compute; discriminate.
Defined.

(** X19.  The word totals of the summary, for every list of records: the
    words of the additions are the words of the new contents of the
    [added] records, those of the deletions the words of the old contents
    of the [deleted] records, and a [modified] record counts on both
    sides; [equal] records and records of another type add no words. *)
Theorem generate_summary_word_totals (diffs : list DiffRecord) :
  ∃ summary,
    generate_summary diffs = Ok summary ∧
    words (additions summary)
    = sum_list ((λ d, length (Str.split_ws (new_content d)))
                  <$> filter (λ d, type d = py "added") diffs) ∧
    words (deletions summary)
    = sum_list ((λ d, length (Str.split_ws (old_content d)))
                  <$> filter (λ d, type d = py "deleted") diffs) ∧
    words_old (modifications summary)
    = sum_list ((λ d, length (Str.split_ws (old_content d)))
                  <$> filter (λ d, type d = py "modified") diffs) ∧
    words_new (modifications summary)
    = sum_list ((λ d, length (Str.split_ws (new_content d)))
                  <$> filter (λ d, type d = py "modified") diffs).
Proof.
  eexists. split; [apply generate_summary_Ok|].
  destruct (tally_contents diffs (mkTally 0 0 0 0 [] [] []))
    as (Ha & Hd & Hm).
  cbv zeta in Ha, Hd, Hm.
  cbn [additions deletions modifications words words_old words_new].
  rewrite Ha, Hd, Hm. cbn [added_content deleted_content modified_content app].
  unfold count_words. by rewrite <-!list_fmap_compose.
Qed.
